(** * logsuck: the event store, the search refinement and the batched publisher

    A shallow embedding of

    - [internal/events/EventRepositorySqlite.go]
      ([AddBatch], [FilterStream], [GetByIds]),
    - the search package ([FilterEventsStream], [shouldIncludeEvent]),
    - the publisher ([BatchedRepositoryPublisher], [PublishEvent]),

    together with the properties the specification states about them.

    Conventions.  Go's [int64] identities and [time.Time] values are integers
    ([Z]; a time is a number of nanoseconds; the texts SQLite stores and
    compares for it are those of an [Engine]).  Counters whose value is bounded
    by the length of a slice (the per-source duplicate counter, the page
    offset) are written without wrap-around: a Go slice has fewer than 2^63
    elements.  A Go [map] is a [gmap]; where the code ranges over a map, the
    order of the visit is an explicit argument, because Go leaves it
    unspecified.  The SQLite engine is modelled by the functions of module
    [Sqlite]; anything the engine or the environment may refuse (I/O errors)
    is injected through explicit fault arguments. *)

From Stdlib Require Import ZArith String Ascii List Lia Sorted Permutation DecimalString.
From Stdlib Require OrderedTypeEx.
From stdpp Require Import base strings gmap list fin_maps sorting.

Set Default Proof Using "Type".

(** ** Results of fallible calls *)

Inductive Res (T : Type) : Type :=
  | Ok (v : T)
  | Err (msg : string).
Arguments Ok {T} v.
Arguments Err {T} msg.

(** [fmt.Errorf(prefix + ": %w", err)] *)
Definition Errorf (prefix msg : string) : string := (prefix ++ ": " ++ msg)%string.

(** ** Data model (package events) *)

Module Event.
Record t : Type := mk
  { Raw : string; Host : string; Source : string; Offset : Z; Timestamp : Z }.
End Event.
Abbreviation Event := Event.t.

(** Modelled from the spec: the declaration of [EventWithId] is not part of
    the sources at hand; section 3 describes it as an Event plus the
    store-assigned integer identity.  [FilterStream] and [GetByIds] scan the
    columns id, source, timestamp and raw into it. *)
Module EventWithId.
Record t : Type := mk
  { Id : Z; Raw : string; Host : string; Source : string; Timestamp : Z }.
(** the value of [var evt EventWithId] *)
Definition zero : t := mk 0 "" "" "" 0.
End EventWithId.
Abbreviation EventWithId := EventWithId.t.

Module RawEvent.
Record t : Type := mk { Raw : string; Source : string; Offset : Z }.
End RawEvent.
Abbreviation RawEvent := RawEvent.t.

(** Lines written with [log.Printf] / [log.Println].  Numbers are kept as
    numbers; elapsed wall-clock times are left out. *)
Inductive LogLine : Type :=
  | LogSkippedDuplicates (numEvents : Z) (source : string)
  | LogAdded (numEvents : nat)
  | LogExecutingStmt (matchString : string) (offset : nat)
  | LogError (what : string) (msg : string)
  | LogWarning (what : string) (msg : string).

Definition expectedConstraintViolationForDuplicates : string :=
  "UNIQUE constraint failed: Events.source, Events.timestamp, Events.offset".
Definition filterStreamPageSize : nat := 1000.

(** ** The SQLite database behind [sqliteRepository] *)

Module Sqlite.

(** A row of [Events (id INTEGER NOT NULL PRIMARY KEY, source, timestamp,
    offset, UNIQUE(source, timestamp, offset))]. *)
Record EventsRow : Type := mkE
  { e_id : Z; e_source : string; e_timestamp : Z; e_offset : Z }.

(** A row of the FTS4 table [EventRaws (raw, source)], with its rowid. *)
Record EventRawsRow : Type := mkR
  { r_rowid : Z; r_raw : string; r_source : string }.

(** Both tables, rows in insertion order. *)
Record Db : Type := mkDb
  { Events : list EventsRow; EventRaws : list EventRawsRow }.

Definition empty : Db := mkDb [] [].

(** A connection inside a transaction: the working copy of the tables and
    the value of [LAST_INSERT_ROWID()]. *)
Record Conn : Type := mkConn { c_db : Db; c_last_insert_rowid : Z }.

(** [SELECT MAX(id) FROM Events]: NULL on an empty table. *)
Definition max_id (rows : list EventsRow) : option Z :=
  foldr (fun r acc =>
           Some (match acc with None => e_id r | Some m => Z.max (e_id r) m end))
        None rows.

(** An INTEGER PRIMARY KEY that is not given receives the largest rowid
    in the table plus one, and 1 in an empty table. *)
Definition next_rowid (rows : list EventsRow) : Z :=
  match max_id rows with None => 1 | Some m => m + 1 end%Z.

Definition same_triple (s : string) (ts off : Z) (r : EventsRow) : bool :=
  String.eqb (e_source r) s && (e_timestamp r =? ts)%Z && (e_offset r =? off)%Z.

(** the UNIQUE(source, timestamp, offset) constraint *)
Definition violates_unique (rows : list EventsRow) (s : string) (ts off : Z) : bool :=
  existsb (same_triple s ts off) rows.

(** [INSERT INTO Events(source, timestamp, offset) VALUES(?, ?, ?)].
    A failing statement leaves the transaction as it was (SQLite aborts
    the statement, not the transaction).  On success the result carries
    the new rowid ([res.LastInsertId()]). *)
Definition insert_event (fault : option string) (c : Conn)
    (s : string) (ts off : Z) : Res (Conn * Z) :=
  match fault with
  | Some msg => Err msg
  | None =>
      let rows := Events (c_db c) in
      if violates_unique rows s ts off
      then Err expectedConstraintViolationForDuplicates
      else
        let i := next_rowid rows in
        Ok (mkConn (mkDb (rows ++ [mkE i s ts off]) (EventRaws (c_db c))) i, i)
  end.

(** [INSERT INTO EventRaws (rowid, raw, source) SELECT LAST_INSERT_ROWID(), ?, ?].
    A rowid already present in the table is refused. *)
Definition insert_raw (fault : option string) (c : Conn)
    (raw s : string) : Res Conn :=
  match fault with
  | Some msg => Err msg
  | None =>
      let i := c_last_insert_rowid c in
      if existsb (fun r => (r_rowid r =? i)%Z) (EventRaws (c_db c))
      then Err "constraint failed"
      else Ok (mkConn (mkDb (Events (c_db c))
                            (EventRaws (c_db c) ++ [mkR i raw s])) i)
  end.

(** How a transaction ended. *)
Inductive TxEnd : Type :=
  | TxNotStarted | TxCommitted | TxRolledBack | TxCommitFailed.

(** Every rowid of [EventRaws] is the id of a row of [Events]: what
    [AddBatch] maintains and the join of the read path relies on. *)
Definition raws_in_events (db : Db) : Prop :=
  ∀ r, r ∈ EventRaws db → ∃ e, e ∈ Events db ∧ e_id e = r_rowid r.

End Sqlite.
Import Sqlite.

(** Faults the environment may inject into one call of [AddBatch]: at
    [BeginTx], at the statements of the i-th event, at [Commit]. *)
Record Faults : Type := mkFaults
  { begin_fault : option string;
    insert_fault : nat → option string;
    lastid_fault : nat → option string;
    raw_fault : nat → option string;
    commit_fault : option string }.

Definition no_faults : Faults :=
  mkFaults None (fun _ => None) (fun _ => None) (fun _ => None) None.

(** ** [AddBatch] *)

Record AddBatchResult : Type := mkAddBatchResult
  { ab_ret : option (list Z);      (* the []int64, [None] for nil *)
    ab_err : option string;        (* the error, [None] for nil *)
    ab_db : Db;                    (* the database afterwards *)
    ab_tx : TxEnd;
    ab_log : list LogLine }.

(** [numberOfDuplicates[evt.Source]++] *)
Definition incr (k : string) (m : gmap string Z) : gmap string Z :=
  <[k := (default 0 (m !! k) + 1)%Z]> m.

(** The body of [for i, evt := range events]; an [Err] is an exit through
    one of the [tx.Rollback(); return nil, ...] branches. *)
Fixpoint AddBatch_loop (flt : Faults) (i : nat) (events : list Event)
    (c : Conn) (ret : list Z) (numberOfDuplicates : gmap string Z)
    : Res (Conn * list Z * gmap string Z) :=
  match events with
  | [] => Ok (c, ret, numberOfDuplicates)
  | evt :: rest =>
      match insert_event (insert_fault flt i) c
              (Event.Source evt) (Event.Timestamp evt) (Event.Offset evt) with
      | Err msg =>
          if String.eqb msg expectedConstraintViolationForDuplicates
          then AddBatch_loop flt (S i) rest c ret
                 (incr (Event.Source evt) numberOfDuplicates)
          else Err (Errorf "error executing add statement" msg)
      | Ok (c1, id) =>
          match lastid_fault flt i with
          | Some msg => Err (Errorf "error getting event id after insert" msg)
          | None =>
              match insert_raw (raw_fault flt i) c1
                      (Event.Raw evt) (Event.Source evt) with
              | Err msg => Err (Errorf "error executing add raw statement" msg)
              | Ok c2 =>
                  AddBatch_loop flt (S i) rest c2 (<[i := id]> ret) numberOfDuplicates
              end
          end
      end
  end.

(** [for k, v := range numberOfDuplicates { log.Printf(...) }] *)
Definition log_duplicates (numberOfDuplicates : gmap string Z) : list LogLine :=
  (fun kv => LogSkippedDuplicates kv.2 kv.1) <$> map_to_list numberOfDuplicates.

Definition AddBatch (flt : Faults) (db : Db) (events : list Event) : AddBatchResult :=
  let ret := replicate (length events) 0%Z in
  match begin_fault flt with
  | Some msg =>
      mkAddBatchResult None
        (Some (Errorf "error starting transaction for adding event" msg))
        db TxNotStarted []
  | None =>
      match AddBatch_loop flt 0 events (mkConn db 0) ret ∅ with
      | Err msg => mkAddBatchResult None (Some msg) db TxRolledBack []
      | Ok (c, ret, numberOfDuplicates) =>
          let log := log_duplicates numberOfDuplicates ++ [LogAdded (length events)] in
          match commit_fault flt with
          | None => mkAddBatchResult (Some ret) None (c_db c) TxCommitted log
          | Some _ =>
              (* [if err != nil { // TODO: Hmm? }] and then [return ret, nil] *)
              mkAddBatchResult (Some ret) None db TxCommitFailed log
          end
      end
  end.

(** ** [FilterStream] *)

(** The order in which one execution of the loop body visits the three sets
    ([for s := range sources] and so on). *)
Record Visit : Type := mkVisit
  { v_sources : list string; v_notSources : list string; v_fragments : list string }.

(** The text handed to [EventRaws MATCH '...'], built as lines 110-137 do. *)
Definition matchString (sources notSources fragments : list string) : string :=
  let m := ""%string in
  let m := if bool_decide (0 < length sources) then (m ++ "(")%string else m in
  let m := foldl (fun m s => (m ++ "source:" ++ s ++ " ")%string) m sources in
  let m := if bool_decide (0 < length sources ∧ length notSources = 0)
           then (m ++ ")")%string else m in
  let m := foldl (fun m s => (m ++ "NOT source:" ++ s ++ " ")%string) m notSources in
  let m := if bool_decide (0 < length notSources) then (m ++ ")")%string else m in
  let m := if bool_decide (0 < length sources ∨ 0 < length notSources)
           then (m ++ " AND ")%string else m in
  let m := if bool_decide (0 < length fragments) then (m ++ "(")%string else m in
  let m := foldl (fun m frag => (m ++ "raw:" ++ frag ++ " ")%string) m fragments in
  let m := if bool_decide (0 < length fragments) then (m ++ ")")%string else m in
  m.

(** The values lines 103-139 write into the SELECT of one page:
    [WHERE e.id < maxID [AND e.timestamp >= 'start'] [AND e.timestamp <= 'end']
     AND EventRaws MATCH 'match' ORDER BY e.timestamp DESC, e.id DESC
     LIMIT limit OFFSET offset].  The MATCH condition is always part of it.
    The text made of them is [stmt_text] below. *)
Record PageStmt : Type := mkPageStmt
  { st_maxID : Z;
    st_startTime : option Z;
    st_endTime : option Z;
    st_match : string;
    st_limit : nat;
    st_offset : nat }.

(** Parenthesis nesting of a MATCH text: the depth after reading it, [None]
    when a closing parenthesis has no opening one. *)
Fixpoint paren_depth (s : string) (depth : nat) : option nat :=
  match s with
  | EmptyString => Some depth
  | String c s' =>
      if Ascii.eqb c "("%char then paren_depth s' (S depth)
      else if Ascii.eqb c ")"%char
           then match depth with 0 => None | S d => paren_depth s' d end
           else paren_depth s' depth
  end.
Definition balanced (s : string) : bool :=
  match paren_depth s 0 with Some 0 => true | _ => false end.

(** Whether [needle] occurs in [s]. *)
Fixpoint contains (needle s : string) : bool :=
  String.prefix needle s
  || match s with EmptyString => false | String _ s' => contains needle s' end.

(** ** Text as SQLite reads and compares it *)

(** Whether a text can stand between two single quotes of an SQL statement
    without ending the literal. *)
Fixpoint quote_free (s : string) : bool :=
  match s with
  | EmptyString => true
  | String c s' => negb (Ascii.eqb c "'"%char) && quote_free s'
  end.

(** [strconv.Itoa] *)
Definition Itoa (n : Z) : string := NilZero.string_of_int (Z.to_int n).

(** What belongs to SQLite, to its driver and to Go's [time] package, not
    to this program:
    - [fts_match text row]: whether [EventRaws MATCH 'text'] holds of a row
      of the index (the FTS4 query language);
    - [timestamp_text t]: the text the driver stores in the column
      [timestamp] for the [time.Time] value [t] given to the INSERT;
    - [Time_String t]: the text of [t.String()];
    - [other_statement sql db]: the rows SQLite answers to a statement that
      it does not read as lines 103-139 wrote it, because a text put between
      two quotes holds a quote itself and ends the literal early. *)
Record Engine : Type := mkEngine
  { fts_match : string → EventRawsRow → bool;
    timestamp_text : Z → string;
    Time_String : Z → string;
    other_statement : string → Db → list EventWithId }.

Module Join.
(** [Events e INNER JOIN EventRaws r ON r.rowid = e.id] *)
Definition rows (db : Db) : list (EventsRow * EventRawsRow) :=
  e ← Events db;
  r ← EventRaws db;
  if bool_decide (r_rowid r = e_id e) then [(e, r)] else [].

(** [res.Scan(&evt.Id, &evt.Source, &evt.Timestamp, &evt.Raw)] *)
Definition scan (row : EventsRow * EventRawsRow) : EventWithId :=
  EventWithId.mk (e_id row.1) (r_raw row.2) "" (e_source row.1) (e_timestamp row.1).

(** [ORDER BY e.timestamp DESC, e.id DESC]: the column holds text, which
    SQLite orders byte by byte ([text] is the text stored for a time); rows
    of equal text are ordered by identity. *)
Definition before (text : Z → string) (a b : EventsRow * EventRawsRow) : Prop :=
  String.ltb (text (e_timestamp b.1)) (text (e_timestamp a.1)) = true
  ∨ (text (e_timestamp a.1) = text (e_timestamp b.1) ∧ (e_id a.1 >= e_id b.1)%Z).

#[global] Instance before_dec text a b : Decision (before text a b).
Proof. unfold before. apply _. Defined.
End Join.

(** The same order on scanned events. *)
Definition newer_or_equal (text : Z → string) (a b : EventWithId) : Prop :=
  String.ltb (text (EventWithId.Timestamp b)) (text (EventWithId.Timestamp a)) = true
  ∨ (text (EventWithId.Timestamp a) = text (EventWithId.Timestamp b)
     ∧ (EventWithId.Id a >= EventWithId.Id b)%Z).

(** [AND e.timestamp >= 'start'] and [AND e.timestamp <= 'end'], each present
    only when the bound is given.  The bound is the text of
    [startTime.String()] and of [endTime.String()]; the column holds the text
    the driver stored; SQLite compares the two texts byte by byte. *)
Definition time_ok (eng : Engine) (startTime endTime : option Z) (ts : Z) : bool :=
  match startTime with
  | Some s => String.leb (Time_String eng s) (timestamp_text eng ts)
  | None => true
  end
  && match endTime with
     | Some e => String.leb (timestamp_text eng ts) (Time_String eng e)
     | None => true
     end.

(** Faults of the read path: of the MAX(id) query and its scan, of the
    query of the k-th page, of the scan of a row of the k-th page, and of
    stepping through the rows of the k-th page ([rows_fault k = Some n]:
    [res.Next()] returns false after [n] rows because of an error, as it does
    when SQLite rejects the MATCH text while it evaluates the statement). *)
Record QueryFaults : Type := mkQueryFaults
  { maxid_query_fault : option string;
    maxid_no_row : bool;
    maxid_scan_fault : option string;
    page_query_fault : nat → option string;
    row_scan_fault : nat → EventWithId → option string;
    rows_fault : nat → option nat }.

Definition no_query_faults : QueryFaults :=
  mkQueryFaults None false None (fun _ => None) (fun _ _ => None) (fun _ => None).

Section Store.

Variable eng : Engine.

(** The text of the statement, as lines 103-139 concatenate it. *)
Definition stmt_text (st : PageStmt) : string :=
  let stmt :=
    ("SELECT e.id, e.source, e.timestamp, r.raw FROM Events e INNER JOIN EventRaws r ON r.rowid = e.id WHERE e.id < "
     ++ Itoa (st_maxID st))%string in
  let stmt :=
    match st_startTime st with
    | Some t => (stmt ++ " AND e.timestamp >= '" ++ Time_String eng t ++ "'")%string
    | None => stmt
    end in
  let stmt :=
    match st_endTime st with
    | Some t => (stmt ++ " AND e.timestamp <= '" ++ Time_String eng t ++ "'")%string
    | None => stmt
    end in
  let stmt := (stmt ++ " AND EventRaws MATCH '" ++ st_match st ++ "'")%string in
  (stmt ++ " ORDER BY e.timestamp DESC, e.id DESC LIMIT "
   ++ Itoa (Z.of_nat (st_limit st)) ++ " OFFSET " ++ Itoa (Z.of_nat (st_offset st))
   ++ ";")%string.

(** SQLite reads the text as the parts of [PageStmt] when none of the texts
    put between quotes holds a quote. *)
Definition reads_as_written (st : PageStmt) : bool :=
  quote_free (st_match st)
  && match st_startTime st with Some t => quote_free (Time_String eng t) | None => true end
  && match st_endTime st with Some t => quote_free (Time_String eng t) | None => true end.

Definition where_clause (st : PageStmt) (row : EventsRow * EventRawsRow) : bool :=
  (e_id row.1 <? st_maxID st)%Z
  && time_ok eng (st_startTime st) (st_endTime st) (e_timestamp row.1)
  && fts_match eng (st_match st) row.2.

(** all rows the statement selects, in its order, before LIMIT and OFFSET *)
Definition selected (db : Db) (st : PageStmt) : list (EventsRow * EventRawsRow) :=
  merge_sort (Join.before (timestamp_text eng))
    (filter (fun row => where_clause st row = true) (Join.rows db)).

Definition run_page (db : Db) (st : PageStmt) : list (EventsRow * EventRawsRow) :=
  take (st_limit st) (drop (st_offset st) (selected db st)).

(** [repo.db.Query(stmt)]: the rows of the answer, as [res.Scan] will read
    them. *)
Definition run_statement (db : Db) (st : PageStmt) : list EventWithId :=
  if reads_as_written st
  then Join.scan <$> run_page db st
  else other_statement eng (stmt_text st) db.

(** [for res.Next() { ... }] visits the rows of the answer.  When stepping
    fails after [n] rows the loop ends as it does after the last row; the code
    never reads [res.Err()], so nothing is logged. *)
Definition stepped (flt : QueryFaults) (page : nat) (rows : list EventWithId) :
    list EventWithId :=
  match rows_fault flt page with
  | Some n => take n rows
  | None => rows
  end.

(** The body of [for res.Next() { ... }]: the events that scanned, and the
    log lines of those that did not; [eventsInPage] is the length of
    [rows]. *)
Definition scan_rows (flt : QueryFaults) (page : nat)
    (rows : list EventWithId) : list EventWithId * list LogLine :=
  foldl (fun acc evt =>
           match row_scan_fault flt page evt with
           | Some msg =>
               (acc.1, acc.2 ++ [LogError "error when scanning result in FilterStream" msg])
           | None => (acc.1 ++ [evt], acc.2)
           end)
        ([], []) rows.

(** What the goroutine of [FilterStream] sent on the channel before closing
    it, and what it logged.  The store is the one the stream started on: rows
    added while it runs receive identities above the snapshot. *)
Record Stream : Type := mkStream
  { pages : list (list EventWithId); stream_log : list LogLine }.

(** The [for { ... }] of lines 102-164, [page] counting its iterations.
    [None]: the fuel ran out.  The line "executing stmt" is kept by the two
    parts of the statement that change, the MATCH text and the offset. *)
Fixpoint FilterStream_loop (fuel : nat) (flt : QueryFaults) (db : Db)
    (visit : nat → Visit) (startTime endTime : option Z) (maxID : Z)
    (page offset : nat) : option Stream :=
  match fuel with
  | 0 => None
  | S fuel =>
      let v := visit page in
      let ms := matchString (v_sources v) (v_notSources v) (v_fragments v) in
      let stmt := mkPageStmt maxID startTime endTime ms filterStreamPageSize offset in
      let executing := LogExecutingStmt ms offset in
      match page_query_fault flt page with
      | Some msg =>
          Some (mkStream []
                  [executing;
                   LogError "error when getting filtered events in FilterStream" msg])
      | None =>
          let rows := stepped flt page (run_statement db stmt) in
          let '(evts, scanlog) := scan_rows flt page rows in
          let eventsInPage := length rows in
          if bool_decide (eventsInPage < filterStreamPageSize)
          then Some (mkStream [evts] (executing :: scanlog))
          else
            match FilterStream_loop fuel flt db visit startTime endTime maxID
                    (S page) (offset + filterStreamPageSize) with
            | None => None
            | Some rest =>
                Some (mkStream (evts :: pages rest)
                        (executing :: scanlog ++ stream_log rest))
            end
      end
  end.

Definition FilterStream (fuel : nat) (flt : QueryFaults) (db : Db)
    (visit : nat → Visit) (startTime endTime : option Z) : option Stream :=
  match maxid_query_fault flt with
  | Some msg =>
      Some (mkStream []
              [LogError "error when getting max(id) from Events table in FilterStream" msg])
  | None =>
      if maxid_no_row flt
      then Some (mkStream []
                   [LogError "weird state in FilterStream" "expected one result when getting max(id) from Events but got 0"])
      else
        match maxid_scan_fault flt, max_id (Events db) with
        | Some msg, _ =>
            Some (mkStream [] [LogError "error when scanning max(id) in FilterStream" msg])
        | None, None =>
            (* MAX(id) of an empty table is NULL, which does not scan into an int *)
            Some (mkStream []
                    [LogError "error when scanning max(id) in FilterStream"
                              "converting NULL to int is unsupported"])
        | None, Some maxID =>
            FilterStream_loop fuel flt db visit startTime endTime maxID 0 0
        end
  end.

End Store.

(** ** [GetByIds] *)

(** How a call ends: with its results, or in a Go panic. *)
Inductive Outcome (T : Type) : Type :=
  | Returned (v : T)
  | Failed (err : string)
  | Panicked (why : string).
Arguments Returned {T} v.
Arguments Failed {T} err.
Arguments Panicked {T} why.

(** [strconv.FormatInt(id, 10)] *)
Definition FormatInt (z : Z) : string := NilZero.string_of_int (Z.to_int z).

(** [for i, id := range ids { ... }] of lines 174-180 *)
Fixpoint GetByIds_in_list (len : nat) (i : nat) (ids : list Z) (stmt : string) : string :=
  match ids with
  | [] => stmt
  | id :: rest =>
      if bool_decide (Z.of_nat i = Z.of_nat len - 1)%Z
      then GetByIds_in_list len (S i) rest (stmt ++ FormatInt id)%string
      else GetByIds_in_list len (S i) rest (stmt ++ FormatInt id ++ ",")%string
  end.

Definition GetByIds_stmt (ids : list Z) : string :=
  let stmt := "SELECT e.id, e.source, e.timestamp, r.raw FROM Events e INNER JOIN EventRaws r ON r.rowid = e.id WHERE e.id IN ("%string in
  let stmt := GetByIds_in_list (length ids) 0 ids stmt in
  (stmt ++ ");")%string.

Section GetByIds.

(** The order in which the engine hands out the rows of a SELECT without
    ORDER BY: some rearrangement of the rows, not fixed by SQL. *)
Variable retrieval_order :
  list (EventsRow * EventRawsRow) → list (EventsRow * EventRawsRow).

(** The rows of [... WHERE e.id IN (ids)].  SQLite accepts an empty list on
    the right of IN (unlike standard SQL) and then selects no row. *)
Definition select_by_ids (db : Db) (ids : list Z) : list (EventsRow * EventRawsRow) :=
  retrieval_order (filter (fun row => e_id row.1 ∈ ids) (Join.rows db)).

(** [for res.Next() { ... idx++ }]: taking [&ret[idx].Id] panics beyond the
    end of [ret]. *)
Fixpoint GetByIds_rows (scan_fault : nat → option string)
    (rows : list (EventsRow * EventRawsRow)) (idx : nat)
    (ret : list EventWithId) : Outcome (list EventWithId) :=
  match rows with
  | [] => Returned ret
  | row :: rest =>
      if bool_decide (idx < length ret)
      then match scan_fault idx with
           | Some msg => Failed (Errorf "error when scanning row in GetByIds" msg)
           | None => GetByIds_rows scan_fault rest (S idx) (<[idx := Join.scan row]> ret)
           end
      else Panicked "index out of range"
  end.

Definition GetByIds (query_fault : option string) (scan_fault : nat → option string)
    (db : Db) (ids : list Z) : Outcome (list EventWithId) :=
  let ret := replicate (length ids) EventWithId.zero in
  match query_fault with
  | Some msg => Failed (Errorf "error executing GetByIds query" msg)
  | None => GetByIds_rows scan_fault (select_by_ids db ids) 0 ret
  end.

End GetByIds.

(** ** Package search: the refinement of the coarse results *)

Module EventWithExtractedFields.
Record t : Type := mk
  { Id : Z; Raw : string; Timestamp : Z; Source : string;
    Fields : gmap string string }.
End EventWithExtractedFields.
Abbreviation EventWithExtractedFields := EventWithExtractedFields.t.

Section Search.

(** [*regexp.Regexp] and its [MatchString]; [parser.ExtractFields] with the
    configured extractors; [strings.ToLower]: none of them is this
    package's code. *)
Variable Regexp : Type.
Variable MatchString : Regexp → string → bool.
Variable FieldExtractors : Type.
Variable ExtractFields : string → FieldExtractors → gmap string string.
Variable ToLower : string → string.

(** The visit of one [for key, values := range compiledFields]. *)
Definition Range : Type := list (string * list Regexp).

(** a possible visit of the map [m] *)
Definition range_of (m : gmap string (list Regexp)) (visit : Range) : Prop :=
  visit ≡ₚ map_to_list m.

(** [for _, frag := range compiledFrags] of lines 102-107 *)
Fixpoint frags_loop (compiledFrags : list Regexp) (rawLowered : string)
    (include : bool) : bool :=
  match compiledFrags with
  | [] => include
  | frag :: rest =>
      if negb (MatchString frag rawLowered) then false
      else frags_loop rest rawLowered include
  end.

(** lines 108-113 *)
Fixpoint notFrags_loop (compiledNotFrags : list Regexp) (rawLowered : string)
    (include : bool) : bool :=
  match compiledNotFrags with
  | [] => include
  | frag :: rest =>
      if MatchString frag rawLowered then false
      else notFrags_loop rest rawLowered include
  end.

(** [anyMatch := false; for _, value := range values { ... }] *)
Definition anyMatch (values : list Regexp) (evtValue : string) : bool :=
  foldl (fun anyMatch value => if MatchString value evtValue then true else anyMatch)
        false values.

(** lines 114-130 *)
Fixpoint fields_loop (compiledFields : Range) (evtFields : gmap string string)
    (include : bool) : bool :=
  match compiledFields with
  | [] => include
  | (key, values) :: rest =>
      match evtFields !! key with
      | None => false
      | Some evtValue =>
          if negb (anyMatch values evtValue) then false
          else fields_loop rest evtFields include
      end
  end.

(** lines 131-146: a field that is absent leaves the loop with [include]
    as it is. *)
Fixpoint notFields_loop (compiledNotFields : Range) (evtFields : gmap string string)
    (include : bool) : bool :=
  match compiledNotFields with
  | [] => include
  | (key, values) :: rest =>
      match evtFields !! key with
      | None => include
      | Some evtValue =>
          if anyMatch values evtValue then false
          else notFields_loop rest evtFields include
      end
  end.

Definition shouldIncludeEvent (evt : EventWithId) (extractors : FieldExtractors)
    (compiledFrags compiledNotFrags : list Regexp)
    (compiledFields compiledNotFields : Range) : gmap string string * bool :=
  let rawLowered := ToLower (EventWithId.Raw evt) in
  let evtFields := ExtractFields (ToLower (EventWithId.Raw evt)) extractors in
  let evtFields := <["source" := EventWithId.Source evt]> evtFields in
  let include := true in
  let include := frags_loop compiledFrags rawLowered include in
  let include := notFrags_loop compiledNotFrags rawLowered include in
  let include := fields_loop compiledFields evtFields include in
  let include := notFields_loop compiledNotFields evtFields include in
  (evtFields, include).

(** The visits the runtime chose for the two maps while one event was
    examined. *)
Record Ranges : Type := mkRanges { range_fields : Range; range_notFields : Range }.

(** [for _, evt := range evts] of lines 74-85; [i] is the position of the
    event in its page. *)
Fixpoint refine_page (extractors : FieldExtractors)
    (compiledFrags compiledNotFrags : list Regexp) (ranges : nat → Ranges)
    (i : nat) (evts : list EventWithId) : list EventWithExtractedFields :=
  match evts with
  | [] => []
  | evt :: rest =>
      let '(evtFields, include) :=
        shouldIncludeEvent evt extractors compiledFrags compiledNotFrags
          (range_fields (ranges i)) (range_notFields (ranges i)) in
      let tail := refine_page extractors compiledFrags compiledNotFrags ranges (S i) rest in
      if include
      then EventWithExtractedFields.mk (EventWithId.Id evt) (EventWithId.Raw evt)
             (EventWithId.Timestamp evt) (EventWithId.Source evt) evtFields :: tail
      else tail
  end.

(** [FilterEventsStream]: [inputEvents] is what [repo.FilterStream]
    delivers, the compiled constraints are the results of
    [filtering.CompileKeys] and [filtering.CompileMap], and [ranges p i]
    are the visits chosen for the i-th event of the p-th page. *)
Definition FilterEventsStream (inputEvents : list (list EventWithId))
    (extractors : FieldExtractors)
    (compiledFrags compiledNotFrags : list Regexp)
    (ranges : nat → nat → Ranges) : list (list EventWithExtractedFields) :=
  imap (fun p evts =>
          refine_page extractors compiledFrags compiledNotFrags (ranges p) 0 evts)
       inputEvents.

End Search.

(** ** The batched publisher *)

Module Config.
Record t (FieldExtractors : Type) : Type := mk
  { HostName : string; FieldExtractors_ : FieldExtractors }.
Arguments mk {FieldExtractors} _ _.
Arguments HostName {FieldExtractors} _.
Arguments FieldExtractors_ {FieldExtractors} _.
End Config.

Section PublishEvent.

Variable FieldExtractors : Type.
Variable ExtractFields : string → FieldExtractors → gmap string string.
Variable ToLower : string → string.
(** [time.Parse(layout, value)] *)
Variable time_Parse : string → string → Res Z.

(** [PublishEvent]: [now] is what [time.Now()] answers during the call.
    The result is the event sent on [ep.adder] and what was logged; the
    method itself returns nothing. *)
Definition PublishEvent (cfg : Config.t FieldExtractors) (now : Z)
    (evt : RawEvent) (timeLayout : string) : Event * list LogLine :=
  let processed ts :=
    Event.mk (RawEvent.Raw evt) (Config.HostName cfg) (RawEvent.Source evt)
             (RawEvent.Offset evt) ts in
  let fields := ExtractFields (ToLower (RawEvent.Raw evt)) (Config.FieldExtractors_ cfg) in
  match fields !! "_time" with
  | Some t =>
      match time_Parse timeLayout t with
      | Err err =>
          (processed now,
           [LogWarning "failed to parse _time field, will use current time as timestamp" err])
      | Ok parsed => (processed parsed, [])
      end
  | None => (processed now, [])
  end.

End PublishEvent.

Module Flusher.

(** [1 * time.Second], in nanoseconds *)
Definition Second : Z := 1000000000.

(** The variables of the goroutine of [BatchedRepositoryPublisher]:
    the buffer, and the instant at which the channel of the pending
    [time.After] delivers. *)
Record State : Type := mkState { accumulated : list Event; timeout : Z }.

(** The case [select] takes, and the instant at which it does. *)
Inductive Select : Type :=
  | Timeout (now : Z)
  | Recv (now : Z) (evt : Event).

Definition at_time (sel : Select) : Z :=
  match sel with Timeout now => now | Recv now _ => now end.

(** [<-timeout] can only be taken once the timer has fired. *)
Definition enabled (st : State) (sel : Select) : Prop :=
  match sel with
  | Timeout now => (timeout st <= now)%Z
  | Recv _ _ => True
  end.

(** A call of [repo.AddBatch] made by the task. *)
Record Flush : Type := mkFlush { flushed_at : Z; batch : list Event }.

Section Loop.
(** the error [repo.AddBatch] answers, if any *)
Variable AddBatch_err : list Event → option string.

Definition log_flush_error (b : list Event) : list LogLine :=
  match AddBatch_err b with
  | Some msg => [LogError "error when adding events" msg]
  | None => []
  end.

(** The goroutine is started with an empty buffer of capacity 1000 and a
    timer of one second. *)
Definition init (start : Z) : State := mkState [] (start + Second).

(** One iteration of [for { select { ... } }]. *)
Definition step (st : State) (sel : Select) : State * list Flush * list LogLine :=
  match sel with
  | Timeout now =>
      if bool_decide (0 < length (accumulated st))
      then (mkState [] (now + Second), [mkFlush now (accumulated st)], [])
      else (mkState (accumulated st) (now + Second), [], [])
  | Recv now evt =>
      let acc := accumulated st ++ [evt] in
      if bool_decide (1000 ≤ length acc)
      then (mkState [] (now + Second), [mkFlush now acc], log_flush_error acc)
      else (mkState acc (timeout st), [], [])
  end.

(** The iterations a sequence of choices drives. *)
Fixpoint run (st : State) (sels : list Select) : State * list Flush :=
  match sels with
  | [] => (st, [])
  | sel :: rest =>
      let '(st1, fl, _) := step st sel in
      let '(st2, fls) := run st1 rest in
      (st2, fl ++ fls)
  end.

(** The choices are possible ones: each case is enabled when taken, and
    time does not go back. *)
Fixpoint feasible (st : State) (last : Z) (sels : list Select) : Prop :=
  match sels with
  | [] => True
  | sel :: rest =>
      enabled st sel ∧ (last <= at_time sel)%Z
      ∧ feasible (step st sel).1.1 (at_time sel) rest
  end.
End Loop.

End Flusher.

(** ** Vocabulary of the statements about [AddBatch] *)

Definition Triple : Type := string * Z * Z.

Definition triple_of_event (e : Event) : Triple :=
  (Event.Source e, Event.Timestamp e, Event.Offset e).
Definition triple_of_row (r : EventsRow) : Triple :=
  (e_source r, e_timestamp r, e_offset r).

(** the (source, timestamp, offset) triples a table holds *)
Definition stored (rows : list EventsRow) : list Triple := triple_of_row <$> rows.

(** The k-th event of a batch is a duplicate when its triple is in [st] (the
    triples present when the batch starts) or is the triple of an earlier
    event of the batch. *)
Definition dup_in (st : list Triple) (events : list Event) (k : nat) : bool :=
  match events !! k with
  | None => false
  | Some evt =>
      bool_decide (triple_of_event evt ∈ st ++ (triple_of_event <$> take k events))
  end.

Definition is_duplicate (db : Db) (events : list Event) (k : nat) : bool :=
  dup_in (stored (Events db)) events k.

(** the positions below [k] that hold a novel event *)
Definition novel_before (st : list Triple) (events : list Event) (k : nat) : list nat :=
  filter (fun j => dup_in st events j = false) (seq 0 k).

(** the number of duplicates of source [s] in a batch *)
Definition duplicates_of (st : list Triple) (events : list Event) (s : string) : nat :=
  length (filter (fun j => dup_in st events j = true
                           ∧ Event.Source <$> events !! j = Some s)
                 (seq 0 (length events))).

(** the lines of a log that report skipped duplicates of source [s] *)
Definition reports_skipped (s : string) (l : LogLine) : bool :=
  match l with
  | LogSkippedDuplicates _ s' => bool_decide (s' = s)
  | _ => false
  end.
Definition skipped_lines (s : string) (log : list LogLine) : list LogLine :=
  filter (fun l => reports_skipped s l = true) log.

(** the rowids of [EventRaws] lie below the next id of [Events] *)
Definition raws_below (db : Db) : Prop :=
  ∀ r, r ∈ EventRaws db → (r_rowid r < next_rowid (Events db))%Z.


(** the connection after the two INSERTs of a novel event *)
Definition with_event (c : Conn) (evt : Event) : Conn :=
  let n := next_rowid (Events (c_db c)) in
  mkConn (mkDb (Events (c_db c)
                  ++ [mkE n (Event.Source evt) (Event.Timestamp evt) (Event.Offset evt)])
               (EventRaws (c_db c) ++ [mkR n (Event.Raw evt) (Event.Source evt)]))
         n.

(** The error the statements of the k-th event end the call with, if they
    do: the INSERT failed with an error other than the duplicate violation;
    or the event is no duplicate, and the read of its identity or the INSERT
    of its raw text failed. *)
Definition failure_of (flt : Faults) (k : nat) (duplicate : bool) : option string :=
  match insert_fault flt k with
  | Some msg =>
      if String.eqb msg expectedConstraintViolationForDuplicates then None
      else Some (Errorf "error executing add statement" msg)
  | None =>
      if duplicate then None
      else match lastid_fault flt k, raw_fault flt k with
           | Some msg, _ => Some (Errorf "error getting event id after insert" msg)
           | None, Some msg => Some (Errorf "error executing add raw statement" msg)
           | None, None => None
           end
  end.

(** ** Sample data *)

Module Sample.
Definition e1 : Event := Event.mk "2024-01-01 error disk full src=a" "host" "A" 0 100.
Definition e2 : Event := Event.mk "2024-01-01 info ok src=b" "host" "B" 0 200.
Definition e3 : Event := Event.mk "2024-01-02 info ok src=b" "host" "B" 25 300.

(** a store that holds [e1] *)
Definition db1 : Db :=
  mkDb [mkE 1 "A" 100 0] [mkR 1 "2024-01-01 error disk full src=a" "A"].

(** only COMMIT fails *)
Definition commit_fails : Faults :=
  mkFaults None (fun _ => None) (fun _ => None) (fun _ => None) (Some "disk I/O error").

(** the INSERT of the second event fails *)
Definition second_insert_fails : Faults :=
  mkFaults None (fun i => if bool_decide (i = 1) then Some "disk I/O error" else None)
           (fun _ => None) (fun _ => None) None.

(** the INSERT of the raw text of the third event fails *)
Definition third_raw_insert_fails : Faults :=
  mkFaults None (fun _ => None) (fun _ => None)
           (fun i => if bool_decide (i = 2) then Some "disk I/O error" else None) None.
End Sample.

(** ** Vocabulary of the statements about [FilterStream] *)

Section StreamVocabulary.

Variable eng : Engine.
Variables (flt : QueryFaults) (db : Db) (visit : nat → Visit).
Variables (startTime endTime : option Z) (maxID : Z).

(** the statement of the k-th iteration *)
Definition page_stmt (k : nat) : PageStmt :=
  let v := visit k in
  mkPageStmt maxID startTime endTime
    (matchString (v_sources v) (v_notSources v) (v_fragments v))
    filterStreamPageSize (k * filterStreamPageSize).

(** the rows its loop visits *)
Definition page_rows (k : nat) : list EventWithId :=
  stepped flt k (run_statement eng db (page_stmt k)).

(** the k-th iteration ends the stream: its query fails, or its loop visits
    fewer rows than a page holds *)
Definition stops_at (k : nat) : Prop :=
  is_Some (page_query_fault flt k) ∨ length (page_rows k) < filterStreamPageSize.

(** What a stream that stopped in iteration [n] consists of: one page per
    iteration whose query succeeded, holding the rows of that iteration
    that scanned; and, if the last query failed, its error as the last line
    of the log. *)
Definition stream_of_iterations (n : nat) (s : Stream) : Prop :=
  length (pages s) = (if page_query_fault flt n is Some _ then n else S n)
  ∧ (∀ k evts, pages s !! k = Some evts →
       evts = filter (fun evt => row_scan_fault flt k evt = None) (page_rows k))
  ∧ (∀ msg, page_query_fault flt n = Some msg →
       last (stream_log s)
       = Some (LogError "error when getting filtered events in FilterStream" msg)).

(** No term of the search and no time bound holds a quote: every statement
    of the stream is read as it was written. *)
Definition no_quotes : Prop :=
  (∀ k, Forall (fun term => quote_free term = true)
          (v_sources (visit k) ++ v_notSources (visit k) ++ v_fragments (visit k)))
  ∧ (∀ t, startTime = Some t → quote_free (Time_String eng t) = true)
  ∧ (∀ t, endTime = Some t → quote_free (Time_String eng t) = true).

End StreamVocabulary.

(** the offsets of the statements a log reports as executed *)
Definition executed_offsets (log : list LogLine) : list nat :=
  omap (fun l => match l with LogExecutingStmt _ o => Some o | _ => None end) log.

(** the MAX(id) query, its one row and its scan all succeed *)
Definition prelude_ok (flt : QueryFaults) : Prop :=
  maxid_query_fault flt = None ∧ maxid_no_row flt = false ∧ maxid_scan_fault flt = None.

Module SampleQueries.
(** no sources, no notSources, no fragments *)
Definition unconstrained : nat → Visit := fun _ => mkVisit [] [] [].
(** one fragment / one source, the same in every iteration *)
Definition one_fragment (frag : string) : nat → Visit := fun _ => mkVisit [] [] [frag].
Definition one_source (s : string) : nat → Visit := fun _ => mkVisit [s] [] [].

(** A rendering of times whose byte order is the order of the numbers:
    twenty digits, zeros first. *)
Definition padded (t : Z) : string :=
  let s := Itoa t in
  (String.concat "" (replicate (20 - String.length s) "0") ++ s)%string.

(** a full-text index that lets every row through *)
Definition match_all : Engine :=
  mkEngine (fun _ _ => true) padded padded (fun _ _ => []).

(** the word of a MATCH text of the shape [(raw:word )] *)
Definition single_fragment (q : string) : option string :=
  let n := String.length q in
  if bool_decide (7 ≤ n) && String.prefix "(raw:" q
     && String.eqb (String.substring (n - 2) 2 q) " )"
  then Some (String.substring 5 (n - 7) q)
  else None.

(** A full-text index that answers the texts of one fragment, [(raw:word )],
    with the rows whose raw text holds the word, and every other text with no
    row. *)
Definition word_index : Engine :=
  mkEngine (fun q r => match single_fragment q with
                       | Some w => contains w (r_raw r)
                       | None => false
                       end)
           padded padded (fun _ _ => []).

(** The driver stores a time with its zone offset as [+00:00];
    [time.Time.String()] writes [ +0000 UTC]. *)
Definition go_formats : Engine :=
  mkEngine (fun _ _ => true)
           (fun t => (padded t ++ "+00:00")%string)
           (fun t => (padded t ++ " +0000 UTC")%string)
           (fun _ _ => []).

(** The fragment [line )' -- ]: its quote ends the MATCH literal, and the two
    dashes turn the rest of the statement, with ORDER BY, LIMIT and OFFSET,
    into a comment. *)
Definition commenting_fragment : nat → Visit := one_fragment "line )' -- ".

(** What SQLite answers to the statements of that search, which it reads as
    [... WHERE e.id < maxID AND EventRaws MATCH '(raw:line )']: every joined
    row below the snapshot whose raw text holds the word, whatever the
    offset. *)
Definition comment_reader : Engine :=
  mkEngine (fun _ _ => false) padded padded
           (fun _ db =>
              Join.scan <$>
                filter (fun row => (e_id row.1 < default 0 (max_id (Events db)))%Z
                                   ∧ contains "line" (r_raw row.2) = true)
                       (Join.rows db)).

(** the query of the second page fails *)
Definition second_query_fails : QueryFaults :=
  mkQueryFaults None false None
    (fun k => if bool_decide (k = 1) then Some "database is locked" else None)
    (fun _ _ => None) (fun _ => None).
(** stepping through the rows of the first page fails after [n] rows *)
Definition stepping_fails (n : nat) : QueryFaults :=
  mkQueryFaults None false None (fun _ => None) (fun _ _ => None)
    (fun k => if bool_decide (k = 0) then Some n else None).
(** a store of [n] events, the i-th with identity and timestamp i *)
Definition numbered (n : nat) : Db :=
  mkDb ((fun i => mkE (Z.of_nat i) "A" (Z.of_nat i) 0) <$> seq 1 n)
       ((fun i => mkR (Z.of_nat i) "line" "A") <$> seq 1 n).
End SampleQueries.

(** ** Vocabulary of the statements about [GetByIds] *)

(** the primary key of [Events] and the rowid of [EventRaws] identify a row *)
Definition keys_unique (db : Db) : Prop :=
  NoDup (e_id <$> Events db) ∧ NoDup (r_rowid <$> EventRaws db).

(** a store of three events, built by [AddBatch] *)
Definition three_events : Db :=
  ab_db (AddBatch no_faults Sqlite.empty [Sample.e1; Sample.e2; Sample.e3]).

(** ** Vocabulary of the statements about [shouldIncludeEvent] *)

Section SearchVocabulary.

Variable Regexp : Type.
Variable MatchString : Regexp → string → bool.

(** a required-field constraint is met: the field exists and one of the
    accepted patterns matches its value *)
Definition field_ok (evtFields : gmap string string) (kv : string * list Regexp) : bool :=
  match evtFields !! kv.1 with
  | None => false
  | Some v => existsb (fun p => MatchString p v) kv.2
  end.

(** a forbidden-field constraint is hit: the field exists and one of the
    forbidden patterns matches its value *)
Definition forbidden_hit (evtFields : gmap string string) (kv : string * list Regexp) : bool :=
  match evtFields !! kv.1 with
  | None => false
  | Some v => existsb (fun p => MatchString p v) kv.2
  end.

(** the constraints of a visit that come before the first one whose field
    the event does not have *)
Fixpoint before_first_absent (evtFields : gmap string string)
    (visit : list (string * list Regexp)) : list (string * list Regexp) :=
  match visit with
  | [] => []
  | kv :: rest =>
      match evtFields !! kv.1 with
      | None => []
      | Some _ => kv :: before_first_absent evtFields rest
      end
  end.

End SearchVocabulary.

(** ** Stand-ins for the code that is not this program's *)

Module Toy.

(** [strings.ToLower], on ASCII *)
Definition lower_ascii (c : ascii) : ascii :=
  let n := nat_of_ascii c in
  if (65 <=? n)%nat && (n <=? 90)%nat then ascii_of_nat (n + 32) else c.
Fixpoint ToLower (s : string) : string :=
  match s with
  | EmptyString => EmptyString
  | String c s' => String (lower_ascii c) (ToLower s')
  end.

(** a compiled pattern is its text; it matches the strings that contain it,
    whatever the case *)
Definition MatchString (pattern s : string) : bool :=
  contains (ToLower pattern) (ToLower s).

Fixpoint split (sep : ascii) (s : string) (cur : string) : list string :=
  match s with
  | EmptyString => [cur]
  | String c s' =>
      if Ascii.eqb c sep then cur :: split sep s' ""
      else split sep s' (cur ++ String c "")
  end.

Definition key_value (token : string) : option (string * string) :=
  match split "=" token "" with
  | [k; v] => Some (k, v)
  | _ => None
  end.

(** an extractor for [key=value] words *)
Definition ExtractFields (raw : string) (_ : unit) : gmap string string :=
  list_to_map (omap key_value (split " " raw "")).

Definition digit (c : ascii) : option Z :=
  let n := nat_of_ascii c in
  if (48 <=? n)%nat && (n <=? 57)%nat then Some (Z.of_nat (n - 48)) else None.

(** a [time.Parse] for times written as a number *)
Fixpoint parse_digits (s : string) (acc : Z) : Res Z :=
  match s with
  | EmptyString => Ok acc
  | String c s' =>
      match digit c with
      | Some d => parse_digits s' (10 * acc + d)%Z
      | None => Err "cannot parse time"
      end
  end.
Definition time_Parse (layout value : string) : Res Z :=
  match value with
  | EmptyString => Err "cannot parse time"
  | _ => parse_digits value 0
  end.

Definition include (evt : EventWithId)
    (frags notFrags : list string) (fields notFields : list (string * list string)) : bool :=
  (shouldIncludeEvent string MatchString unit ExtractFields ToLower
     evt tt frags notFrags fields notFields).2.

(** an event with [status=500] and no [host] field *)
Definition evt500 : EventWithId := EventWithId.mk 1 "GET /x status=500" "" "A" 100.
Definition evt502 : EventWithId := EventWithId.mk 2 "GET /y status=502" "" "A" 101.
Definition evt200 : EventWithId := EventWithId.mk 3 "GET /z status=200" "" "A" 102.
Definition evt_no_status : EventWithId := EventWithId.mk 4 "started ERROR handler" "" "A" 103.

(** the forbidden-field constraints [host: web1] and [status: 500], and the
    two orders in which a [range] may visit them *)
Definition notFields : gmap string (list string) :=
  {[ "host" := ["web1"]; "status" := ["500"] ]}.
Definition host_first : list (string * list string) :=
  [("host", ["web1"]); ("status", ["500"])].
Definition status_first : list (string * list string) :=
  [("status", ["500"]); ("host", ["web1"])].

End Toy.

Module ToyStream.
(** the refinement of one page that holds [Toy.evt500], under the forbidden
    fields [Toy.notFields] visited in the given order *)
Definition refine (visit : list (string * list string)) : list (list EventWithExtractedFields) :=
  FilterEventsStream string Toy.MatchString unit Toy.ExtractFields Toy.ToLower
    [[Toy.evt500]] tt [] [] (fun _ _ => mkRanges string [] visit).

(** the fields [shouldIncludeEvent] sees in an event *)
Definition fields_of (evt : EventWithId) : gmap string string :=
  <["source" := EventWithId.Source evt]>
    (Toy.ExtractFields (Toy.ToLower (EventWithId.Raw evt)) tt).

Definition cfg : Config.t unit := Config.mk "host1" tt.
Definition publish (now : Z) (evt : RawEvent) : Event * list LogLine :=
  PublishEvent unit Toy.ExtractFields Toy.ToLower Toy.time_Parse cfg now evt "unix".
End ToyStream.

(** ** Vocabulary of the statements about the flushing task *)

(** the submissions [select] receives, one after the other *)
Definition submissions (l : list (Z * Event)) : list Flusher.Select :=
  (fun te => Flusher.Recv te.1 te.2) <$> l.

(** ** Vocabulary of the further statements about the store *)

(** What the schema promises of a store: the primary key and the rowid
    identify a row, no (source, timestamp, offset) triple is stored twice, and
    every row of the index belongs to a stored event. *)
Definition store_ok (db : Db) : Prop :=
  keys_unique db ∧ NoDup (stored (Events db)) ∧ raws_in_events db.

(** ** Vocabulary of the further statements about the refinement *)

(** identity, raw text, timestamp and source of an event, before and after
    the refinement *)
Definition core (e : EventWithId) : Z * string * Z * string :=
  (EventWithId.Id e, EventWithId.Raw e, EventWithId.Timestamp e, EventWithId.Source e).
Definition forget_fields (e : EventWithExtractedFields) : Z * string * Z * string :=
  (EventWithExtractedFields.Id e, EventWithExtractedFields.Raw e,
   EventWithExtractedFields.Timestamp e, EventWithExtractedFields.Source e).

(** the order of the pages: the stored text of the timestamp descending,
    then identity descending *)
Definition core_newer_or_equal (text : Z → string) (a b : Z * string * Z * string) : Prop :=
  String.ltb (text b.1.2) (text a.1.2) = true
  ∨ (text a.1.2 = text b.1.2 ∧ (a.1.1.1 >= b.1.1.1)%Z).

(** ** Vocabulary of the further statements about the flushing task *)

(** the events a sequence of choices hands to the task, in their order *)
Definition received (sels : list Flusher.Select) : list Event :=
  omap (fun sel => match sel with
                   | Flusher.Recv _ evt => Some evt
                   | Flusher.Timeout _ => None
                   end) sels.

(** the events of the batches the task handed to the store, in their order *)
Definition flushed (fls : list Flusher.Flush) : list Event :=
  concat (Flusher.batch <$> fls).

(** ** Vocabulary of the further statements about the MATCH text *)

(** a term without parentheses *)
Fixpoint no_paren (s : string) : bool :=
  match s with
  | EmptyString => true
  | String c s' =>
      negb (Ascii.eqb c "("%char) && negb (Ascii.eqb c ")"%char) && no_paren s'
  end.

(** ** The publishers behind the interface [EventPublisher] *)

(** The implementations of [EventPublisher]: the batched publisher with its
    configuration, the debug publisher with the publisher it wraps ([None]
    for nil), and the publisher that does nothing. *)
Inductive EventPublisher (FieldExtractors : Type) : Type :=
  | batchedRepositoryPublisher (cfg : Config.t FieldExtractors)
  | debugEventPublisher (wrapped : option (EventPublisher FieldExtractors))
  | nopEventPublisher.
Arguments batchedRepositoryPublisher {FieldExtractors} cfg.
Arguments debugEventPublisher {FieldExtractors} wrapped.
Arguments nopEventPublisher {FieldExtractors}.

(** what a call of [PublishEvent] on a publisher logs *)
Inductive PublisherLog : Type :=
  | LogReceivedEvent (evt : RawEvent)     (* [log.Println("Received event:", evt)] *)
  | LogOfBatched (line : LogLine).

Section Publishers.

Variable FieldExtractors : Type.
Variable ExtractFields : string → FieldExtractors → gmap string string.
Variable ToLower : string → string.
Variable time_Parse : string → string → Res Z.

(** [ep.PublishEvent(evt, timeLayout)] through the interface: the events
    sent on the channel of a batched publisher, and the log. *)
Fixpoint EventPublisher_PublishEvent (ep : EventPublisher FieldExtractors) (now : Z)
    (evt : RawEvent) (timeLayout : string) : list Event * list PublisherLog :=
  match ep with
  | batchedRepositoryPublisher cfg =>
      let out := PublishEvent FieldExtractors ExtractFields ToLower time_Parse
                   cfg now evt timeLayout in
      ([out.1], LogOfBatched <$> out.2)
  | debugEventPublisher wrapped =>
      match wrapped with
      | Some w =>
          let out := EventPublisher_PublishEvent w now evt timeLayout in
          (out.1, LogReceivedEvent evt :: out.2)
      | None => ([], [LogReceivedEvent evt])
      end
  | nopEventPublisher => ([], [])
  end.

(** [DebugEventPublisher(DebugEventPublisher(... ep))], n times *)
Fixpoint DebugEventPublisher_times (n : nat) (ep : EventPublisher FieldExtractors)
    : EventPublisher FieldExtractors :=
  match n with
  | 0 => ep
  | S n => debugEventPublisher (Some (DebugEventPublisher_times n ep))
  end.

End Publishers.
(** ** Facts about the tables *)

Lemma violates_unique_stored rows s ts off :
  violates_unique rows s ts off = true ↔ (s, ts, off) ∈ stored rows.
Proof.
  unfold violates_unique, stored. rewrite existsb_exists. split.
  - intros (r & Hin & Hr). apply list_elem_of_fmap. exists r.
    apply list_elem_of_In in Hin. split; [|done].
    unfold same_triple in Hr. apply andb_true_iff in Hr as [Hr Hoff].
    apply andb_true_iff in Hr as [Hs Hts].
    apply String.eqb_eq in Hs. apply Z.eqb_eq in Hts, Hoff.
    unfold triple_of_row. by subst.
  - intros (r & Heq & Hin)%list_elem_of_fmap. exists r.
    split; [by apply list_elem_of_In|].
    unfold triple_of_row in Heq. injection Heq as -> -> ->.
    unfold same_triple. rewrite String.eqb_refl, !Z.eqb_refl. done.
Qed.

Lemma max_id_None rows : max_id rows = None ↔ rows = [].
Proof. destruct rows; simpl; split; intros; done. Qed.

Lemma max_id_ge rows m r : max_id rows = Some m → r ∈ rows → (e_id r <= m)%Z.
Proof.
  revert m. induction rows as [|x rows IH]; intros m Hm Hin; [by inv Hin|].
  simpl in Hm. apply elem_of_cons in Hin as [->|Hin].
  - destruct (max_id rows); injection Hm as <-; lia.
  - destruct (max_id rows) as [m'|] eqn:E.
    + injection Hm as <-. specialize (IH m' eq_refl Hin). lia.
    + apply max_id_None in E. subst. inv Hin.
Qed.

Lemma max_id_elem rows m : max_id rows = Some m → ∃ r, r ∈ rows ∧ e_id r = m.
Proof.
  revert m. induction rows as [|x rows IH]; intros m Hm; [done|].
  simpl in Hm. destruct (max_id rows) as [m'|] eqn:E.
  - injection Hm as <-. destruct (IH m' eq_refl) as (r & Hr & Hid).
    destruct (Z.max_spec (e_id x) m') as [[_ ->]|[_ ->]].
    + exists r. split; [by right|done].
    + exists x. split; [by left|done].
  - injection Hm as <-. exists x. split; [by left|done].
Qed.

Lemma next_rowid_gt rows r : r ∈ rows → (e_id r < next_rowid rows)%Z.
Proof.
  intros Hin. unfold next_rowid. destruct (max_id rows) as [m|] eqn:E.
  - pose proof (max_id_ge _ _ _ E Hin). lia.
  - apply max_id_None in E. subst. inv Hin.
Qed.

Lemma max_id_snoc rows r :
  (∀ x, x ∈ rows → e_id x < e_id r)%Z → max_id (rows ++ [r]) = Some (e_id r).
Proof.
  induction rows as [|x rows IH]; intros Hlt; [done|].
  simpl. rewrite IH.
  - f_equal. specialize (Hlt x (list_elem_of_here _ _)). lia.
  - intros y Hy. apply Hlt. by right.
Qed.

Lemma next_rowid_snoc rows s ts off :
  next_rowid (rows ++ [mkE (next_rowid rows) s ts off]) = (next_rowid rows + 1)%Z.
Proof.
  unfold next_rowid at 1. rewrite max_id_snoc; [done|].
  intros x Hx. simpl. by apply next_rowid_gt.
Qed.

Lemma raws_in_events_below db : raws_in_events db → raws_below db.
Proof.
  intros H r Hr. destruct (H r Hr) as (e & He & <-). by apply next_rowid_gt.
Qed.

(** ** One iteration of the loop of [AddBatch] when nothing fails *)

Lemma expected_message_eqb :
  String.eqb expectedConstraintViolationForDuplicates
             expectedConstraintViolationForDuplicates = true.
Proof. apply String.eqb_refl. Qed.

Lemma AddBatch_loop_duplicate i evt rest c ret nd :
  triple_of_event evt ∈ stored (Events (c_db c)) →
  AddBatch_loop no_faults i (evt :: rest) c ret nd
  = AddBatch_loop no_faults (S i) rest c ret (incr (Event.Source evt) nd).
Proof.
  intros Hin. apply violates_unique_stored in Hin.
  cbn [AddBatch_loop insert_fault no_faults insert_event].
  rewrite Hin. by rewrite expected_message_eqb.
Qed.

Lemma raw_rowid_free c :
  raws_in_events (c_db c) →
  existsb (fun r => (r_rowid r =? next_rowid (Events (c_db c)))%Z) (EventRaws (c_db c)) = false.
Proof.
  intros Hwf. apply not_true_is_false. rewrite existsb_exists.
  intros (r & Hr%list_elem_of_In & Heq%Z.eqb_eq).
  pose proof (raws_in_events_below _ Hwf r Hr). lia.
Qed.

Lemma AddBatch_loop_novel i evt rest c ret nd :
  raws_in_events (c_db c) →
  triple_of_event evt ∉ stored (Events (c_db c)) →
  AddBatch_loop no_faults i (evt :: rest) c ret nd
  = AddBatch_loop no_faults (S i) rest (with_event c evt)
      (<[i := next_rowid (Events (c_db c))]> ret) nd.
Proof.
  intros Hwf Hnin.
  assert (violates_unique (Events (c_db c)) (Event.Source evt)
            (Event.Timestamp evt) (Event.Offset evt) = false) as Hv.
  { apply not_true_is_false. by rewrite violates_unique_stored. }
  cbn [AddBatch_loop insert_fault lastid_fault raw_fault no_faults insert_event].
  rewrite Hv. cbn [insert_raw c_db c_last_insert_rowid EventRaws Sqlite.Events].
  by rewrite (raw_rowid_free c Hwf).
Qed.

Lemma with_event_wf c evt : raws_in_events (c_db c) → raws_in_events (c_db (with_event c evt)).
Proof.
  intros Hwf r. unfold with_event. cbn [c_db EventRaws Sqlite.Events].
  rewrite elem_of_app, list_elem_of_singleton. intros [Hr | ->].
  - destruct (Hwf r Hr) as (e & He & Hid). exists e. split; [|done].
    apply elem_of_app. by left.
  - eexists. split; [apply elem_of_app; right; apply list_elem_of_singleton; reflexivity|done].
Qed.

Lemma with_event_stored c evt :
  stored (Events (c_db (with_event c evt)))
  = stored (Events (c_db c)) ++ [triple_of_event evt].
Proof. unfold with_event, stored. cbn [c_db Sqlite.Events]. by rewrite fmap_app. Qed.

Lemma with_event_next_rowid c evt :
  next_rowid (Events (c_db (with_event c evt))) = (next_rowid (Events (c_db c)) + 1)%Z.
Proof. unfold with_event. cbn [c_db Sqlite.Events]. apply next_rowid_snoc. Qed.

(** ** Duplicates along a batch *)

Lemma dup_in_0 st evt rest :
  dup_in st (evt :: rest) 0 = bool_decide (triple_of_event evt ∈ st).
Proof.
  unfold dup_in. cbn [lookup list_lookup take fmap list_fmap].
  apply bool_decide_ext. by rewrite app_nil_r.
Qed.

Lemma dup_in_S st evt rest k :
  dup_in st (evt :: rest) (S k) = dup_in (st ++ [triple_of_event evt]) rest k.
Proof.
  unfold dup_in. cbn [lookup list_lookup]. destruct (rest !! k); [|done].
  apply bool_decide_ext. cbn [take]. rewrite fmap_cons, <- app_assoc. done.
Qed.

Lemma dup_in_ext st st' events k :
  (∀ t, t ∈ st ↔ t ∈ st') → dup_in st events k = dup_in st' events k.
Proof.
  intros H. unfold dup_in. destruct (events !! k); [|done].
  apply bool_decide_ext. rewrite !elem_of_app, H. done.
Qed.

Lemma dup_in_stored st events k evt :
  events !! k = Some evt → triple_of_event evt ∈ st → dup_in st events k = true.
Proof.
  intros Hk Hin. unfold dup_in. rewrite Hk. apply bool_decide_eq_true.
  apply elem_of_app. by left.
Qed.

Lemma length_filter_fmap_S (P : nat → Prop) `{∀ x, Decision (P x)} (l : list nat) :
  length (filter P (S <$> l)) = length (filter (fun j => P (S j)) l).
Proof.
  induction l as [|x l IH]; [done|].
  rewrite fmap_cons, !filter_cons. destruct (decide (P (S x))); simpl; by rewrite IH.
Qed.

Lemma novel_before_0 st events : novel_before st events 0 = [].
Proof. done. Qed.

Lemma novel_before_S st evt rest k :
  length (novel_before st (evt :: rest) (S k))
  = (if dup_in st (evt :: rest) 0 then 0 else 1)
    + length (novel_before (st ++ [triple_of_event evt]) rest k).
Proof.
  unfold novel_before. cbn [seq]. rewrite <- fmap_S_seq, filter_cons.
  pose proof (length_filter_fmap_S
                (fun j => dup_in st (evt :: rest) j = false) (seq 0 k)) as Hshift.
  assert (filter (fun j => dup_in st (evt :: rest) (S j) = false) (seq 0 k)
          = filter (fun j => dup_in (st ++ [triple_of_event evt]) rest j = false)
              (seq 0 k)) as Heq.
  { apply list_filter_iff. intros j. by rewrite dup_in_S. }
  cbv beta in Hshift. rewrite Heq in Hshift.
  destruct (dup_in st (evt :: rest) 0); case_decide; try done; simpl; lia.
Qed.

Lemma duplicates_of_nil st s : duplicates_of st [] s = 0.
Proof. done. Qed.

Lemma duplicates_of_cons st evt rest s :
  duplicates_of st (evt :: rest) s
  = (if dup_in st (evt :: rest) 0 && bool_decide (Event.Source evt = s) then 1 else 0)
    + duplicates_of (st ++ [triple_of_event evt]) rest s.
Proof.
  unfold duplicates_of. cbn [length seq]. rewrite <- fmap_S_seq, filter_cons.
  pose proof (length_filter_fmap_S
                (fun j => dup_in st (evt :: rest) j = true
                          ∧ Event.Source <$> (evt :: rest) !! j = Some s)
                (seq 0 (length rest))) as Hshift.
  assert (filter (fun j => dup_in st (evt :: rest) (S j) = true
                           ∧ Event.Source <$> (evt :: rest) !! S j = Some s)
            (seq 0 (length rest))
          = filter (fun j => dup_in (st ++ [triple_of_event evt]) rest j = true
                             ∧ Event.Source <$> rest !! j = Some s)
              (seq 0 (length rest))) as Heq.
  { apply list_filter_iff. intros j. by rewrite dup_in_S. }
  cbv beta in Hshift. rewrite Heq in Hshift. clear Heq.
  cbn [lookup list_lookup fmap option_fmap option_map].
  destruct (dup_in st (evt :: rest) 0); simpl.
  - case_bool_decide as Hs; case_decide as Hd; simpl; try lia.
    + exfalso. apply Hd. by rewrite Hs.
    + exfalso. destruct Hd as [_ Hd]. injection Hd as Hd. done.
  - exact Hshift.
Qed.

(** ** The loop of [AddBatch] when nothing fails *)

Ltac loop_cases c evt Hwf :=
  let Hd := fresh "Hdup" in
  let Hn := fresh "Hnovel" in
  destruct (decide (triple_of_event evt ∈ stored (Events (c_db c)))) as [Hd|Hn];
  [ rewrite (AddBatch_loop_duplicate _ evt _ c _ _ Hd)
  | rewrite (AddBatch_loop_novel _ evt _ c _ _ Hwf Hn) ].

Lemma stored_snoc_dup (c : Conn) st evt :
  (∀ t, t ∈ stored (Events (c_db c)) ↔ t ∈ st) →
  triple_of_event evt ∈ stored (Events (c_db c)) →
  ∀ t, t ∈ stored (Events (c_db c)) ↔ t ∈ st ++ [triple_of_event evt].
Proof.
  intros Hst Hd t. rewrite elem_of_app, list_elem_of_singleton, <- Hst.
  split; [auto|]. intros [?| ->]; done.
Qed.

Lemma stored_snoc_novel (c : Conn) st evt :
  (∀ t, t ∈ stored (Events (c_db c)) ↔ t ∈ st) →
  ∀ t, t ∈ stored (Events (c_db (with_event c evt))) ↔ t ∈ st ++ [triple_of_event evt].
Proof. intros Hst t. by rewrite with_event_stored, !elem_of_app, Hst. Qed.

Lemma dup_in_head_true (c : Conn) st evt rest :
  (∀ t, t ∈ stored (Events (c_db c)) ↔ t ∈ st) →
  triple_of_event evt ∈ stored (Events (c_db c)) → dup_in st (evt :: rest) 0 = true.
Proof. intros Hst Hd. rewrite dup_in_0. apply bool_decide_eq_true. by apply Hst. Qed.

Lemma dup_in_head_false (c : Conn) st evt rest :
  (∀ t, t ∈ stored (Events (c_db c)) ↔ t ∈ st) →
  triple_of_event evt ∉ stored (Events (c_db c)) → dup_in st (evt :: rest) 0 = false.
Proof. intros Hst Hn. rewrite dup_in_0. apply bool_decide_eq_false. by rewrite <- Hst. Qed.

Lemma AddBatch_loop_ok events : ∀ i c ret nd,
  raws_in_events (c_db c) →
  ∃ c' ret' nd',
    AddBatch_loop no_faults i events c ret nd = Ok (c', ret', nd')
    ∧ raws_in_events (c_db c')
    ∧ length ret' = length ret
    ∧ (∀ j, j < i → ret' !! j = ret !! j)
    ∧ Events (c_db c) `prefix_of` Events (c_db c')
    ∧ EventRaws (c_db c) `prefix_of` EventRaws (c_db c').
Proof.
  induction events as [|evt rest IH]; intros i c ret nd Hwf.
  - exists c, ret, nd. repeat split; done.
  - loop_cases c evt Hwf.
    + destruct (IH (S i) c ret (incr (Event.Source evt) nd) Hwf)
        as (c' & ret' & nd' & -> & ? & ? & Hlt & ? & ?).
      exists c', ret', nd'. repeat split; try done. intros j Hj. apply Hlt. lia.
    + destruct (IH (S i) (with_event c evt)
                  (<[i := next_rowid (Events (c_db c))]> ret) nd (with_event_wf c evt Hwf))
        as (c' & ret' & nd' & -> & ? & Hlen & Hlt & Hp1 & Hp2).
      exists c', ret', nd'. repeat split; try done.
      * by rewrite Hlen, length_insert.
      * intros j Hj. rewrite Hlt by lia. apply list_lookup_insert_ne. lia.
      * etrans; [|exact Hp1]. by apply prefix_app_r.
      * etrans; [|exact Hp2]. by apply prefix_app_r.
Qed.

Lemma AddBatch_loop_ret events : ∀ i c ret nd st c' ret' nd',
  raws_in_events (c_db c) →
  (∀ t, t ∈ stored (Events (c_db c)) ↔ t ∈ st) →
  AddBatch_loop no_faults i events c ret nd = Ok (c', ret', nd') →
  ∀ k evt, events !! k = Some evt → i + k < length ret →
    ret' !! (i + k)
    = if dup_in st events k then ret !! (i + k)
      else Some (next_rowid (Events (c_db c))
                 + Z.of_nat (length (novel_before st events k)))%Z.
Proof.
  induction events as [|evt rest IH]; intros i c ret nd st c' ret' nd' Hwf Hst Hloop k e Hk Hlen;
    [done|].
  revert Hloop. loop_cases c evt Hwf; intros Hloop.
  - destruct k as [|k].
    + rewrite (dup_in_head_true c) by done.
      destruct (AddBatch_loop_ok rest (S i) c ret (incr (Event.Source evt) nd) Hwf)
        as (? & ? & ? & Heq & _ & _ & Hlt & _).
      rewrite Hloop in Heq. injection Heq as <- <- <-. apply Hlt. lia.
    + rewrite dup_in_S, novel_before_S, (dup_in_head_true c) by done.
      replace (i + S k) with (S i + k) by lia.
      rewrite (IH _ _ _ _ (st ++ [triple_of_event evt]) _ _ _ Hwf
                 (stored_snoc_dup c st evt Hst Hdup) Hloop k e) by (done || lia).
      done.
  - pose proof (with_event_wf c evt Hwf) as Hwf'.
    destruct k as [|k].
    + rewrite (dup_in_head_false c), novel_before_0 by done.
      destruct (AddBatch_loop_ok rest (S i) (with_event c evt)
                  (<[i := next_rowid (Events (c_db c))]> ret) nd Hwf')
        as (? & ? & ? & Heq & _ & _ & Hlt & _).
      rewrite Hloop in Heq. injection Heq as <- <- <-.
      replace (i + 0) with i by lia. rewrite Hlt by lia.
      rewrite list_lookup_insert_eq by lia. f_equal. simpl. lia.
    + rewrite dup_in_S, novel_before_S, (dup_in_head_false c) by done.
      replace (i + S k) with (S i + k) by lia.
      rewrite (IH _ _ _ _ (st ++ [triple_of_event evt]) _ _ _ Hwf'
                 (stored_snoc_novel c st evt Hst) Hloop k e)
        by (done || rewrite length_insert; lia).
      rewrite with_event_next_rowid.
      destruct (dup_in (st ++ [triple_of_event evt]) rest k).
      * apply list_lookup_insert_ne. lia.
      * f_equal. lia.
Qed.

Lemma AddBatch_loop_rows events : ∀ i c ret nd st c' ret' nd',
  raws_in_events (c_db c) →
  (∀ t, t ∈ stored (Events (c_db c)) ↔ t ∈ st) →
  AddBatch_loop no_faults i events c ret nd = Ok (c', ret', nd') →
  ∀ k evt, events !! k = Some evt → dup_in st events k = false →
    let id := (next_rowid (Events (c_db c))
               + Z.of_nat (length (novel_before st events k)))%Z in
    mkE id (Event.Source evt) (Event.Timestamp evt) (Event.Offset evt) ∈ Events (c_db c')
    ∧ mkR id (Event.Raw evt) (Event.Source evt) ∈ EventRaws (c_db c').
Proof.
  induction events as [|evt rest IH]; intros i c ret nd st c' ret' nd' Hwf Hst Hloop k e Hk Hnd;
    [done|].
  revert Hloop. loop_cases c evt Hwf; intros Hloop.
  - destruct k as [|k].
    + by rewrite (dup_in_head_true c) in Hnd.
    + rewrite dup_in_S in Hnd. rewrite novel_before_S, (dup_in_head_true c) by done.
      exact (IH _ _ _ _ (st ++ [triple_of_event evt]) _ _ _ Hwf
               (stored_snoc_dup c st evt Hst Hdup) Hloop k e Hk Hnd).
  - pose proof (with_event_wf c evt Hwf) as Hwf'.
    destruct k as [|k].
    + injection Hk as ->. rewrite novel_before_0. simpl. rewrite Z.add_0_r.
      destruct (AddBatch_loop_ok rest (S i) (with_event c e)
                  (<[i := next_rowid (Events (c_db c))]> ret) nd Hwf')
        as (? & ? & ? & Heq & _ & _ & _ & Hp1 & Hp2).
      rewrite Hloop in Heq. injection Heq as <- <- <-. split.
      * eapply elem_of_prefix; [|exact Hp1]. unfold with_event. cbn [c_db Sqlite.Events].
        apply elem_of_app. right. by apply list_elem_of_singleton.
      * eapply elem_of_prefix; [|exact Hp2]. unfold with_event. cbn [c_db EventRaws].
        apply elem_of_app. right. by apply list_elem_of_singleton.
    + rewrite dup_in_S in Hnd. rewrite novel_before_S, (dup_in_head_false c) by done.
      pose proof (IH _ _ _ _ (st ++ [triple_of_event evt]) _ _ _ Hwf'
                    (stored_snoc_novel c st evt Hst) Hloop k e Hk Hnd) as H.
      cbv zeta in H. rewrite with_event_next_rowid in H.
      replace (next_rowid (Events (c_db c))
               + Z.of_nat (1 + length (novel_before (st ++ [triple_of_event evt]) rest k)))%Z
        with (next_rowid (Events (c_db c)) + 1
              + Z.of_nat (length (novel_before (st ++ [triple_of_event evt]) rest k)))%Z
        by lia.
      exact H.
Qed.

Lemma AddBatch_loop_count events : ∀ i c ret nd st c' ret' nd',
  raws_in_events (c_db c) →
  (∀ t, t ∈ stored (Events (c_db c)) ↔ t ∈ st) →
  AddBatch_loop no_faults i events c ret nd = Ok (c', ret', nd') →
  length (Events (c_db c'))
  = length (Events (c_db c)) + length (novel_before st events (length events)).
Proof.
  induction events as [|evt rest IH]; intros i c ret nd st c' ret' nd' Hwf Hst Hloop.
  - injection Hloop as <- <- <-. rewrite novel_before_0. simpl. lia.
  - revert Hloop. loop_cases c evt Hwf; intros Hloop; cbn [length]; rewrite novel_before_S.
    + rewrite (dup_in_head_true c) by done.
      exact (IH _ _ _ _ (st ++ [triple_of_event evt]) _ _ _ Hwf
               (stored_snoc_dup c st evt Hst Hdup) Hloop).
    + rewrite (dup_in_head_false c) by done.
      rewrite (IH _ _ _ _ (st ++ [triple_of_event evt]) _ _ _ (with_event_wf c evt Hwf)
                 (stored_snoc_novel c st evt Hst) Hloop).
      unfold with_event. cbn [c_db Sqlite.Events]. rewrite length_app. simpl. lia.
Qed.

Lemma AddBatch_loop_counters events : ∀ i c ret nd st c' ret' nd',
  raws_in_events (c_db c) →
  (∀ t, t ∈ stored (Events (c_db c)) ↔ t ∈ st) →
  AddBatch_loop no_faults i events c ret nd = Ok (c', ret', nd') →
  ∀ s, nd' !! s
       = match duplicates_of st events s with
         | 0 => nd !! s
         | S n => Some (default 0 (nd !! s) + Z.of_nat (S n))%Z
         end.
Proof.
  induction events as [|evt rest IH]; intros i c ret nd st c' ret' nd' Hwf Hst Hloop s.
  - injection Hloop as <- <- <-. done.
  - revert Hloop. loop_cases c evt Hwf; intros Hloop; rewrite duplicates_of_cons.
    + rewrite (dup_in_head_true c) by done.
      rewrite (IH _ _ _ _ (st ++ [triple_of_event evt]) _ _ _ Hwf
                 (stored_snoc_dup c st evt Hst Hdup) Hloop s).
      unfold incr. cbn [andb]. case_bool_decide as Hs.
      * subst s. rewrite lookup_insert_eq.
        destruct (duplicates_of (st ++ [triple_of_event evt]) rest (Event.Source evt));
          simpl; f_equal; lia.
      * rewrite lookup_insert_ne by done. done.
    + rewrite (dup_in_head_false c) by done.
      exact (IH _ _ _ _ (st ++ [triple_of_event evt]) _ _ _ (with_event_wf c evt Hwf)
               (stored_snoc_novel c st evt Hst) Hloop s).
Qed.

(** ** The lines [AddBatch] logs about duplicates *)

Lemma skipped_lines_absent s (l : list (string * Z)) :
  s ∉ l.*1 →
  skipped_lines s ((fun kv => LogSkippedDuplicates kv.2 kv.1) <$> l) = [].
Proof.
  induction l as [|[k v] l IH]; intros Hs; [done|].
  rewrite fmap_cons in Hs. apply not_elem_of_cons in Hs as [Hne Hs].
  unfold skipped_lines in *. rewrite fmap_cons, filter_cons_False; [by apply IH|].
  simpl. rewrite bool_decide_eq_true. simpl in Hne. congruence.
Qed.

Lemma skipped_lines_present s v (l : list (string * Z)) :
  NoDup l.*1 → (s, v) ∈ l →
  skipped_lines s ((fun kv => LogSkippedDuplicates kv.2 kv.1) <$> l)
  = [LogSkippedDuplicates v s].
Proof.
  induction l as [|[k w] l IH]; intros Hnd Hin; [by inv Hin|].
  rewrite fmap_cons in Hnd. apply NoDup_cons in Hnd as [Hk Hnd].
  apply elem_of_cons in Hin as [Heq|Hin].
  - injection Heq as <- <-. unfold skipped_lines. rewrite fmap_cons, filter_cons_True.
    + f_equal. by apply skipped_lines_absent.
    + simpl. by apply bool_decide_eq_true.
  - unfold skipped_lines in *. rewrite fmap_cons, filter_cons_False; [by apply IH|].
    simpl. rewrite bool_decide_eq_true. intros ->. apply Hk.
    apply list_elem_of_fmap. by exists (s, v).
Qed.

Lemma skipped_lines_log_duplicates s (nd : gmap string Z) :
  skipped_lines s (log_duplicates nd)
  = match nd !! s with Some v => [LogSkippedDuplicates v s] | None => [] end.
Proof.
  unfold log_duplicates. destruct (nd !! s) as [v|] eqn:E.
  - apply skipped_lines_present; [apply NoDup_fst_map_to_list|].
    by apply elem_of_map_to_list.
  - apply skipped_lines_absent. intros ([k v] & Hk & Hin)%list_elem_of_fmap.
    simpl in Hk. subst k. apply elem_of_map_to_list in Hin. congruence.
Qed.

Lemma skipped_lines_app s l1 l2 :
  skipped_lines s (l1 ++ l2) = skipped_lines s l1 ++ skipped_lines s l2.
Proof. apply filter_app. Qed.

Lemma duplicates_of_pos st events k evt :
  events !! k = Some evt → dup_in st events k = true →
  0 < duplicates_of st events (Event.Source evt).
Proof.
  intros Hk Hd. unfold duplicates_of.
  assert (k ∈ filter (fun j => dup_in st events j = true
                               ∧ Event.Source <$> events !! j = Some (Event.Source evt))
                (seq 0 (length events))) as Hin.
  { apply list_elem_of_filter. split; [by rewrite Hk|].
    apply elem_of_seq. apply lookup_lt_Some in Hk. lia. }
  destruct (filter _ _); [by inv Hin|simpl; lia].
Qed.

Lemma novel_before_length_le st events k : length (novel_before st events k) ≤ k.
Proof.
  unfold novel_before. etrans; [apply length_filter|]. by rewrite length_seq.
Qed.

(** ** [AddBatch]: duplicates *)

Lemma is_duplicate_in_range db events k :
  is_duplicate db events k = true → k < length events.
Proof.
  unfold is_duplicate, dup_in. destruct (events !! k) eqn:E; [|done].
  intros _. by eapply lookup_lt_Some.
Qed.

(** C5: a batch that meets no error commits whatever it contains.  An event
    whose (source, timestamp, offset) triple is already stored, or repeats an
    earlier event of the batch, is skipped: its position of the returned slice
    holds 0, the skips are counted per source and reported in exactly one log
    line per source, and the table grows by the novel events only, each of
    which receives a fresh identity and its two rows. *)
Theorem AddBatch_skips_duplicates (db : Db) (events : list Event) :
  raws_in_events db →
  let r := AddBatch no_faults db events in
  let st := stored (Events db) in
  ab_err r = None ∧ ab_tx r = TxCommitted
  ∧ raws_in_events (ab_db r)
  ∧ Events db `prefix_of` Events (ab_db r)
  ∧ length (Events (ab_db r))
    = length (Events db) + length (novel_before st events (length events))
  ∧ ∃ ret, ab_ret r = Some ret ∧ length ret = length events
    ∧ (∀ k, is_duplicate db events k = true → ret !! k = Some 0%Z)
    ∧ (∀ k evt, events !! k = Some evt → triple_of_event evt ∈ st →
         ret !! k = Some 0%Z
         ∧ ∃ n, (1 <= n)%Z
                ∧ skipped_lines (Event.Source evt) (ab_log r)
                  = [LogSkippedDuplicates n (Event.Source evt)])
    ∧ (∀ k evt, events !! k = Some evt → is_duplicate db events k = false →
         ∃ id, ret !! k = Some id
               ∧ (∀ e, e ∈ Events db → e_id e < id)%Z
               ∧ mkE id (Event.Source evt) (Event.Timestamp evt) (Event.Offset evt)
                 ∈ Events (ab_db r)
               ∧ mkR id (Event.Raw evt) (Event.Source evt) ∈ EventRaws (ab_db r))
    ∧ (∀ s, skipped_lines s (ab_log r)
            = match duplicates_of st events s with
              | 0 => []
              | S n => [LogSkippedDuplicates (Z.of_nat (S n)) s]
              end).
Proof.
  intros Hwf r st.
  destruct (AddBatch_loop_ok events 0 (mkConn db 0) (replicate (length events) 0%Z) ∅ Hwf)
    as (c' & ret' & nd' & Hloop & Hwf' & Hlen & _ & Hp1 & _).
  assert (∀ t, t ∈ stored (Events (c_db (mkConn db 0))) ↔ t ∈ st) as Hst by done.
  pose proof (AddBatch_loop_ret events 0 (mkConn db 0) _ _ st _ _ _ Hwf Hst Hloop) as Hret.
  pose proof (AddBatch_loop_rows events 0 (mkConn db 0) _ _ st _ _ _ Hwf Hst Hloop) as Hrows.
  pose proof (AddBatch_loop_count events 0 (mkConn db 0) _ _ st _ _ _ Hwf Hst Hloop) as Hcount.
  pose proof (AddBatch_loop_counters events 0 (mkConn db 0) _ _ st _ _ _ Hwf Hst Hloop) as Hnd.
  rewrite length_replicate in Hlen, Hret.
  assert (∀ s, skipped_lines s (ab_log r)
               = match duplicates_of st events s with
                 | 0 => []
                 | S n => [LogSkippedDuplicates (Z.of_nat (S n)) s]
                 end) as Hlog.
  { intros s. subst r. unfold AddBatch. cbn [begin_fault commit_fault no_faults].
    rewrite Hloop. cbn [ab_log]. rewrite skipped_lines_app, skipped_lines_log_duplicates.
    rewrite Hnd, lookup_empty. cbn [default].
    destruct (duplicates_of st events s); [done|]. by rewrite Z.add_0_l, app_nil_r. }
  assert (∀ k, is_duplicate db events k = true → ret' !! k = Some 0%Z) as Hzero.
  { intros k Hk. pose proof (is_duplicate_in_range _ _ _ Hk) as Hlt.
    destruct (lookup_lt_is_Some_2 events k Hlt) as [evt Hevt].
    specialize (Hret k evt Hevt Hlt). cbn [Nat.add] in Hret. rewrite Hret.
    unfold is_duplicate in Hk. fold st in Hk. rewrite Hk.
    by apply lookup_replicate_2. }
  subst r. unfold AddBatch in *. cbn [begin_fault commit_fault no_faults] in *.
  rewrite Hloop in *. cbn [ab_err ab_tx ab_db ab_ret ab_log] in *.
  repeat split; try done.
  exists ret'. repeat split; try done.
  - apply Hzero. by eapply dup_in_stored.
  - pose proof (dup_in_stored st events k evt H H0) as Hd.
    pose proof (duplicates_of_pos st events k evt H Hd) as Hpos.
    specialize (Hlog (Event.Source evt)).
    destruct (duplicates_of st events (Event.Source evt)) as [|n]; [lia|].
    exists (Z.of_nat (S n)). split; [lia|done].
  - intros k evt Hevt Hnovel. pose proof (lookup_lt_Some _ _ _ Hevt) as Hlt.
    specialize (Hret k evt Hevt Hlt). cbn [Nat.add] in Hret.
    unfold is_duplicate in Hnovel. fold st in Hnovel. rewrite Hnovel in Hret.
    eexists. split; [exact Hret|]. split.
    + intros e He. pose proof (next_rowid_gt _ _ He). cbn [c_db]. lia.
    + exact (Hrows k evt Hevt Hnovel).
Qed.

Lemma AddBatch_skips_duplicates_witness :
  raws_in_events Sample.db1
  ∧ ab_err (AddBatch no_faults Sample.db1 [Sample.e1; Sample.e2]) = None.
Proof.
  assert (raws_in_events Sample.db1) as Hwf.
  { intros r Hr. apply list_elem_of_singleton in Hr as ->.
    eexists. split; [apply list_elem_of_singleton; reflexivity|reflexivity]. }
  split; [exact Hwf|].
  exact (proj1 (AddBatch_skips_duplicates Sample.db1 [Sample.e1; Sample.e2] Hwf)).
Defined.

(** [e1] is stored already: position 0 holds 0, [e2] receives identity 2, one
    line reports the skip. *)
Example AddBatch_resubmission :
  let r := AddBatch no_faults Sample.db1 [Sample.e1; Sample.e2] in
  ab_ret r = Some [0; 2]%Z
  ∧ ab_log r = [LogSkippedDuplicates 1 "A"; LogAdded 2]
  ∧ length (Events (ab_db r)) = 2.
Proof. vm_compute. done. Qed.

Lemma novel_before_all st events k :
  (∀ j, j < k → dup_in st events j = false) → length (novel_before st events k) = k.
Proof.
  intros Hall. unfold novel_before.
  assert (filter (fun j => dup_in st events j = false) (seq 0 k) = seq 0 k) as ->;
    [|by rewrite length_seq].
  assert (∀ j, j ∈ seq 0 k → dup_in st events j = false) as Hin.
  { intros j Hj%elem_of_seq. apply Hall. lia. }
  clear Hall. induction (seq 0 k) as [|x l IH]; [done|].
  rewrite filter_cons_True by (apply Hin; left).
  f_equal. apply IH. intros j Hj. apply Hin. by right.
Qed.

(** A batch without duplicates receives as many identities as it has events,
    all of them new and consecutive: the first part of C1. *)
Lemma AddBatch_fresh_increasing_ids (db : Db) (events : list Event) :
  raws_in_events db →
  (∀ k, k < length events → is_duplicate db events k = false) →
  ab_ret (AddBatch no_faults db events)
  = Some ((fun k => next_rowid (Events db) + Z.of_nat k)%Z <$> seq 0 (length events)).
Proof.
  intros Hwf Hnovel.
  destruct (AddBatch_loop_ok events 0 (mkConn db 0) (replicate (length events) 0%Z) ∅ Hwf)
    as (c' & ret' & nd' & Hloop & _ & Hlen & _).
  assert (∀ t, t ∈ stored (Events (c_db (mkConn db 0))) ↔ t ∈ stored (Events db))
    as Hst by done.
  pose proof (AddBatch_loop_ret events 0 (mkConn db 0) _ _ _ _ _ _ Hwf Hst Hloop) as Hret.
  rewrite length_replicate in Hlen, Hret.
  unfold AddBatch. cbn [begin_fault commit_fault no_faults]. rewrite Hloop. cbn [ab_ret].
  f_equal. apply list_eq. intros k. rewrite list_lookup_fmap.
  destruct (decide (k < length events)) as [Hlt|Hge].
  - destruct (lookup_lt_is_Some_2 events k Hlt) as [evt Hevt].
    specialize (Hret k evt Hevt Hlt). cbn [Nat.add] in Hret. rewrite Hret.
    pose proof (Hnovel k Hlt) as Hk. unfold is_duplicate in Hk. rewrite Hk.
    rewrite lookup_seq_lt by done. cbn [fmap option_fmap option_map Nat.add c_db].
    rewrite novel_before_all; [done|].
    intros j Hj. apply (Hnovel j). lia.
  - rewrite !lookup_ge_None_2; [done| |]; rewrite ?length_seq; lia.
Qed.

(** ** [AddBatch]: errors *)

(** Whenever [AddBatch] returns an error, nothing of the batch is in the
    database: the transaction was rolled back, or never started. *)
Lemma AddBatch_error_rolls_back flt db events e :
  ab_err (AddBatch flt db events) = Some e →
  ab_ret (AddBatch flt db events) = None
  ∧ ab_db (AddBatch flt db events) = db
  ∧ (ab_tx (AddBatch flt db events) = TxRolledBack
     ∨ ab_tx (AddBatch flt db events) = TxNotStarted).
Proof.
  unfold AddBatch. destruct (begin_fault flt); [by auto|].
  destruct (AddBatch_loop _ _ _ _ _ _) as [[[c ret] nd]|msg]; [|by auto].
  destruct (commit_fault flt); done.
Qed.

(** A failing statement other than a duplicate rolls back and is reported. *)
Example AddBatch_insert_failure :
  let r := AddBatch Sample.second_insert_fails Sqlite.empty [Sample.e1; Sample.e2] in
  ab_err r = Some "error executing add statement: disk I/O error"
  ∧ ab_ret r = None ∧ ab_tx r = TxRolledBack ∧ ab_db r = Sqlite.empty.
Proof. vm_compute. done. Qed.

(** But a failing COMMIT is never reported: the caller receives the
    identities and a nil error, while the database keeps none of the batch. *)
Lemma AddBatch_commit_failure flt db events :
  ab_tx (AddBatch flt db events) = TxCommitFailed →
  ab_err (AddBatch flt db events) = None
  ∧ is_Some (ab_ret (AddBatch flt db events))
  ∧ ab_db (AddBatch flt db events) = db.
Proof.
  unfold AddBatch. destruct (begin_fault flt); [done|].
  destruct (AddBatch_loop _ _ _ _ _ _) as [[[c ret] nd]|msg]; [|done].
  destruct (commit_fault flt); [|done]. intros _. cbn. eauto.
Qed.

(** C4, at the failing input: one novel event, and a COMMIT that fails.
    The specification asks for a non-nil error; [AddBatch] answers the
    identity 1 and a nil error, and the event is not in the database. *)
Theorem AddBatch_commit_failure_is_swallowed :
  let r := AddBatch Sample.commit_fails Sqlite.empty [Sample.e1] in
  ab_tx r = TxCommitFailed
  ∧ ab_err r = None
  ∧ ab_ret r = Some [1%Z]
  ∧ ab_db r = Sqlite.empty.
Proof. vm_compute. done. Qed.

(** ** Text order *)

Lemma ltb_compare a b : String.ltb a b = true ↔ String.compare a b = Lt.
Proof. unfold String.ltb. destruct (String.compare a b); split; congruence. Qed.

Lemma text_lt_trans a b c :
  String.ltb a b = true → String.ltb b c = true → String.ltb a c = true.
Proof.
  rewrite !ltb_compare. intros H1 H2.
  apply OrderedTypeEx.String_as_OT.cmp_lt in H1, H2.
  apply OrderedTypeEx.String_as_OT.cmp_lt.
  eapply OrderedTypeEx.String_as_OT.lt_trans; eauto.
Qed.

Lemma text_total a b : String.ltb a b = true ∨ a = b ∨ String.ltb b a = true.
Proof.
  rewrite !ltb_compare. destruct (String.compare a b) eqn:E.
  - right; left. by apply String.compare_eq_iff.
  - by left.
  - right; right. by rewrite String.compare_antisym, E.
Qed.

#[local] Instance before_total text : Total (Join.before text).
Proof.
  intros a b. unfold Join.before.
  destruct (text_total (text (e_timestamp a.1)) (text (e_timestamp b.1)))
    as [H|[H|H]]; [by right; left| |by left; left].
  rewrite H. destruct (decide (e_id a.1 >= e_id b.1)%Z); [left|right]; right;
    (split; [done|lia]).
Qed.

#[local] Instance before_trans text : Transitive (Join.before text).
Proof.
  intros a b c. unfold Join.before. intros [H1|[E1 H1]] [H2|[E2 H2]].
  - left. by eapply text_lt_trans.
  - left. by rewrite <- E2.
  - left. by rewrite E1.
  - right. split; [congruence|lia].
Qed.

Lemma StronglySorted_sublist {A} (R : relation A) (l1 l2 : list A) :
  l1 `sublist_of` l2 → StronglySorted R l2 → StronglySorted R l1.
Proof.
  induction 1 as [|x l1 l2 Hsub IH|x l1 l2 Hsub IH]; intros Hs.
  - constructor.
  - apply StronglySorted_cons in Hs as [Hall Hs]. apply StronglySorted_cons. split; [|auto].
    rewrite Forall_forall in *. intros y Hy. apply Hall. by eapply elem_of_sublist.
  - apply StronglySorted_cons in Hs as [_ Hs]. auto.
Qed.

(** ** Texts without a quote *)

Lemma quote_free_app a b : quote_free (a ++ b) = quote_free a && quote_free b.
Proof.
  induction a as [|c a IH]; [done|].
  simpl. rewrite IH. by rewrite andb_assoc.
Qed.

Lemma quote_free_terms (pre : string) (terms : list string) : ∀ m,
  quote_free pre = true →
  quote_free m = true →
  Forall (fun term => quote_free term = true) terms →
  quote_free (foldl (fun m s => (m ++ pre ++ s ++ " ")%string) m terms) = true.
Proof.
  induction terms as [|s terms IH]; intros m Hpre Hm Hall; [done|].
  apply Forall_cons in Hall as [Hs Hall]. cbn [foldl]. apply IH; [done| |done].
  rewrite !quote_free_app, Hm, Hpre, Hs. done.
Qed.

Lemma matchString_quote_free sources notSources fragments :
  Forall (fun term => quote_free term = true) (sources ++ notSources ++ fragments) →
  quote_free (matchString sources notSources fragments) = true.
Proof.
  rewrite !Forall_app. intros (Hs & Hn & Hf). unfold matchString. cbv zeta.
  assert (∀ m (b : bool) (c : string), quote_free m = true → quote_free c = true →
            quote_free (if b then (m ++ c)%string else m) = true) as Hif.
  { intros m [] c Hm Hc; [|done]. by rewrite quote_free_app, Hm, Hc. }
  repeat first
    [ apply Hif; [|done]
    | apply quote_free_terms; [done| |done]
    | done ].
Qed.

(** ** [FilterStream]: the rows of a page *)

Section StreamFacts.

Variable eng : Engine.

Lemma selected_sorted db st :
  StronglySorted (Join.before (timestamp_text eng)) (selected eng db st).
Proof. unfold selected. apply StronglySorted_merge_sort; apply _. Qed.

Lemma selected_length db st : length (selected eng db st) ≤ length (Join.rows db).
Proof.
  unfold selected. rewrite merge_sort_Permutation. apply length_filter.
Qed.

Lemma run_page_sorted db st :
  StronglySorted (Join.before (timestamp_text eng)) (run_page eng db st).
Proof.
  unfold run_page. eapply StronglySorted_sublist; [|apply selected_sorted].
  etrans; [apply sublist_take|apply sublist_drop].
Qed.

Lemma run_page_length db st : length (run_page eng db st) ≤ st_limit st.
Proof. unfold run_page. rewrite length_take. lia. Qed.

Lemma run_page_short db st :
  0 < st_limit st →
  length (Join.rows db) < st_offset st + st_limit st →
  length (run_page eng db st) < st_limit st.
Proof.
  intros Hpos H. pose proof (selected_length db st).
  unfold run_page. rewrite length_take, length_drop. lia.
Qed.

(** every selected row satisfies the WHERE clause and is a row of the join *)
Lemma run_page_elem db st row :
  row ∈ run_page eng db st →
  where_clause eng st row = true ∧ row ∈ Join.rows db.
Proof.
  unfold run_page, selected. intros Hin.
  eapply elem_of_sublist in Hin; [|apply sublist_take].
  eapply elem_of_sublist in Hin; [|apply sublist_drop].
  rewrite merge_sort_Permutation in Hin.
  by apply list_elem_of_filter in Hin.
Qed.

(** a statement without a quote is answered by the rows its parts select *)
Lemma run_statement_read db st :
  reads_as_written eng st = true →
  run_statement eng db st = Join.scan <$> run_page eng db st.
Proof. unfold run_statement. by intros ->. Qed.

(** any other statement is answered by the engine from its text *)
Lemma run_statement_other db st :
  reads_as_written eng st = false →
  run_statement eng db st = other_statement eng (stmt_text eng st) db.
Proof. unfold run_statement. by intros ->. Qed.

Lemma stepped_sublist flt page rows : stepped flt page rows `sublist_of` rows.
Proof. unfold stepped. destruct (rows_fault flt page); [apply sublist_take|done]. Qed.

Lemma scan_rows_spec_gen flt page rows : ∀ evts log,
  foldl (fun acc evt =>
           match row_scan_fault flt page evt with
           | Some msg =>
               (acc.1, acc.2 ++ [LogError "error when scanning result in FilterStream" msg])
           | None => (acc.1 ++ [evt], acc.2)
           end)
        (evts, log) rows
  = (evts ++ filter (fun evt => row_scan_fault flt page evt = None) rows,
     log ++ omap (fun evt =>
                    (LogError "error when scanning result in FilterStream")
                      <$> row_scan_fault flt page evt)
                 rows).
Proof.
  induction rows as [|row rows IH]; intros evts log.
  - simpl. by rewrite !app_nil_r.
  - cbn [foldl]. rewrite filter_cons. cbn [omap list_omap].
    destruct (row_scan_fault flt page row) as [msg|] eqn:E.
    + rewrite IH. cbn [fst snd fmap option_fmap option_map].
      case_decide; [done|]. by rewrite <- app_assoc.
    + rewrite IH. cbn [fst snd fmap option_fmap option_map].
      case_decide; [|done]. by rewrite <- app_assoc.
Qed.

Lemma scan_rows_spec flt page rows :
  scan_rows flt page rows
  = (filter (fun evt => row_scan_fault flt page evt = None) rows,
     omap (fun evt =>
             (LogError "error when scanning result in FilterStream")
               <$> row_scan_fault flt page evt)
          rows).
Proof. unfold scan_rows. by rewrite scan_rows_spec_gen. Qed.

Lemma executed_offsets_scan_log flt page rows :
  executed_offsets (scan_rows flt page rows).2 = [].
Proof.
  rewrite scan_rows_spec. cbn [snd]. unfold executed_offsets.
  induction rows as [|row rows IH]; [done|]. cbn [omap list_omap].
  destruct (row_scan_fault flt page row); simpl; exact IH.
Qed.

End StreamFacts.

(** ** [FilterStream]: the loop *)

Lemma pageSize_pos : 0 < filterStreamPageSize.
Proof. unfold filterStreamPageSize. lia. Qed.

Lemma no_quotes_reads eng visit startTime endTime maxID k :
  no_quotes eng visit startTime endTime →
  reads_as_written eng (page_stmt visit startTime endTime maxID k) = true.
Proof.
  intros (Hterms & Hstart & Hend). unfold reads_as_written, page_stmt.
  cbn [st_match st_startTime st_endTime].
  rewrite matchString_quote_free by apply Hterms.
  destruct startTime as [t1|]; [rewrite (Hstart t1 eq_refl)|];
    (destruct endTime as [t2|]; [rewrite (Hend t2 eq_refl)|]); done.
Qed.

Section LoopFacts.

Variable eng : Engine.
Variables (flt : QueryFaults) (db : Db) (visit : nat → Visit).
Variables (startTime endTime : option Z) (maxID : Z).

Local Abbreviation loop fuel page offset :=
  (FilterStream_loop eng fuel flt db visit startTime endTime maxID page offset).
Local Abbreviation rows_of page :=
  (page_rows eng flt db visit startTime endTime maxID page).
Local Abbreviation scanned page :=
  (filter (fun evt => row_scan_fault flt page evt = None) (rows_of page)).
Local Abbreviation query_error msg :=
  (LogError "error when getting filtered events in FilterStream" msg).

(** one iteration *)
Lemma loop_unfold fuel page :
  loop (S fuel) page (page * filterStreamPageSize)
  = let v := visit page in
    let executing :=
      LogExecutingStmt (matchString (v_sources v) (v_notSources v) (v_fragments v))
                       (page * filterStreamPageSize) in
    match page_query_fault flt page with
    | Some msg => Some (mkStream [] [executing; query_error msg])
    | None =>
        let sl := (scan_rows flt page (rows_of page)).2 in
        if bool_decide (length (rows_of page) < filterStreamPageSize)
        then Some (mkStream [scanned page] (executing :: sl))
        else match loop fuel (S page) (S page * filterStreamPageSize) with
             | None => None
             | Some rest =>
                 Some (mkStream (scanned page :: pages rest)
                                (executing :: sl ++ stream_log rest))
             end
    end.
Proof.
  cbn [FilterStream_loop]. cbv zeta.
  destruct (page_query_fault flt page); [done|].
  fold (page_stmt visit startTime endTime maxID page).
  fold (rows_of page).
  rewrite (scan_rows_spec flt page (rows_of page)). cbn [fst snd].
  replace (page * filterStreamPageSize + filterStreamPageSize)
    with (S page * filterStreamPageSize) by (rewrite Nat.mul_succ_l; lia).
  done.
Qed.

(** the rows of an iteration whose statement holds no quote *)
Lemma page_rows_read k :
  reads_as_written eng (page_stmt visit startTime endTime maxID k) = true →
  rows_of k `sublist_of`
    (Join.scan <$> run_page eng db (page_stmt visit startTime endTime maxID k)).
Proof.
  intros Hread. unfold page_rows. rewrite (run_statement_read eng db _ Hread).
  apply stepped_sublist.
Qed.

Lemma loop_total d : ∀ page fuel,
  (∀ k, reads_as_written eng (page_stmt visit startTime endTime maxID k) = true) →
  length (Join.rows db) < (page + S d) * filterStreamPageSize →
  d < fuel →
  is_Some (loop fuel page (page * filterStreamPageSize)).
Proof.
  induction d as [|d IH]; intros page [|fuel] Hread Hlen Hfuel; try lia;
    rewrite loop_unfold; cbv zeta;
    (destruct (page_query_fault flt page); [by eauto|]);
    (case_bool_decide as Hshort; [by eauto|]).
  - exfalso. apply Hshort.
    eapply Nat.le_lt_trans; [apply sublist_length, page_rows_read, Hread|].
    rewrite length_fmap. apply (run_page_short eng db (page_stmt _ _ _ _ page));
      [apply pageSize_pos|].
    cbn [page_stmt st_offset st_limit]. replace (page + 1) with (S page) in Hlen by lia.
    rewrite Nat.mul_succ_l in Hlen. lia.
  - destruct (IH (S page) fuel) as [rest Hrest]; [done| |lia|].
    + replace (S page + S d) with (page + S (S d)) by lia. done.
    + rewrite Hrest. eauto.
Qed.

Lemma loop_mono fuel : ∀ page s,
  loop fuel page (page * filterStreamPageSize) = Some s →
  ∀ fuel', fuel ≤ fuel' → loop fuel' page (page * filterStreamPageSize) = Some s.
Proof.
  induction fuel as [|fuel IH]; intros page s Hs [|fuel'] Hle; try done; try lia.
  rewrite loop_unfold in Hs |- *. cbv zeta in *.
  destruct (page_query_fault flt page); [done|].
  case_bool_decide; [done|].
  destruct (loop fuel (S page) (S page * filterStreamPageSize)) as [rest|] eqn:E; [|done].
  rewrite (IH (S page) rest E fuel') by lia. done.
Qed.

Lemma loop_spec fuel : ∀ page s,
  loop fuel page (page * filterStreamPageSize) = Some s →
  ∃ n, page ≤ n
       ∧ stops_at eng flt db visit startTime endTime maxID n
       ∧ (∀ k, page ≤ k < n → ¬ stops_at eng flt db visit startTime endTime maxID k)
       ∧ length (pages s) = (if page_query_fault flt n is Some _ then n - page else S n - page)
       ∧ (∀ j evts, pages s !! j = Some evts → evts = scanned (page + j))
       ∧ (∀ msg, page_query_fault flt n = Some msg →
            last (stream_log s) = Some (query_error msg))
       ∧ executed_offsets (stream_log s)
         = (fun k => k * filterStreamPageSize) <$> seq page (S n - page).
Proof.
  induction fuel as [|fuel IH]; intros page s Hs; [done|].
  rewrite loop_unfold in Hs. cbv zeta in Hs.
  destruct (page_query_fault flt page) as [msg|] eqn:Hq.
  { injection Hs as <-. exists page. rewrite Hq.
    replace (S page - page) with 1 by lia. replace (page - page) with 0 by lia.
    repeat split; try done.
    - left. by rewrite Hq.
    - intros k ?. lia.
    - intros msg' [= <-]. done. }
  case_bool_decide as Hshort.
  { injection Hs as <-. exists page. rewrite Hq.
    replace (S page - page) with 1 by lia.
    repeat split; try done.
    - by right.
    - intros k ?. lia.
    - intros [|j] evts Hj; [|done]. injection Hj as <-. by rewrite Nat.add_0_r.
    - cbn [stream_log executed_offsets omap list_omap].
      fold (executed_offsets (scan_rows flt page (rows_of page)).2).
      by rewrite executed_offsets_scan_log. }
  destruct (loop fuel (S page) (S page * filterStreamPageSize)) as [rest|] eqn:E; [|done].
  injection Hs as <-.
  destruct (IH (S page) rest E) as (n & Hn & Hstop & Hbefore & Hlen & Hpages & Hlast & Hoff).
  exists n. repeat split.
  - lia.
  - exact Hstop.
  - intros k Hk. destruct (decide (k = page)) as [->|Hne].
    + intros [Hf|Hs]; [rewrite Hq in Hf; by destruct Hf|done].
    + apply Hbefore. lia.
  - cbn [pages length]. rewrite Hlen. destruct (page_query_fault flt n); lia.
  - intros [|j] evts Hj.
    + injection Hj as <-. by rewrite Nat.add_0_r.
    + replace (page + S j) with (S page + j) by lia. by apply Hpages.
  - intros msg Hmsg. cbn [stream_log]. rewrite app_comm_cons, last_app.
    by rewrite (Hlast msg Hmsg).
  - cbn [stream_log]. unfold executed_offsets in *.
    cbn [omap list_omap]. rewrite omap_app, Hoff.
    fold (executed_offsets (scan_rows flt page (rows_of page)).2).
    rewrite executed_offsets_scan_log. cbn [app].
    replace (S n - page) with (S (S n - S page)) by lia. done.
Qed.

(** As long as every query succeeds and every iteration visits a full page
    of rows, the loop goes on: no fuel is enough. *)
Lemma loop_diverges fuel : ∀ page,
  (∀ k, page ≤ k →
     page_query_fault flt k = None ∧ filterStreamPageSize ≤ length (rows_of k)) →
  loop fuel page (page * filterStreamPageSize) = None.
Proof.
  induction fuel as [|fuel IH]; intros page Hfull; [done|].
  rewrite loop_unfold. cbv zeta.
  destruct (Hfull page) as [-> Hlen]; [done|].
  case_bool_decide; [lia|].
  rewrite IH; [done|]. intros k Hk. apply Hfull. lia.
Qed.

End LoopFacts.

(** ** [FilterStream]: the stream *)

Lemma scan_before text a b :
  Join.before text a b → newer_or_equal text (Join.scan a) (Join.scan b).
Proof. done. Qed.

Ltac prelude_failed :=
  eexists; split; [intros; reflexivity|];
  split; [constructor|];
  split; [reflexivity|];
  split; [intros ? (? & ? & ?) ?; congruence|];
  intros _; split; [reflexivity|eauto].

Section StreamTheorems.

Variable eng : Engine.
Variables (flt : QueryFaults) (db : Db) (visit : nat → Visit).
Variables (startTime endTime : option Z).

Local Abbreviation scanned maxID page :=
  (filter (fun evt => row_scan_fault flt page evt = None)
          (page_rows eng flt db visit startTime endTime maxID page)).

(** the events one page delivers all come from the rows its statement
    selects *)
Lemma scanned_sublist maxID k :
  reads_as_written eng (page_stmt visit startTime endTime maxID k) = true →
  scanned maxID k `sublist_of`
    (Join.scan <$> run_page eng db (page_stmt visit startTime endTime maxID k)).
Proof.
  intros Hread. etrans; [apply sublist_filter; apply _|]. by apply page_rows_read.
Qed.

Lemma scanned_page_ok maxID k :
  reads_as_written eng (page_stmt visit startTime endTime maxID k) = true →
  length (scanned maxID k) ≤ filterStreamPageSize
  ∧ StronglySorted (newer_or_equal (timestamp_text eng)) (scanned maxID k).
Proof.
  intros Hread. pose proof (scanned_sublist maxID k Hread) as Hsub. split.
  - etrans; [apply sublist_length, Hsub|]. rewrite length_fmap.
    etrans; [apply run_page_length|]. done.
  - eapply StronglySorted_sublist; [exact Hsub|].
    apply (StronglySorted_fmap _ (Join.before (timestamp_text eng))); [apply scan_before|].
    apply run_page_sorted.
Qed.

(** whatever the fuel, a stream that was produced holds scanned pages *)
Lemma FilterStream_pages fuel s :
  FilterStream eng fuel flt db visit startTime endTime = Some s →
  ∀ k evts, pages s !! k = Some evts →
    ∃ maxID, max_id (Events db) = Some maxID ∧ evts = scanned maxID k.
Proof.
  unfold FilterStream.
  destruct (maxid_query_fault flt); [by intros [= <-] ? ? ?|].
  destruct (maxid_no_row flt); [by intros [= <-] ? ? ?|].
  destruct (maxid_scan_fault flt); [by intros [= <-] ? ? ?|].
  destruct (max_id (Events db)) as [maxID|]; [|by intros [= <-] ? ? ?].
  intros Hs k evts Hk. exists maxID. split; [done|].
  change (FilterStream_loop eng fuel flt db visit startTime endTime maxID
            0 (0 * filterStreamPageSize) = Some s) in Hs.
  apply loop_spec in Hs as (n & _ & _ & _ & _ & Hpages & _).
  by apply Hpages in Hk.
Qed.

(** A stream whose statements hold no quote ends.  With more fuel than the
    join has rows, [FilterStream] produces one and the same stream [s].  Its
    pages hold at most 1000 events, in the order of the statement (stored
    text of the timestamp, then identity, descending); its statements were
    executed at the offsets 0, 1000, 2000, ....  When the snapshot of MAX(id)
    succeeds, the stream stops in the first iteration [n] whose query fails
    or whose loop visits fewer than 1000 rows, and in no earlier one.  When
    the snapshot fails, the stream is empty and one error is logged. *)
Lemma FilterStream_ends_without_quotes :
  no_quotes eng visit startTime endTime →
  ∃ s,
    (∀ fuel, length (Join.rows db) < fuel →
       FilterStream eng fuel flt db visit startTime endTime = Some s)
    ∧ Forall (fun p => length p ≤ filterStreamPageSize
                       ∧ StronglySorted (newer_or_equal (timestamp_text eng)) p) (pages s)
    ∧ executed_offsets (stream_log s)
      = (fun k => k * filterStreamPageSize)
          <$> seq 0 (length (executed_offsets (stream_log s)))
    ∧ (∀ maxID, prelude_ok flt → max_id (Events db) = Some maxID →
         ∃ n, stops_at eng flt db visit startTime endTime maxID n
              ∧ (∀ k, k < n →
                   ¬ stops_at eng flt db visit startTime endTime maxID k)
              ∧ stream_of_iterations eng flt db visit startTime endTime
                  maxID n s)
    ∧ (¬ prelude_ok flt ∨ max_id (Events db) = None →
         pages s = [] ∧ ∃ what msg, stream_log s = [LogError what msg]).
Proof.
  intros Hq. unfold prelude_ok, FilterStream.
  destruct (maxid_query_fault flt) as [m1|]; [prelude_failed|].
  destruct (maxid_no_row flt); [prelude_failed|].
  destruct (maxid_scan_fault flt) as [m3|]; [prelude_failed|].
  destruct (max_id (Events db)) as [maxID|]; [|prelude_failed].
  destruct (loop_total eng flt db visit startTime endTime maxID
              (length (Join.rows db)) 0 (S (length (Join.rows db)))) as [s Hs].
  { intros k. by apply no_quotes_reads. }
  { unfold filterStreamPageSize. lia. }
  { lia. }
  exists s.
  destruct (loop_spec _ _ _ _ _ _ _ _ _ _ Hs)
    as (n & _ & Hstop & Hbefore & Hlen & Hpages & Hlast & Hoff).
  split; [|split; [|split; [|split]]].
  - intros fuel Hfuel.
    exact (loop_mono _ _ _ _ _ _ _ _ 0 s Hs fuel ltac:(lia)).
  - apply Forall_lookup. intros k p Hk. rewrite (Hpages k p Hk).
    apply scanned_page_ok. by apply no_quotes_reads.
  - rewrite Hoff, length_fmap, length_seq. done.
  - intros m _ [= <-]. exists n. split; [done|]. split.
    + intros k Hk. apply Hbefore. lia.
    + split; [|split].
      * rewrite Hlen. destruct (page_query_fault flt n); lia.
      * intros k evts Hk. apply (Hpages k evts Hk).
      * exact Hlast.
  - intros [Hno|Hno]; [|done]. exfalso. apply Hno. done.
Qed.

End StreamTheorems.

(** C1, at the failing input.  Two novel events are added to an empty store
    and receive the identities 1 and 2.  An unconstrained [FilterStream] run
    afterwards, over an index that lets every row through, delivers the event
    1 only: the event that holds MAX(id) = 2 is excluded by [e.id < maxID].
    With a batch of one event the stream is a single empty page. *)
Theorem FilterStream_omits_newest_event :
  let r := AddBatch no_faults Sqlite.empty [Sample.e1; Sample.e2] in
  let r1 := AddBatch no_faults Sqlite.empty [Sample.e1] in
  ab_ret r = Some [1; 2]%Z
  ∧ FilterStream SampleQueries.match_all 1 no_query_faults (ab_db r)
      SampleQueries.unconstrained None None
    = Some (mkStream
              [[EventWithId.mk 1 "2024-01-01 error disk full src=a" "" "A" 100]]
              [LogExecutingStmt "" 0])
  ∧ ab_ret r1 = Some [1%Z]
  ∧ FilterStream SampleQueries.match_all 1 no_query_faults (ab_db r1)
      SampleQueries.unconstrained None None
    = Some (mkStream [[]] [LogExecutingStmt "" 0]).
Proof. vm_compute. done. Qed.

(** the statements of the search for [line )' -- ] are not read as written,
    and each of them is answered with 1000 rows of the store of 1001 events *)
Lemma commenting_fragment_rows k :
  length (page_rows SampleQueries.comment_reader no_query_faults
            (SampleQueries.numbered 1001) SampleQueries.commenting_fragment
            None None 1001 k) = 1000.
Proof.
  unfold page_rows, stepped. cbn [rows_fault no_query_faults].
  rewrite run_statement_other by (vm_compute; reflexivity).
  generalize (stmt_text SampleQueries.comment_reader
                (page_stmt SampleQueries.commenting_fragment None None 1001 k)).
  intros sql. vm_compute. reflexivity.
Qed.

(** C9, at the failing inputs.

    An error while the rows are visited.  The search for the source A builds
    the text [(source:A ) AND ], which SQLite rejects when it evaluates the
    statement, in the first [res.Next()]: the stream is one empty page, and
    the log holds the executed statement and no error.  In the same way, when
    stepping fails after the first of two selected rows, the stream is a page
    of one event instead of two, it ends there, and nothing is logged.

    A stream that never ends.  The fragment [line )' -- ] closes the MATCH
    literal and comments out ORDER BY, LIMIT and OFFSET.  Every statement of
    the stream is then the same unlimited SELECT; on a store of 1001 events
    that hold the word it is answered with 1000 rows each time, which is
    never fewer than a page: whatever the fuel, the loop has not ended. *)
Theorem FilterStream_ends_silently_or_never :
  matchString ["A"] [] [] = "(source:A ) AND "
  ∧ FilterStream SampleQueries.word_index 1 (SampleQueries.stepping_fails 0)
      three_events (SampleQueries.one_source "A") None None
    = Some (mkStream [[]] [LogExecutingStmt "(source:A ) AND " 0])
  ∧ FilterStream SampleQueries.word_index 1 no_query_faults
      three_events (SampleQueries.one_fragment "2024") None None
    = Some (mkStream
              [[EventWithId.mk 2 "2024-01-01 info ok src=b" "" "B" 200;
                EventWithId.mk 1 "2024-01-01 error disk full src=a" "" "A" 100]]
              [LogExecutingStmt "(raw:2024 )" 0])
  ∧ FilterStream SampleQueries.word_index 1 (SampleQueries.stepping_fails 1)
      three_events (SampleQueries.one_fragment "2024") None None
    = Some (mkStream
              [[EventWithId.mk 2 "2024-01-01 info ok src=b" "" "B" 200]]
              [LogExecutingStmt "(raw:2024 )" 0])
  ∧ stmt_text SampleQueries.comment_reader
      (page_stmt SampleQueries.commenting_fragment None None 1001 1)
    = "SELECT e.id, e.source, e.timestamp, r.raw FROM Events e INNER JOIN EventRaws r ON r.rowid = e.id WHERE e.id < 1001 AND EventRaws MATCH '(raw:line )' --  )' ORDER BY e.timestamp DESC, e.id DESC LIMIT 1000 OFFSET 1000;"
  ∧ ∀ fuel,
      FilterStream SampleQueries.comment_reader fuel no_query_faults
        (SampleQueries.numbered 1001) SampleQueries.commenting_fragment None None
      = None.
Proof.
  split; [vm_compute; reflexivity|].
  split; [vm_compute; reflexivity|].
  split; [vm_compute; reflexivity|].
  split; [vm_compute; reflexivity|].
  split; [vm_compute; reflexivity|].
  intros fuel. unfold FilterStream. cbn [maxid_query_fault maxid_no_row maxid_scan_fault
                                          no_query_faults].
  replace (max_id (Events (SampleQueries.numbered 1001))) with (Some 1001%Z)
    by (vm_compute; reflexivity).
  apply (loop_diverges _ _ _ _ _ _ _ fuel 0). intros k _. split; [done|].
  rewrite commenting_fragment_rows. done.
Qed.

(** 1100 stored events that hold the word "line": the newest is left out,
    the remaining 1099 arrive in pages of 1000 and 99 events, fetched at the
    offsets 0 and 1000. *)
Example FilterStream_two_pages :
  ∃ s, FilterStream SampleQueries.word_index 2 no_query_faults
         (SampleQueries.numbered 1100) (SampleQueries.one_fragment "line") None None
       = Some s
       ∧ length <$> pages s = [1000; 99]
       ∧ executed_offsets (stream_log s) = [0; 1000]
       ∧ (EventWithId.Id <$> (pages s !! 0 ≫= head)) = Some 1099%Z.
Proof. eexists. vm_compute. done. Qed.

(** The query of the second page fails: the stream ends after one page, and
    the error is in the log only. *)
Example FilterStream_query_error :
  ∃ s, FilterStream SampleQueries.word_index 2 SampleQueries.second_query_fails
         (SampleQueries.numbered 1100) (SampleQueries.one_fragment "line") None None
       = Some s
       ∧ length <$> pages s = [1000]
       ∧ last (stream_log s)
         = Some (LogError "error when getting filtered events in FilterStream"
                          "database is locked").
Proof. eexists. vm_compute. done. Qed.

(** An empty table: MAX(id) is NULL, the snapshot fails, nothing is sent. *)
Example FilterStream_empty_store :
  pages <$> FilterStream SampleQueries.word_index 1 no_query_faults Sqlite.empty
              (SampleQueries.one_fragment "line") None None
  = Some [].
Proof. vm_compute. done. Qed.

(** The bounds are compared as text.  With the two formats Go and the
    driver use, an event stored at the very time of the upper bound is not
    selected, and one stored at the time of the lower bound is. *)
Example FilterStream_bounds_are_text :
  time_ok SampleQueries.go_formats (Some 100%Z) None 100 = true
  ∧ time_ok SampleQueries.go_formats None (Some 100%Z) 100 = false
  ∧ (∃ s, FilterStream SampleQueries.go_formats 1 no_query_faults three_events
            SampleQueries.unconstrained None (Some 100%Z) = Some s
          ∧ pages s = [[]]).
Proof. split; [done|]. split; [done|]. eexists. vm_compute. done. Qed.

(** ** [FilterStream]: the text of the MATCH condition *)

(** every row a page statement selects satisfies its MATCH condition *)
Lemma where_clause_match eng st row :
  where_clause eng st row = true → fts_match eng (st_match st) row.2 = true.
Proof. unfold where_clause. intros H. by apply andb_true_iff in H as [_ H]. Qed.

(** C3, at the failing inputs.  No source, the excluded source "b" and the
    fragment "x": the text closes a parenthesis that was never opened, so it is
    not a boolean combination at all.  Two sources and no fragment: the terms
    are put side by side, without OR, and the text ends in a dangling AND.
    Nothing given: the statement still carries a MATCH condition, on the empty
    text. *)
Theorem matchString_is_malformed :
  matchString [] ["b"] ["x"] = "NOT source:b ) AND (raw:x )"
  ∧ balanced (matchString [] ["b"] ["x"]) = false
  ∧ matchString ["a"; "b"] [] [] = "(source:a source:b ) AND "
  ∧ contains "OR" (matchString ["a"; "b"] [] ["x"; "y"]) = false
  ∧ st_match (page_stmt SampleQueries.unconstrained None None 7 0) = "".
Proof. vm_compute. done. Qed.

(** ** [GetByIds] *)

Lemma GetByIds_stmt_empty :
  GetByIds_stmt []
  = "SELECT e.id, e.source, e.timestamp, r.raw FROM Events e INNER JOIN EventRaws r ON r.rowid = e.id WHERE e.id IN ();".
Proof. reflexivity. Qed.

Lemma GetByIds_stmt_three :
  GetByIds_stmt [3; 7; 1]%Z
  = "SELECT e.id, e.source, e.timestamp, r.raw FROM Events e INNER JOIN EventRaws r ON r.rowid = e.id WHERE e.id IN (3,7,1);".
Proof. reflexivity. Qed.

Lemma matching_raws_none (e : EventsRow) (raws : list EventRawsRow) :
  (∀ r, r ∈ raws → r_rowid r ≠ e_id e) →
  (raws ≫= fun r => if bool_decide (r_rowid r = e_id e) then [(e, r)] else []) = [].
Proof.
  induction raws as [|r raws IH]; intros Hne; [done|].
  rewrite bind_cons, bool_decide_eq_false_2 by (apply Hne; left).
  apply IH. intros r' Hr'. apply Hne. by right.
Qed.

Lemma matching_raws_le_1 (e : EventsRow) (raws : list EventRawsRow) :
  NoDup (r_rowid <$> raws) →
  length (raws ≫= fun r => if bool_decide (r_rowid r = e_id e) then [(e, r)] else []) ≤ 1.
Proof.
  induction raws as [|r raws IH]; intros Hnd; [simpl; lia|].
  rewrite fmap_cons in Hnd. apply NoDup_cons in Hnd as [Hr Hnd].
  rewrite bind_cons. case_bool_decide as Heq.
  - rewrite matching_raws_none; [simpl; lia|].
    intros r' Hr' Heq'. apply Hr. apply list_elem_of_fmap. exists r'. split; [congruence|done].
  - by apply IH.
Qed.

Lemma join_ids_NoDup db :
  keys_unique db → NoDup ((fun row => e_id row.1) <$> Join.rows db).
Proof.
  intros [He Hr]. unfold Join.rows.
  induction (Events db) as [|e es IH]; [constructor|].
  rewrite fmap_cons in He. apply NoDup_cons in He as [Hne He].
  rewrite bind_cons, fmap_app. apply NoDup_app. split; [|split].
  - pose proof (matching_raws_le_1 e (EventRaws db) Hr) as Hlen.
    destruct (EventRaws db ≫= _) as [|x [|y l]]; simpl in *;
      [constructor|apply NoDup_singleton|lia].
  - intros i (row & -> & Hrow)%list_elem_of_fmap (row' & Heq & Hrow')%list_elem_of_fmap.
    apply list_elem_of_bind in Hrow as (r & Hrow & _).
    apply list_elem_of_bind in Hrow' as (e' & Hrow' & He').
    apply list_elem_of_bind in Hrow' as (r' & Hrow' & _).
    destruct (bool_decide (r_rowid r = e_id e)); [|by inv Hrow].
    destruct (bool_decide (r_rowid r' = e_id e')); [|by inv Hrow'].
    apply list_elem_of_singleton in Hrow as ->. apply list_elem_of_singleton in Hrow' as ->.
    simpl in Heq. apply Hne. apply list_elem_of_fmap. by exists e'.
  - by apply IH.
Qed.

Lemma GetByIds_rows_fill rows : ∀ idx ret,
  idx + length rows ≤ length ret →
  GetByIds_rows (fun _ => None) rows idx ret
  = Returned (take idx ret ++ (Join.scan <$> rows) ++ drop (idx + length rows) ret).
Proof.
  induction rows as [|row rows IH]; intros idx ret Hlen.
  - simpl. by rewrite Nat.add_0_r, take_drop.
  - cbn [GetByIds_rows length] in *. rewrite bool_decide_eq_true_2 by lia.
    rewrite IH by (rewrite length_insert; lia).
    rewrite (take_S_r _ _ (Join.scan row)) by (apply list_lookup_insert_eq; lia).
    rewrite take_insert_ge by lia.
    rewrite drop_insert_lt by lia.
    rewrite fmap_cons, <- app_assoc. cbn [app].
    by replace (S idx + length rows) with (idx + S (length rows)) by lia.
Qed.

Section GetByIdsFacts.

Variable retrieval_order :
  list (EventsRow * EventRawsRow) → list (EventsRow * EventRawsRow).
Hypothesis retrieval_perm : ∀ l, retrieval_order l ≡ₚ l.

Lemma select_by_ids_elem db ids row :
  row ∈ select_by_ids retrieval_order db ids ↔ e_id row.1 ∈ ids ∧ row ∈ Join.rows db.
Proof using retrieval_perm.
  unfold select_by_ids. rewrite retrieval_perm, list_elem_of_filter. done.
Qed.

Lemma select_by_ids_length db ids :
  keys_unique db → length (select_by_ids retrieval_order db ids) ≤ length ids.
Proof using retrieval_perm.
  intros Hkeys.
  rewrite <- (length_fmap (fun row => e_id row.1)).
  apply submseteq_length, NoDup_submseteq.
  - unfold select_by_ids. rewrite retrieval_perm.
    apply (sublist_NoDup _ ((fun row => e_id row.1) <$> Join.rows db));
      [by apply join_ids_NoDup|apply fmap_sublist, sublist_filter; apply _].
  - intros i (row & -> & Hrow)%list_elem_of_fmap.
    by apply select_by_ids_elem in Hrow as [? _].
Qed.

End GetByIdsFacts.

(** C10, as amended: for every list of identities, empty or not, a
    [GetByIds] whose query and scans succeed returns a slice of exactly
    [len(ids)] entries: the stored events among [ids], in the order in which
    the engine retrieves them, followed by zero-valued entries.  For the empty
    list that is the empty slice, and no error. *)
Theorem GetByIds_fills_from_the_front
    (retrieval_order : list (EventsRow * EventRawsRow) → list (EventsRow * EventRawsRow))
    (db : Db) (ids : list Z) :
  (∀ l, retrieval_order l ≡ₚ l) →
  keys_unique db →
  let found := Join.scan <$> select_by_ids retrieval_order db ids in
  GetByIds retrieval_order None (fun _ => None) db ids
  = Returned (found ++ replicate (length ids - length found) EventWithId.zero)
  ∧ length (found ++ replicate (length ids - length found) EventWithId.zero) = length ids
  ∧ (∀ evt, evt ∈ found ↔
       ∃ row, row ∈ Join.rows db ∧ e_id row.1 ∈ ids ∧ evt = Join.scan row)
  ∧ (ids = [] → GetByIds retrieval_order None (fun _ => None) db ids = Returned []).
Proof.
  intros Hperm Hkeys found.
  pose proof (select_by_ids_length retrieval_order Hperm db ids Hkeys) as Hlen.
  assert (GetByIds retrieval_order None (fun _ => None) db ids
          = Returned (found ++ replicate (length ids - length found) EventWithId.zero))
    as Hret.
  { unfold GetByIds. rewrite GetByIds_rows_fill by (rewrite length_replicate; lia).
    cbn [take app Nat.add]. rewrite drop_replicate. subst found.
    by rewrite length_fmap. }
  split; [exact Hret|]. split; [|split].
  - rewrite length_app, length_replicate. subst found. rewrite length_fmap. lia.
  - intros evt. subst found. rewrite list_elem_of_fmap. split.
    + intros (row & -> & Hrow). apply (select_by_ids_elem _ Hperm) in Hrow as [? ?].
      by exists row.
    + intros (row & Hrow & Hid & ->). exists row. split; [done|].
      by apply (select_by_ids_elem _ Hperm).
  - intros ->. rewrite Hret. subst found. simpl in Hlen.
    destruct (select_by_ids retrieval_order db []); [done|simpl in Hlen; lia].
Qed.

Lemma three_events_keys_unique : keys_unique three_events.
Proof. split; apply (bool_decide_unpack _); vm_compute; exact I. Defined.

Lemma GetByIds_fills_from_the_front_witness :
  (∀ l : list (EventsRow * EventRawsRow), (fun l => l) l ≡ₚ l)
  ∧ keys_unique three_events
  ∧ GetByIds (fun l => l) None (fun _ => None) three_events [3; 7; 1]%Z
    = Returned
        [EventWithId.mk 1 "2024-01-01 error disk full src=a" "" "A" 100;
         EventWithId.mk 3 "2024-01-02 info ok src=b" "" "B" 300;
         EventWithId.zero].
Proof.
  split; [done|]. split; [exact three_events_keys_unique|].
  exact (proj1 (GetByIds_fills_from_the_front (fun l => l) three_events [3; 7; 1]%Z
                  (fun l => reflexivity l) three_events_keys_unique)).
Defined.

(** C10, as stated, fails for the empty list: no error is returned. *)
Lemma GetByIds_empty_ids_no_error :
  GetByIds (fun l => l) None (fun _ => None) three_events [] = Returned []
  ∧ ¬ ∃ err, GetByIds (fun l => l) None (fun _ => None) three_events [] = Failed err.
Proof. split; [reflexivity|]. intros [err Herr]. discriminate Herr. Qed.

(** An error of the query itself is returned, for any list. *)
Lemma GetByIds_query_error retrieval_order scan_fault db ids msg :
  GetByIds retrieval_order (Some msg) scan_fault db ids
  = Failed (Errorf "error executing GetByIds query" msg).
Proof. reflexivity. Qed.

(** ** [shouldIncludeEvent] *)

Section SearchFacts.

Variable Regexp : Type.
Variable MatchString : Regexp → string → bool.
Variable FieldExtractors : Type.
Variable ExtractFields : string → FieldExtractors → gmap string string.
Variable ToLower : string → string.

Local Abbreviation frags_loop' := (frags_loop Regexp MatchString).
Local Abbreviation notFrags_loop' := (notFrags_loop Regexp MatchString).
Local Abbreviation anyMatch' := (anyMatch Regexp MatchString).
Local Abbreviation fields_loop' := (fields_loop Regexp MatchString).
Local Abbreviation notFields_loop' := (notFields_loop Regexp MatchString).
Local Abbreviation field_ok' := (field_ok Regexp MatchString).
Local Abbreviation forbidden_hit' := (forbidden_hit Regexp MatchString).
Local Abbreviation before_first_absent' := (before_first_absent Regexp).

Lemma frags_loop_spec frags raw include :
  frags_loop' frags raw include = forallb (fun f => MatchString f raw) frags && include.
Proof.
  induction frags as [|f frags IH]; [done|]. simpl.
  destruct (MatchString f raw); simpl; [exact IH|done].
Qed.

Lemma notFrags_loop_spec frags raw include :
  notFrags_loop' frags raw include
  = negb (existsb (fun f => MatchString f raw) frags) && include.
Proof.
  induction frags as [|f frags IH]; [done|]. simpl.
  destruct (MatchString f raw); simpl; [done|exact IH].
Qed.

Lemma anyMatch_spec values v :
  anyMatch' values v = existsb (fun p => MatchString p v) values.
Proof.
  unfold anyMatch.
  assert (∀ acc, foldl (fun anyMatch' value => if MatchString value v then true else anyMatch')
                   acc values
                 = acc || existsb (fun p => MatchString p v) values) as H.
  { induction values as [|p values IH]; intros acc; simpl; [by rewrite orb_false_r|].
    rewrite IH. destruct (MatchString p v), acc; simpl; try done. }
  by rewrite H.
Qed.

Lemma fields_loop_spec fields evtFields include :
  fields_loop' fields evtFields include = forallb (field_ok' evtFields) fields && include.
Proof.
  induction fields as [|[k values] fields IH]; [done|].
  cbn [fields_loop forallb]. unfold field_ok at 1. cbn [fst snd].
  destruct (evtFields !! k) as [v|]; [|done].
  fold (anyMatch' values v). rewrite anyMatch_spec.
  destruct (existsb _ values); simpl; [exact IH|done].
Qed.

(** The forbidden-field loop looks at the constraints that come before the
    first absent field, and at no other. *)
Lemma notFields_loop_spec visit evtFields include :
  notFields_loop' visit evtFields include
  = negb (existsb (forbidden_hit' evtFields) (before_first_absent' evtFields visit))
    && include.
Proof.
  induction visit as [|[k values] visit IH]; [done|].
  cbn [notFields_loop before_first_absent fst].
  destruct (evtFields !! k) as [v|] eqn:E; [|done].
  cbn [existsb]. unfold forbidden_hit at 1. cbn [fst snd].
  rewrite E. fold (anyMatch' values v). rewrite anyMatch_spec.
  destruct (existsb _ values); simpl; [done|exact IH].
Qed.

Lemma before_first_absent_present evtFields (visit : list (string * list Regexp)) :
  (∀ kv, kv ∈ visit → is_Some (evtFields !! kv.1)) →
  before_first_absent' evtFields visit = visit.
Proof.
  induction visit as [|kv visit IH]; intros Hall; [done|].
  cbn [before_first_absent].
  destruct (Hall kv (list_elem_of_here _ _)) as [v ->].
  f_equal. apply IH. intros kv' Hkv'. apply Hall. by right.
Qed.

Lemma forallb_Permutation {A} (f : A → bool) l l' :
  l ≡ₚ l' → forallb f l = forallb f l'.
Proof.
  induction 1 as [|x l l' _ IH|x y l|l l' l'' _ IH1 _ IH2]; simpl.
  - done.
  - by rewrite IH.
  - by rewrite !andb_assoc, (andb_comm (f y)).
  - by rewrite IH1.
Qed.

Lemma existsb_Permutation {A} (f : A → bool) l l' :
  l ≡ₚ l' → existsb f l = existsb f l'.
Proof.
  induction 1 as [|x l l' _ IH|x y l|l l' l'' _ IH1 _ IH2]; simpl.
  - done.
  - by rewrite IH.
  - by rewrite !orb_assoc, (orb_comm (f y)).
  - by rewrite IH1.
Qed.

(** The decision of [shouldIncludeEvent], in closed form. *)
Lemma shouldIncludeEvent_spec evt extractors frags notFrags fields notFields :
  let rawLowered := ToLower (EventWithId.Raw evt) in
  let evtFields := <["source" := EventWithId.Source evt]> (ExtractFields rawLowered extractors) in
  shouldIncludeEvent Regexp MatchString FieldExtractors ExtractFields ToLower
    evt extractors frags notFrags fields notFields
  = (evtFields,
     forallb (fun f => MatchString f rawLowered) frags
     && negb (existsb (fun f => MatchString f rawLowered) notFrags)
     && forallb (field_ok' evtFields) fields
     && negb (existsb (forbidden_hit' evtFields) (before_first_absent' evtFields notFields))).
Proof.
  intros rawLowered evtFields. unfold shouldIncludeEvent. f_equal.
  rewrite notFields_loop_spec, fields_loop_spec, notFrags_loop_spec, frags_loop_spec.
  fold rawLowered. fold evtFields.
  destruct (forallb _ frags), (negb (existsb _ notFrags)), (forallb _ fields),
    (negb (existsb _ (before_first_absent' _ _))); done.
Qed.

(** When the event has every field a forbidden-field constraint names, the
    decision is the one the specification describes, whatever the visits. *)
Lemma shouldIncludeEvent_all_present evt extractors frags notFrags fields notFields :
  let rawLowered := ToLower (EventWithId.Raw evt) in
  let evtFields := <["source" := EventWithId.Source evt]> (ExtractFields rawLowered extractors) in
  (∀ kv, kv ∈ notFields → is_Some (evtFields !! kv.1)) →
  (shouldIncludeEvent Regexp MatchString FieldExtractors ExtractFields ToLower
     evt extractors frags notFrags fields notFields).2 = true
  ↔ (∀ f, f ∈ frags → MatchString f rawLowered = true)
    ∧ (∀ f, f ∈ notFrags → MatchString f rawLowered = false)
    ∧ (∀ kv, kv ∈ fields → field_ok' evtFields kv = true)
    ∧ (∀ kv, kv ∈ notFields → forbidden_hit' evtFields kv = false).
Proof.
  intros rawLowered evtFields Hall. rewrite shouldIncludeEvent_spec. cbn [snd].
  fold rawLowered. fold evtFields. rewrite before_first_absent_present by done.
  rewrite !andb_true_iff, !negb_true_iff, !forallb_forall.
  rewrite <- !not_true_iff_false, !existsb_exists.
  setoid_rewrite <- list_elem_of_In. setoid_rewrite <- not_true_iff_false.
  naive_solver.
Qed.

(** With a single forbidden-field constraint there is nothing to skip. *)
Lemma shouldIncludeEvent_one_forbidden evt extractors frags notFrags fields key values :
  let rawLowered := ToLower (EventWithId.Raw evt) in
  let evtFields := <["source" := EventWithId.Source evt]> (ExtractFields rawLowered extractors) in
  (shouldIncludeEvent Regexp MatchString FieldExtractors ExtractFields ToLower
     evt extractors frags notFrags fields [(key, values)]).2
  = forallb (fun f => MatchString f rawLowered) frags
    && negb (existsb (fun f => MatchString f rawLowered) notFrags)
    && forallb (field_ok' evtFields) fields
    && negb (forbidden_hit' evtFields (key, values)).
Proof.
  intros rawLowered evtFields. rewrite shouldIncludeEvent_spec. cbn [snd].
  fold rawLowered. fold evtFields. f_equal. f_equal.
  cbn [before_first_absent fst].
  unfold forbidden_hit. cbn [fst snd].
  destruct (evtFields !! key) as [v|] eqn:E; simpl; [rewrite E; apply orb_false_r|done].
Qed.

(** The visits of the required-field map do not matter. *)
Lemma shouldIncludeEvent_fields_order evt extractors frags notFrags fields fields' notFields :
  fields ≡ₚ fields' →
  shouldIncludeEvent Regexp MatchString FieldExtractors ExtractFields ToLower
    evt extractors frags notFrags fields notFields
  = shouldIncludeEvent Regexp MatchString FieldExtractors ExtractFields ToLower
      evt extractors frags notFrags fields' notFields.
Proof.
  intros Hp. rewrite !shouldIncludeEvent_spec. cbv zeta.
  by rewrite (forallb_Permutation _ _ _ Hp).
Qed.

End SearchFacts.

(** The cases the specification lists for required and forbidden fragments
    and fields. *)
Example shouldIncludeEvent_cases :
  Toy.include Toy.evt_no_status ["error"] [] [] [] = true
  ∧ Toy.include Toy.evt_no_status [] ["error"] [] [] = false
  ∧ Toy.include Toy.evt502 [] [] [("status", ["500"; "502"])] [] = true
  ∧ Toy.include Toy.evt_no_status [] [] [("status", ["500"; "502"])] [] = false
  ∧ Toy.include Toy.evt200 [] [] [("status", ["500"; "502"])] [] = false
  ∧ Toy.include Toy.evt_no_status [] [] [] [("status", ["500"])] = true
  ∧ Toy.include Toy.evt500 [] [] [] [("status", ["500"])] = false.
Proof. vm_compute. done. Qed.

(** C2, at the failing input.  The event has [status=500] and no [host]
    field; the forbidden-field constraints are [host: web1] and
    [status: 500].  The forbidden pattern matches the status of the event, and
    alone it excludes the event; but when the visit of the map meets [host]
    first, the loop is left at the absent field and the event is included. *)
Theorem shouldIncludeEvent_skips_forbidden_fields :
  forbidden_hit string Toy.MatchString (ToyStream.fields_of Toy.evt500) ("status", ["500"])
  = true
  ∧ ToyStream.fields_of Toy.evt500 !! "host" = None
  ∧ Toy.include Toy.evt500 [] [] [] [("status", ["500"])] = false
  ∧ Toy.include Toy.evt500 [] [] [] Toy.host_first = true.
Proof. vm_compute. done. Qed.

(** C6, at the failing input.  The same search, the same page, the same
    event: both lists are visits of the one map of forbidden fields, and the
    refined page holds the event under one of them and is empty under the
    other. *)
Theorem FilterEventsStream_depends_on_visit_order :
  range_of string Toy.notFields Toy.host_first
  ∧ range_of string Toy.notFields Toy.status_first
  ∧ (fun p : list EventWithExtractedFields => EventWithExtractedFields.Id <$> p)
      <$> ToyStream.refine Toy.host_first = [[1%Z]]
  ∧ ToyStream.refine Toy.status_first = [[]]
  ∧ ToyStream.refine Toy.host_first ≠ ToyStream.refine Toy.status_first.
Proof.
  assert (map_to_list Toy.notFields = Toy.status_first) as Hlist by (by vm_compute).
  split; [|split; [|split; [|split]]].
  - unfold range_of. rewrite Hlist. apply perm_swap.
  - unfold range_of. by rewrite Hlist.
  - by vm_compute.
  - by vm_compute.
  - intros Heq. apply (f_equal (fun ps => length <$> ps)) in Heq.
    vm_compute in Heq. discriminate Heq.
Qed.

(** ** [PublishEvent] *)

(** C8: whatever the extractor, the lower-casing and the time parser, an
    event whose [_time] field does not parse under the layout is sent with the
    wall-clock time of the call as its timestamp, and one warning is logged;
    an event without [_time] field is sent with the wall-clock time as well;
    a [_time] that parses is the timestamp.  In every case exactly one event
    is handed over, carrying the raw text, source and offset of the submission
    and the configured host name, and nothing is returned to the caller. *)
Theorem PublishEvent_falls_back_to_wall_clock
    (FieldExtractors : Type)
    (ExtractFields : string → FieldExtractors → gmap string string)
    (ToLower : string → string) (time_Parse : string → string → Res Z)
    (cfg : Config.t FieldExtractors) (now : Z) (evt : RawEvent) (timeLayout : string) :
  let fields := ExtractFields (ToLower (RawEvent.Raw evt)) (Config.FieldExtractors_ cfg) in
  let out := PublishEvent FieldExtractors ExtractFields ToLower time_Parse
               cfg now evt timeLayout in
  (∀ t err, fields !! "_time" = Some t → time_Parse timeLayout t = Err err →
     Event.Timestamp out.1 = now
     ∧ out.2 = [LogWarning "failed to parse _time field, will use current time as timestamp" err])
  ∧ (fields !! "_time" = None → Event.Timestamp out.1 = now ∧ out.2 = [])
  ∧ (∀ t parsed, fields !! "_time" = Some t → time_Parse timeLayout t = Ok parsed →
       Event.Timestamp out.1 = parsed ∧ out.2 = [])
  ∧ Event.Raw out.1 = RawEvent.Raw evt
  ∧ Event.Host out.1 = Config.HostName cfg
  ∧ Event.Source out.1 = RawEvent.Source evt
  ∧ Event.Offset out.1 = RawEvent.Offset evt.
Proof.
  intros fields out. subst out. unfold PublishEvent. fold fields.
  destruct (fields !! "_time") as [t|] eqn:Ht;
    [destruct (time_Parse timeLayout t) as [parsed|msg] eqn:Hp|];
    cbn [fst snd Event.Timestamp Event.Raw Event.Host Event.Source Event.Offset];
    repeat split; intros; simplify_eq; congruence.
Qed.

(** An unparsable [_time], a missing one and a parsable one, at the wall-clock
    time 1700000000. *)
Example PublishEvent_cases :
  ToyStream.publish 1700000000 (RawEvent.mk "_time=yesterday disk full" "A" 7)
  = (Event.mk "_time=yesterday disk full" "host1" "A" 7 1700000000,
     [LogWarning "failed to parse _time field, will use current time as timestamp"
                 "cannot parse time"])
  ∧ ToyStream.publish 1700000000 (RawEvent.mk "disk full" "A" 8)
    = (Event.mk "disk full" "host1" "A" 8 1700000000, [])
  ∧ ToyStream.publish 1700000000 (RawEvent.mk "_time=1600000000 disk full" "A" 9)
    = (Event.mk "_time=1600000000 disk full" "host1" "A" 9 1600000000, []).
Proof. vm_compute. done. Qed.

(** ** The flushing task of [BatchedRepositoryPublisher] *)

Section FlusherFacts.

Import Flusher.

Variable AddBatch_err : list Event → option string.

Local Abbreviation step' := (step AddBatch_err).
Local Abbreviation run' := (run AddBatch_err).
Local Abbreviation feasible' := (feasible AddBatch_err).

Lemma step_recv_below st now evt :
  length (accumulated st) + 1 < 1000 →
  step' st (Recv now evt) = (mkState (accumulated st ++ [evt]) (timeout st), [], []).
Proof.
  intros Hlen. unfold step. rewrite bool_decide_eq_false_2; [done|].
  rewrite length_app. cbn [length]. lia.
Qed.

Lemma step_recv_full st now evt :
  1000 ≤ length (accumulated st) + 1 →
  step' st (Recv now evt)
  = (mkState [] (now + Second), [mkFlush now (accumulated st ++ [evt])],
     log_flush_error AddBatch_err (accumulated st ++ [evt])).
Proof.
  intros Hlen. unfold step. rewrite bool_decide_eq_true_2; [done|].
  rewrite length_app. cbn [length]. lia.
Qed.

Lemma step_timeout_nonempty st now :
  accumulated st ≠ [] →
  step' st (Timeout now) = (mkState [] (now + Second), [mkFlush now (accumulated st)], []).
Proof.
  intros Hne. unfold step. rewrite bool_decide_eq_true_2; [done|].
  destruct (accumulated st); [done|cbn [length]; lia].
Qed.

Lemma step_timeout_empty st now :
  accumulated st = [] →
  step' st (Timeout now) = (mkState [] (now + Second), [], []).
Proof. intros Hnil. unfold step. rewrite Hnil. done. Qed.

(** one iteration keeps the buffer below 1000 events, and what it flushes is
    a batch of 1 to 1000 events *)
Lemma step_bounded st sel :
  length (accumulated st) < 1000 →
  length (accumulated (step' st sel).1.1) < 1000
  ∧ Forall (fun f => 0 < length (batch f) ≤ 1000) (step' st sel).1.2.
Proof.
  intros Hlen. destruct sel as [now|now evt]; unfold step.
  - case_bool_decide; cbn [fst snd accumulated length].
    + split; [lia|]. apply Forall_singleton. cbn [batch]. lia.
    + split; [done|apply Forall_nil_2].
  - case_bool_decide as Hfull; cbn [fst snd accumulated length].
    + split; [lia|]. apply Forall_singleton. cbn [batch].
      rewrite length_app in Hfull |- *. cbn [length] in Hfull |- *. lia.
    + split; [|apply Forall_nil_2]. rewrite length_app in Hfull |- *.
      cbn [length] in Hfull |- *. lia.
Qed.

Lemma run_bounded sels : ∀ st,
  length (accumulated st) < 1000 →
  length (accumulated (run' st sels).1) < 1000
  ∧ Forall (fun f => 0 < length (batch f) ≤ 1000) (run' st sels).2.
Proof.
  induction sels as [|sel sels IH]; intros st Hlen; [by split; [|apply Forall_nil_2]|].
  cbn [run]. destruct (step_bounded st sel Hlen) as [Hst Hfl].
  destruct (step' st sel) as [[st1 fl] log]. cbn [fst snd] in Hst, Hfl.
  destruct (IH st1 Hst) as [Hst2 Hfls].
  destruct (run' st1 sels) as [st2 fls]. cbn [fst snd] in *.
  split; [done|]. by apply Forall_app.
Qed.

Lemma run_submissions l : ∀ st rest,
  length (accumulated st) + length l < 1000 →
  run' st (submissions l ++ rest)
  = run' (mkState (accumulated st ++ l.*2) (timeout st)) rest.
Proof.
  induction l as [|[t evt] l IH]; intros st rest Hlen.
  - cbn [submissions fmap list_fmap app]. rewrite app_nil_r. by destruct st.
  - cbn [length] in Hlen. unfold submissions. rewrite fmap_cons. cbn [app run fst snd].
    rewrite step_recv_below by lia.
    fold (submissions l). rewrite IH by (cbn [accumulated]; rewrite length_app; cbn [length]; lia).
    cbn [accumulated timeout]. rewrite fmap_cons, <- app_assoc. cbn [snd app].
    by destruct (run' _ rest).
Qed.

Lemma feasible_submissions l : ∀ st last rest,
  length (accumulated st) + length l < 1000 →
  feasible' st last (submissions l ++ rest) →
  ∃ last', feasible' (mkState (accumulated st ++ l.*2) (timeout st)) last' rest.
Proof.
  induction l as [|[t evt] l IH]; intros st last rest Hlen Hf.
  - exists last. cbn [submissions fmap list_fmap app] in *. rewrite app_nil_r. by destruct st.
  - cbn [length] in Hlen. unfold submissions in Hf. rewrite fmap_cons in Hf.
    cbn [app feasible fst snd] in Hf. destruct Hf as (_ & _ & Hf).
    rewrite step_recv_below in Hf by lia. cbn [fst] in Hf.
    fold (submissions l) in Hf.
    apply IH in Hf as [last' Hf];
      [|cbn [accumulated]; rewrite length_app; cbn [length]; lia].
    exists last'. cbn [accumulated timeout] in Hf. rewrite <- app_assoc in Hf.
    rewrite fmap_cons. exact Hf.
Qed.

(** fewer than 1000 submissions after a flush, then the timer *)
Lemma run_burst st last l now :
  accumulated st = [] →
  0 < length l < 1000 →
  feasible' st last (submissions l ++ [Timeout now]) →
  run' st (submissions l ++ [Timeout now])
  = (mkState [] (now + Second), [mkFlush now l.*2])
  ∧ (timeout st <= now)%Z.
Proof.
  intros Hnil Hlen Hf. split.
  - rewrite run_submissions by (rewrite Hnil; cbn [length]; lia).
    rewrite Hnil. cbn [app run]. rewrite step_timeout_nonempty; [done|].
    cbn [accumulated]. destruct l; [cbn [length] in Hlen; lia|done].
  - apply feasible_submissions in Hf as [last' Hf]; [|rewrite Hnil; cbn [length]; lia].
    cbn [feasible enabled timeout] in Hf. by destruct Hf.
Qed.

End FlusherFacts.

(** C7: the flushing task.  (1) A submission that brings the buffer to 1000
    events is flushed at once, with the whole buffer, and the timer is set to
    one second later.  (2) When the timer fires on a buffer that is not empty,
    the whole buffer is flushed, even a single event, and the timer is set
    again; on an empty buffer nothing is flushed and the timer is set again.
    (3) Whatever the task receives, the buffer stays below 1000 events between
    two iterations, and every batch handed to the store holds between 1 and
    1000 events.  (4) After a flush, fewer than 1000 submissions followed by
    the timer are flushed exactly once, in the iteration of the timer, which
    is no earlier than the instant the timer was set for. *)
Theorem flusher_discipline (AddBatch_err : list Event → option string) :
  (∀ st now evt,
     1000 ≤ length (Flusher.accumulated st) + 1 →
     Flusher.step AddBatch_err st (Flusher.Recv now evt)
     = (Flusher.mkState [] (now + Flusher.Second),
        [Flusher.mkFlush now (Flusher.accumulated st ++ [evt])],
        Flusher.log_flush_error AddBatch_err (Flusher.accumulated st ++ [evt])))
  ∧ (∀ st now,
       Flusher.accumulated st ≠ [] →
       Flusher.step AddBatch_err st (Flusher.Timeout now)
       = (Flusher.mkState [] (now + Flusher.Second),
          [Flusher.mkFlush now (Flusher.accumulated st)], []))
  ∧ (∀ st now,
       Flusher.accumulated st = [] →
       Flusher.step AddBatch_err st (Flusher.Timeout now)
       = (Flusher.mkState [] (now + Flusher.Second), [], []))
  ∧ (∀ start sels,
       length (Flusher.accumulated (Flusher.run AddBatch_err (Flusher.init start) sels).1)
       < 1000
       ∧ Forall (fun f => 0 < length (Flusher.batch f) ≤ 1000)
                (Flusher.run AddBatch_err (Flusher.init start) sels).2)
  ∧ (∀ st last l now,
       Flusher.accumulated st = [] →
       0 < length l < 1000 →
       Flusher.feasible AddBatch_err st last (submissions l ++ [Flusher.Timeout now]) →
       Flusher.run AddBatch_err st (submissions l ++ [Flusher.Timeout now])
       = (Flusher.mkState [] (now + Flusher.Second), [Flusher.mkFlush now l.*2])
       ∧ (Flusher.timeout st <= now)%Z).
Proof.
  split; [|split; [|split; [|split]]].
  - apply step_recv_full.
  - apply step_timeout_nonempty.
  - apply step_timeout_empty.
  - intros start sels. apply run_bounded. cbn [Flusher.init Flusher.accumulated length]. lia.
  - apply run_burst.
Qed.

(** Two submissions within the first second, then the timer at its instant:
    one flush of both events, and the timer is set one second later. *)
Lemma flusher_discipline_witness :
  Flusher.run (fun _ => None) (Flusher.init 0)
    (submissions [(10%Z, Sample.e1); (20%Z, Sample.e2)] ++ [Flusher.Timeout 1000000000])
  = (Flusher.mkState [] 2000000000,
     [Flusher.mkFlush 1000000000 [Sample.e1; Sample.e2]])
  ∧ (Flusher.timeout (Flusher.init 0) <= 1000000000)%Z.
Proof.
  refine (proj2 (proj2 (proj2 (proj2 (flusher_discipline (fun _ => None)))))
            (Flusher.init 0) 0%Z [(10%Z, Sample.e1); (20%Z, Sample.e2)] 1000000000%Z
            eq_refl _ _).
  - cbn [length]. lia.
  - vm_compute. repeat split; discriminate.
Defined.

Lemma PublishEvent_falls_back_to_wall_clock_witness :
  Event.Timestamp
    (ToyStream.publish 1700000000 (RawEvent.mk "_time=yesterday disk full" "A" 7)).1
  = 1700000000%Z
  ∧ (ToyStream.publish 1700000000 (RawEvent.mk "_time=yesterday disk full" "A" 7)).2
    = [LogWarning "failed to parse _time field, will use current time as timestamp"
                  "cannot parse time"].
Proof.
  refine (proj1 (PublishEvent_falls_back_to_wall_clock unit Toy.ExtractFields Toy.ToLower
                   Toy.time_Parse ToyStream.cfg 1700000000
                   (RawEvent.mk "_time=yesterday disk full" "A" 7) "unix")
            "yesterday" "cannot parse time" _ _).
  - vm_compute. reflexivity.
  - vm_compute. reflexivity.
Defined.

(** ** [AddBatch] under arbitrary faults *)

Lemma insert_event_Ok fault c s ts off c1 i :
  insert_event fault c s ts off = Ok (c1, i) →
  i = next_rowid (Events (c_db c))
  ∧ ¬ (s, ts, off) ∈ stored (Events (c_db c))
  ∧ c1 = mkConn (mkDb (Events (c_db c) ++ [mkE i s ts off]) (EventRaws (c_db c))) i.
Proof.
  unfold insert_event. destruct fault; [done|].
  destruct (violates_unique _ s ts off) eqn:Hv; [done|].
  intros [= <- <-]. split; [done|]. split; [|done].
  rewrite <- violates_unique_stored. by rewrite Hv.
Qed.

Lemma insert_raw_Ok fault c raw s c2 :
  insert_raw fault c raw s = Ok c2 →
  (∀ r, r ∈ EventRaws (c_db c) → r_rowid r ≠ c_last_insert_rowid c)
  ∧ c2 = mkConn (mkDb (Events (c_db c))
                      (EventRaws (c_db c) ++ [mkR (c_last_insert_rowid c) raw s]))
                (c_last_insert_rowid c).
Proof.
  unfold insert_raw. destruct fault; [done|].
  destruct (existsb _ _) eqn:Hex; [done|]. intros [= <-]. split; [|done].
  intros r Hr Heq. apply not_true_iff_false in Hex. apply Hex.
  apply existsb_exists. exists r. split; [by apply list_elem_of_In|by apply Z.eqb_eq].
Qed.

(** the two INSERTs of one event keep the promises of the schema *)
Lemma store_ok_insert db i s ts off raw :
  store_ok db →
  i = next_rowid (Events db) →
  (s, ts, off) ∉ stored (Events db) →
  (∀ r, r ∈ EventRaws db → r_rowid r ≠ i) →
  store_ok (mkDb (Events db ++ [mkE i s ts off]) (EventRaws db ++ [mkR i raw s])).
Proof.
  intros ([Hids Hrowids] & Htriples & Hraws) -> Hnew Hfree.
  split; [split|split]; cbn [Sqlite.Events EventRaws].
  - rewrite fmap_app. apply NoDup_app. split; [done|]. split; [|apply NoDup_singleton].
    intros x (e & -> & He)%list_elem_of_fmap Hx.
    apply list_elem_of_singleton in Hx. cbn in Hx.
    pose proof (next_rowid_gt _ _ He). lia.
  - rewrite fmap_app. apply NoDup_app. split; [done|]. split; [|apply NoDup_singleton].
    intros x (r & -> & Hr)%list_elem_of_fmap Hx.
    apply list_elem_of_singleton in Hx. cbn in Hx. by apply (Hfree r).
  - unfold stored in *. rewrite fmap_app. apply NoDup_app. split; [done|].
    split; [|apply NoDup_singleton].
    intros x Hx Hx'. apply list_elem_of_singleton in Hx'. subst x. by apply Hnew.
  - intros r. cbn [Sqlite.Events EventRaws].
    rewrite elem_of_app, list_elem_of_singleton. intros [Hr| ->].
    + destruct (Hraws r Hr) as (e & He & Hid). exists e. rewrite elem_of_app. by auto.
    + eexists. rewrite elem_of_app, list_elem_of_singleton. split; [by right|done].
Qed.

(** Whatever fails, a loop that reaches its end has kept the promises of the
    schema and has only appended rows. *)
Lemma AddBatch_loop_keeps flt events : ∀ i c ret nd c' ret' nd',
  AddBatch_loop flt i events c ret nd = Ok (c', ret', nd') →
  store_ok (c_db c) →
  store_ok (c_db c')
  ∧ Events (c_db c) `prefix_of` Events (c_db c')
  ∧ EventRaws (c_db c) `prefix_of` EventRaws (c_db c').
Proof.
  induction events as [|evt rest IH]; intros i c ret nd c' ret' nd' Hloop Hok.
  - injection Hloop as <- <- <-. done.
  - cbn [AddBatch_loop] in Hloop.
    destruct (insert_event _ c _ _ _) as [[c1 id]|msg] eqn:Hins.
    + destruct (lastid_fault flt i); [done|].
      destruct (insert_raw _ c1 _ _) as [c2|msg] eqn:Hraw; [|done].
      apply insert_event_Ok in Hins as (-> & Hnew & ->).
      apply insert_raw_Ok in Hraw as (Hfree & ->).
      cbn [c_db c_last_insert_rowid Sqlite.Events EventRaws] in *.
      apply IH in Hloop as (Hok' & Hp1 & Hp2).
      * split; [done|]. cbn [c_db Sqlite.Events EventRaws] in *.
        split; (etrans; [|eassumption]); by apply prefix_app_r.
      * cbn [c_db]. by apply store_ok_insert.
    + destruct (String.eqb msg expectedConstraintViolationForDuplicates); [|done].
      by apply IH in Hloop.
Qed.

(** Whatever fails in a call of [AddBatch] (statements, the commit, the
    start of the transaction), the database afterwards still keeps the
    promises of the schema, and the rows it held are still there, in place. *)
Theorem AddBatch_keeps_constraints (flt : Faults) (db : Db) (events : list Event) :
  store_ok db →
  store_ok (ab_db (AddBatch flt db events))
  ∧ Events db `prefix_of` Events (ab_db (AddBatch flt db events))
  ∧ EventRaws db `prefix_of` EventRaws (ab_db (AddBatch flt db events)).
Proof.
  intros Hok. unfold AddBatch. destruct (begin_fault flt); [done|].
  destruct (AddBatch_loop _ _ _ _ _ _) as [[[c ret] nd]|msg] eqn:Hloop; [|done].
  destruct (commit_fault flt); [done|].
  cbn [ab_db]. by apply (AddBatch_loop_keeps _ _ _ _ _ _ _ _ _ Hloop).
Qed.

(** ** [AddBatch]: resubmission, and lookup of what was added *)

Lemma AddBatch_loop_all_duplicates events : ∀ i c ret nd,
  (∀ e, e ∈ events → triple_of_event e ∈ stored (Events (c_db c))) →
  ∃ nd', AddBatch_loop no_faults i events c ret nd = Ok (c, ret, nd').
Proof.
  induction events as [|evt rest IH]; intros i c ret nd Hall; [by eexists|].
  rewrite AddBatch_loop_duplicate by (apply Hall; left).
  apply IH. intros e He. apply Hall. by right.
Qed.

Lemma AddBatch_loop_stores events : ∀ i c ret nd c' ret' nd',
  raws_in_events (c_db c) →
  AddBatch_loop no_faults i events c ret nd = Ok (c', ret', nd') →
  (∀ t, t ∈ stored (Events (c_db c)) → t ∈ stored (Events (c_db c')))
  ∧ (∀ e, e ∈ events → triple_of_event e ∈ stored (Events (c_db c'))).
Proof.
  induction events as [|evt rest IH]; intros i c ret nd c' ret' nd' Hwf Hloop.
  - injection Hloop as <- <- <-. split; [done|]. intros e He. inv He.
  - revert Hloop. loop_cases c evt Hwf; intros Hloop.
    + destruct (IH _ _ _ _ _ _ _ Hwf Hloop) as [Hmono Hin]. split; [done|].
      intros e [->|He]%elem_of_cons; [by apply Hmono|by apply Hin].
    + destruct (IH _ _ _ _ _ _ _ (with_event_wf c evt Hwf) Hloop) as [Hmono Hin].
      assert (∀ t, t ∈ stored (Events (c_db c)) ∨ t = triple_of_event evt →
                   t ∈ stored (Events (c_db c'))) as Hstep.
      { intros t Ht. apply Hmono. rewrite with_event_stored, elem_of_app.
        rewrite list_elem_of_singleton. done. }
      split; [by auto|].
      intros e [->|He]%elem_of_cons; [by auto|by apply Hin].
Qed.

(** A batch that was added is skipped as a whole when it is submitted again:
    the call succeeds, every slot of the returned slice holds 0, and the
    database is the one the first call left. *)
Theorem AddBatch_resubmitted_batch (db : Db) (events : list Event) :
  raws_in_events db →
  let r1 := AddBatch no_faults db events in
  let r2 := AddBatch no_faults (ab_db r1) events in
  ab_err r2 = None
  ∧ ab_tx r2 = TxCommitted
  ∧ ab_ret r2 = Some (replicate (length events) 0%Z)
  ∧ ab_db r2 = ab_db r1.
Proof.
  intros Hwf r1 r2.
  destruct (AddBatch_loop_ok events 0 (mkConn db 0) (replicate (length events) 0%Z) ∅ Hwf)
    as (c' & ret' & nd' & Hloop & _).
  destruct (AddBatch_loop_stores events 0 (mkConn db 0) _ _ _ _ _ Hwf Hloop) as [_ Hin].
  assert (ab_db r1 = c_db c') as Hdb.
  { subst r1. unfold AddBatch. cbn [begin_fault commit_fault no_faults].
    by rewrite Hloop. }
  destruct (AddBatch_loop_all_duplicates events 0 (mkConn (c_db c') 0)
              (replicate (length events) 0%Z) ∅ Hin) as [nd2 Hloop2].
  subst r2. rewrite Hdb. unfold AddBatch. cbn [begin_fault commit_fault no_faults].
  rewrite Hloop2. done.
Qed.

Lemma AddBatch_resubmitted_batch_witness :
  raws_in_events Sample.db1
  ∧ ab_db (AddBatch no_faults
             (ab_db (AddBatch no_faults Sample.db1 [Sample.e2; Sample.e3]))
             [Sample.e2; Sample.e3])
    = ab_db (AddBatch no_faults Sample.db1 [Sample.e2; Sample.e3]).
Proof.
  assert (raws_in_events Sample.db1) as Hwf.
  { intros r Hr. apply list_elem_of_singleton in Hr as ->.
    eexists. split; [apply list_elem_of_singleton; reflexivity|reflexivity]. }
  split; [exact Hwf|].
  exact (proj2 (proj2 (proj2
           (AddBatch_resubmitted_batch Sample.db1 [Sample.e2; Sample.e3] Hwf)))).
Defined.

Lemma join_rows_elem db e r :
  (e, r) ∈ Join.rows db ↔ e ∈ Events db ∧ r ∈ EventRaws db ∧ r_rowid r = e_id e.
Proof.
  unfold Join.rows. rewrite list_elem_of_bind. split.
  - intros (e' & Hin & He'). apply list_elem_of_bind in Hin as (r' & Hin & Hr').
    case_bool_decide; [|by inv Hin]. apply list_elem_of_singleton in Hin.
    by simplify_eq.
  - intros (He & Hr & Heq). exists e. split; [|done].
    apply list_elem_of_bind. exists r. split; [|done].
    rewrite bool_decide_eq_true_2 by done. by apply list_elem_of_singleton.
Qed.

(** An event [AddBatch] stored is found by [GetByIds] under the identity
    [AddBatch] returned for it, with its raw text, source and timestamp; the
    host name is not stored and comes back empty. *)
Theorem AddBatch_then_GetByIds
    (retrieval_order : list (EventsRow * EventRawsRow) → list (EventsRow * EventRawsRow))
    (db : Db) (events : list Event) (k : nat) (evt : Event) :
  (∀ l, retrieval_order l ≡ₚ l) →
  store_ok db →
  events !! k = Some evt →
  is_duplicate db events k = false →
  let r := AddBatch no_faults db events in
  ∃ ret id,
    ab_ret r = Some ret ∧ ret !! k = Some id
    ∧ GetByIds retrieval_order None (fun _ => None) (ab_db r) [id]
      = Returned [EventWithId.mk id (Event.Raw evt) "" (Event.Source evt)
                                 (Event.Timestamp evt)].
Proof.
  intros Hperm Hok Hk Hnovel r.
  pose proof Hok as (_ & _ & Hwf).
  destruct (AddBatch_loop_ok events 0 (mkConn db 0) (replicate (length events) 0%Z) ∅ Hwf)
    as (c' & ret' & nd' & Hloop & _).
  assert (∀ t, t ∈ stored (Events (c_db (mkConn db 0))) ↔ t ∈ stored (Events db))
    as Hst by done.
  pose proof (AddBatch_loop_ret events 0 (mkConn db 0) _ _ _ _ _ _ Hwf Hst Hloop k evt Hk)
    as Hret.
  pose proof (AddBatch_loop_rows events 0 (mkConn db 0) _ _ _ _ _ _ Hwf Hst Hloop k evt
                Hk Hnovel) as [Hrow Hraw].
  destruct (AddBatch_loop_keeps _ _ _ _ _ _ _ _ _ Hloop Hok) as ([Hkeys _] & _).
  unfold is_duplicate in Hnovel. rewrite Hnovel in Hret. cbn [Nat.add] in Hret.
  rewrite length_replicate in Hret. specialize (Hret (lookup_lt_Some _ _ _ Hk)).
  cbv zeta in Hrow, Hraw.
  set (id := (next_rowid (Events (c_db (mkConn db 0)))
              + Z.of_nat (length (novel_before (stored (Events db)) events k)))%Z) in *.
  assert (ab_ret r = Some ret' ∧ ab_db r = c_db c') as [Hr Hdb].
  { subst r. unfold AddBatch. cbn [begin_fault commit_fault no_faults].
    by rewrite Hloop. }
  exists ret', id. split; [done|]. split; [done|]. rewrite Hdb.
  set (e := mkE id (Event.Source evt) (Event.Timestamp evt) (Event.Offset evt)) in *.
  set (rw := mkR id (Event.Raw evt) (Event.Source evt)) in *.
  assert (select_by_ids retrieval_order (c_db c') [id] = [(e, rw)]) as Hsel.
  { pose proof (select_by_ids_length retrieval_order Hperm (c_db c') [id] Hkeys) as Hlen.
    assert ((e, rw) ∈ select_by_ids retrieval_order (c_db c') [id]) as Hin.
    { apply (select_by_ids_elem _ Hperm). split; [by apply list_elem_of_singleton|].
      by apply join_rows_elem. }
    destruct (select_by_ids retrieval_order (c_db c') [id]) as [|x [|y l]];
      cbn [length] in Hlen; [by inv Hin| |lia].
    apply list_elem_of_singleton in Hin. by subst. }
  unfold GetByIds. rewrite Hsel.
  rewrite GetByIds_rows_fill by (cbn; lia). done.
Qed.

Lemma store_ok_db1 : store_ok Sample.db1.
Proof.
  split; [split|split].
  - apply (bool_decide_unpack _). vm_compute. exact I.
  - apply (bool_decide_unpack _). vm_compute. exact I.
  - apply (bool_decide_unpack _). vm_compute. exact I.
  - intros r Hr. apply list_elem_of_singleton in Hr as ->.
    eexists. split; [apply list_elem_of_singleton; reflexivity|reflexivity].
Defined.

Lemma AddBatch_then_GetByIds_witness :
  ∃ ret id,
    ab_ret (AddBatch no_faults Sample.db1 [Sample.e1; Sample.e2]) = Some ret
    ∧ ret !! 1 = Some id
    ∧ GetByIds (fun l => l) None (fun _ => None)
        (ab_db (AddBatch no_faults Sample.db1 [Sample.e1; Sample.e2])) [id]
      = Returned [EventWithId.mk id "2024-01-01 info ok src=b" "" "B" 200].
Proof.
  exact (AddBatch_then_GetByIds (fun l => l) Sample.db1 [Sample.e1; Sample.e2] 1 Sample.e2
           (fun l => reflexivity l) store_ok_db1 eq_refl eq_refl).
Defined.

Lemma AddBatch_keeps_constraints_witness :
  store_ok Sample.db1
  ∧ store_ok (ab_db (AddBatch Sample.second_insert_fails Sample.db1 [Sample.e2; Sample.e3])).
Proof.
  split; [exact store_ok_db1|].
  exact (proj1 (AddBatch_keeps_constraints Sample.second_insert_fails Sample.db1
                  [Sample.e2; Sample.e3] store_ok_db1)).
Defined.

Lemma AddBatch_error_rolls_back_witness :
  ab_err (AddBatch Sample.second_insert_fails Sqlite.empty [Sample.e1; Sample.e2])
  = Some "error executing add statement: disk I/O error"
  ∧ ab_db (AddBatch Sample.second_insert_fails Sqlite.empty [Sample.e1; Sample.e2])
    = Sqlite.empty.
Proof.
  assert (ab_err (AddBatch Sample.second_insert_fails Sqlite.empty [Sample.e1; Sample.e2])
          = Some "error executing add statement: disk I/O error") as Herr
    by (vm_compute; reflexivity).
  split; [exact Herr|].
  exact (proj1 (proj2 (AddBatch_error_rolls_back _ _ _ _ Herr))).
Defined.

Lemma AddBatch_fresh_increasing_ids_witness :
  raws_in_events Sample.db1
  ∧ ab_ret (AddBatch no_faults Sample.db1 [Sample.e2; Sample.e3])
    = Some ((fun k => next_rowid (Events Sample.db1) + Z.of_nat k)%Z <$> seq 0 2).
Proof.
  destruct store_ok_db1 as (_ & _ & Hwf). split; [exact Hwf|].
  apply (AddBatch_fresh_increasing_ids Sample.db1 [Sample.e2; Sample.e3] Hwf).
  intros [|[|k]] Hk; [reflexivity|reflexivity|cbn [length] in Hk; lia].
Defined.

(** ** [AddBatch]: the first statement that fails *)

(** one iteration on a duplicate, when its INSERT is not disturbed *)
Lemma AddBatch_loop_step_duplicate flt i evt rest c ret nd :
  insert_fault flt i = None →
  triple_of_event evt ∈ stored (Events (c_db c)) →
  AddBatch_loop flt i (evt :: rest) c ret nd
  = AddBatch_loop flt (S i) rest c ret (incr (Event.Source evt) nd).
Proof.
  intros Hi Hin. apply violates_unique_stored in Hin.
  cbn [AddBatch_loop]. rewrite Hi. cbn [insert_event].
  rewrite Hin. by rewrite expected_message_eqb.
Qed.

(** one iteration on a novel event, when none of its statements fails *)
Lemma AddBatch_loop_step_novel flt i evt rest c ret nd :
  insert_fault flt i = None → lastid_fault flt i = None → raw_fault flt i = None →
  raws_in_events (c_db c) →
  triple_of_event evt ∉ stored (Events (c_db c)) →
  AddBatch_loop flt i (evt :: rest) c ret nd
  = AddBatch_loop flt (S i) rest (with_event c evt)
      (<[i := next_rowid (Events (c_db c))]> ret) nd.
Proof.
  intros Hi Hl Hr Hwf Hnin.
  assert (violates_unique (Events (c_db c)) (Event.Source evt)
            (Event.Timestamp evt) (Event.Offset evt) = false) as Hv.
  { apply not_true_is_false. by rewrite violates_unique_stored. }
  cbn [AddBatch_loop]. rewrite Hi, Hl, Hr. cbn [insert_event].
  rewrite Hv. cbn [insert_raw c_db c_last_insert_rowid EventRaws Sqlite.Events].
  by rewrite (raw_rowid_free c Hwf).
Qed.

Lemma AddBatch_loop_first_failure flt events : ∀ i c ret nd st k err,
  raws_in_events (c_db c) →
  (∀ t, t ∈ stored (Events (c_db c)) ↔ t ∈ st) →
  k < length events →
  (∀ j, j < k → insert_fault flt (i + j) = None ∧ lastid_fault flt (i + j) = None
                ∧ raw_fault flt (i + j) = None) →
  failure_of flt (i + k) (dup_in st events k) = Some err →
  AddBatch_loop flt i events c ret nd = Err err.
Proof.
  induction events as [|evt rest IH]; intros i c ret nd st k err Hwf Hst Hk Hbefore Hfail;
    [cbn [length] in Hk; lia|].
  destruct k as [|k].
  - rewrite Nat.add_0_r, dup_in_0 in Hfail. unfold failure_of in Hfail.
    cbn [AddBatch_loop].
    destruct (insert_fault flt i) as [msg|]; cbn [insert_event].
    { destruct (String.eqb msg expectedConstraintViolationForDuplicates); [done|].
      congruence. }
    case_bool_decide as Hdup; [done|].
    assert (violates_unique (Events (c_db c)) (Event.Source evt)
              (Event.Timestamp evt) (Event.Offset evt) = false) as ->.
    { apply not_true_is_false. rewrite violates_unique_stored.
      intros Hin. apply Hdup. by apply Hst. }
    destruct (lastid_fault flt i) as [msg|]; [congruence|].
    destruct (raw_fault flt i) as [msg|]; [|done].
    cbn [insert_raw]. congruence.
  - destruct (Hbefore 0) as (Hi & Hl & Hr); [lia|]. rewrite Nat.add_0_r in Hi, Hl, Hr.
    assert (∀ j, j < k → insert_fault flt (S i + j) = None
                         ∧ lastid_fault flt (S i + j) = None
                         ∧ raw_fault flt (S i + j) = None) as Hbefore'.
    { intros j Hj. replace (S i + j) with (i + S j) by lia. apply Hbefore. lia. }
    rewrite dup_in_S in Hfail. replace (i + S k) with (S i + k) in Hfail by lia.
    cbn [length] in Hk.
    destruct (decide (triple_of_event evt ∈ stored (Events (c_db c)))) as [Hdup|Hnovel].
    + rewrite (AddBatch_loop_step_duplicate flt i evt rest c ret nd Hi Hdup).
      apply (IH _ _ _ _ (st ++ [triple_of_event evt]) k err Hwf); [|lia|done|done].
      by apply stored_snoc_dup.
    + rewrite (AddBatch_loop_step_novel flt i evt rest c ret nd Hi Hl Hr Hwf Hnovel).
      apply (IH _ _ _ _ (st ++ [triple_of_event evt]) k err (with_event_wf c evt Hwf));
        [|lia|done|done].
      by apply stored_snoc_novel.
Qed.

(** The batch is worked through in its order, and the first statement that
    fails decides the call.  If the transaction starts, no statement of the
    events before the k-th is disturbed, and a statement of the k-th fails
    (its INSERT with an error other than the duplicate violation, or, for an
    event that is no duplicate, the read of its identity or the INSERT of its
    raw text), then [AddBatch] returns exactly that error, wrapped with the
    name of the failing step, and a nil slice; the transaction is rolled
    back, so the novel events before the k-th, which had been inserted, are
    not in the database; and nothing is logged. *)
Theorem AddBatch_reports_first_failure
    (flt : Faults) (db : Db) (events : list Event) (k : nat) (err : string) :
  raws_in_events db →
  begin_fault flt = None →
  k < length events →
  (∀ j, j < k → insert_fault flt j = None ∧ lastid_fault flt j = None
                ∧ raw_fault flt j = None) →
  failure_of flt k (is_duplicate db events k) = Some err →
  AddBatch flt db events = mkAddBatchResult None (Some err) db TxRolledBack [].
Proof.
  intros Hwf Hbegin Hk Hbefore Hfail. unfold AddBatch. rewrite Hbegin.
  rewrite (AddBatch_loop_first_failure flt events 0 (mkConn db 0) _ ∅
             (stored (Events db)) k err); done.
Qed.

Lemma AddBatch_reports_first_failure_witness :
  AddBatch Sample.third_raw_insert_fails Sample.db1 [Sample.e1; Sample.e2; Sample.e3]
  = mkAddBatchResult None (Some "error executing add raw statement: disk I/O error")
      Sample.db1 TxRolledBack [].
Proof.
  apply (AddBatch_reports_first_failure Sample.third_raw_insert_fails Sample.db1
           [Sample.e1; Sample.e2; Sample.e3] 2).
  - exact (proj2 (proj2 store_ok_db1)).
  - reflexivity.
  - cbn [length]. lia.
  - intros [|[|j]] Hj; [vm_compute; done|vm_compute; done|lia].
  - vm_compute. reflexivity.
Defined.

(** ** [FilterStream]: what the pages hold *)

Lemma filter_all {A} (P : A → Prop) `{∀ x, Decision (P x)} (l : list A) :
  (∀ x, P x) → filter P l = l.
Proof.
  intros HP. induction l as [|x l IH]; [done|].
  rewrite filter_cons_True by done. by rewrite IH.
Qed.

(** an event of a page whose statement holds no quote is the scan of a row
    that the statement selects *)
Lemma delivered_row eng flt db visit startTime endTime maxID k evt :
  reads_as_written eng (page_stmt visit startTime endTime maxID k) = true →
  evt ∈ filter (fun evt => row_scan_fault flt k evt = None)
               (page_rows eng flt db visit startTime endTime maxID k) →
  ∃ row, evt = Join.scan row
         ∧ where_clause eng (page_stmt visit startTime endTime maxID k) row = true
         ∧ row ∈ Join.rows db.
Proof.
  intros Hread Hevt.
  eapply elem_of_sublist in Hevt; [|by apply scanned_sublist].
  apply list_elem_of_fmap in Hevt as (row & -> & Hrow).
  apply run_page_elem in Hrow as [Hw Hrow]. by exists row.
Qed.

(** Every event [FilterStream] delivers for a search without a quote is a
    stored event with its index row, scanned; its identity lies strictly
    below the snapshot; the stored text of its timestamp lies, byte by byte,
    between the texts of the bounds that were given; and its index row
    satisfies the MATCH text of the page it came with.  This holds whatever
    fails and whatever the fuel. *)
Theorem FilterStream_delivers_stored_events
    (eng : Engine) (fuel : nat) (flt : QueryFaults)
    (db : Db) (visit : nat → Visit) (startTime endTime : option Z) (s : Stream) :
  no_quotes eng visit startTime endTime →
  FilterStream eng fuel flt db visit startTime endTime = Some s →
  ∀ k page evt, pages s !! k = Some page → evt ∈ page →
    ∃ e r maxID,
      e ∈ Events db ∧ r ∈ EventRaws db ∧ r_rowid r = e_id e
      ∧ evt = EventWithId.mk (e_id e) (r_raw r) "" (e_source e) (e_timestamp e)
      ∧ max_id (Events db) = Some maxID ∧ (e_id e < maxID)%Z
      ∧ time_ok eng startTime endTime (e_timestamp e) = true
      ∧ fts_match eng (matchString (v_sources (visit k)) (v_notSources (visit k))
                                   (v_fragments (visit k))) r = true.
Proof.
  intros Hq Hs k page evt Hk Hevt.
  destruct (FilterStream_pages _ _ _ _ _ _ fuel s Hs k page Hk) as (maxID & Hmax & ->).
  apply delivered_row in Hevt as ([e r] & -> & Hw & Hrow); [|by apply no_quotes_reads].
  apply join_rows_elem in Hrow as (He & Hr & Heq).
  unfold where_clause in Hw. cbn [page_stmt st_maxID st_startTime st_endTime st_match fst snd]
    in Hw.
  apply andb_true_iff in Hw as [Hw Hm]. apply andb_true_iff in Hw as [Hid Ht].
  apply Z.ltb_lt in Hid.
  exists e, r, maxID. repeat split; done.
Qed.

Lemma one_fragment_no_quotes eng frag (startTime endTime : option Z) :
  quote_free frag = true →
  (∀ t, startTime = Some t → quote_free (Time_String eng t) = true) →
  (∀ t, endTime = Some t → quote_free (Time_String eng t) = true) →
  no_quotes eng (SampleQueries.one_fragment frag) startTime endTime.
Proof.
  intros Hf Hs He. split; [|done]. intros k.
  cbn [SampleQueries.one_fragment v_sources v_notSources v_fragments app].
  by apply Forall_singleton.
Qed.

Lemma FilterStream_delivers_stored_events_witness :
  ∃ e r maxID,
    e ∈ Events three_events ∧ r ∈ EventRaws three_events ∧ r_rowid r = e_id e
    ∧ EventWithId.mk 2 "2024-01-01 info ok src=b" "" "B" 200
      = EventWithId.mk (e_id e) (r_raw r) "" (e_source e) (e_timestamp e)
    ∧ max_id (Events three_events) = Some maxID ∧ (e_id e < maxID)%Z
    ∧ time_ok SampleQueries.word_index (Some 150%Z) (Some 250%Z) (e_timestamp e) = true
    ∧ fts_match SampleQueries.word_index
        (matchString (v_sources (SampleQueries.one_fragment "info" 0))
                     (v_notSources (SampleQueries.one_fragment "info" 0))
                     (v_fragments (SampleQueries.one_fragment "info" 0))) r = true.
Proof.
  refine (FilterStream_delivers_stored_events SampleQueries.word_index 1 no_query_faults
            three_events (SampleQueries.one_fragment "info") (Some 150%Z) (Some 250%Z)
            (mkStream [[EventWithId.mk 2 "2024-01-01 info ok src=b" "" "B" 200]]
                      [LogExecutingStmt "(raw:info )" 0])
            _ _ 0 _ _ _ _).
  - apply one_fragment_no_quotes; [reflexivity| |]; intros t [= <-]; vm_compute; reflexivity.
  - vm_compute. reflexivity.
  - reflexivity.
  - apply list_elem_of_here.
Defined.

(** The event that holds the largest identity at the time of the snapshot,
    and every later one, is never delivered by a search without a quote:
    the pages are selected with [e.id < maxID]. *)
Theorem FilterStream_below_snapshot
    (eng : Engine) (flt : QueryFaults) (db : Db) (visit : nat → Visit)
    (startTime endTime : option Z) (fuel : nat) (s : Stream) (maxID : Z) :
  no_quotes eng visit startTime endTime →
  FilterStream eng fuel flt db visit startTime endTime = Some s →
  max_id (Events db) = Some maxID →
  ∀ p evt, p ∈ pages s → evt ∈ p → (EventWithId.Id evt < maxID)%Z.
Proof.
  intros Hq Hs Hmax p evt [k Hk]%list_elem_of_lookup Hevt.
  destruct (FilterStream_pages _ _ _ _ _ _ fuel s Hs k p Hk) as (m & Hm & ->).
  rewrite Hmax in Hm. injection Hm as <-.
  apply delivered_row in Hevt as (row & -> & Hw & _); [|by apply no_quotes_reads].
  unfold where_clause in Hw. apply andb_true_iff in Hw as [Hw _].
  apply andb_true_iff in Hw as [Hw _]. by apply Z.ltb_lt in Hw.
Qed.

Lemma FilterStream_below_snapshot_witness :
  max_id (Events three_events) = Some 3%Z
  ∧ (EventWithId.Id (EventWithId.mk 2 "2024-01-01 info ok src=b" "" "B" 200) < 3)%Z.
Proof.
  split; [reflexivity|].
  refine (FilterStream_below_snapshot SampleQueries.word_index no_query_faults three_events
            (SampleQueries.one_fragment "2024") None None 1
            (mkStream
               [[EventWithId.mk 2 "2024-01-01 info ok src=b" "" "B" 200;
                 EventWithId.mk 1 "2024-01-01 error disk full src=a" "" "A" 100]]
               [LogExecutingStmt "(raw:2024 )" 0]) 3 _ _ _ _ _ _ _).
  - apply one_fragment_no_quotes; [reflexivity| |]; intros t [=].
  - vm_compute. reflexivity.
  - vm_compute. reflexivity.
  - apply list_elem_of_here.
  - apply list_elem_of_here.
Defined.

(** ** [FilterStream]: the pages together *)

Section Pagination.

Variable eng : Engine.
Variables (db : Db) (visit : nat → Visit).
Variables (startTime endTime : option Z) (maxID : Z).

(** the rows the statement of the first page selects, before LIMIT and OFFSET *)
Local Abbreviation all_selected :=
  (selected eng db (page_stmt visit startTime endTime maxID 0)).

Lemma selected_same_visit k :
  visit k = visit 0 →
  selected eng db (page_stmt visit startTime endTime maxID k) = all_selected.
Proof.
  intros Hv. unfold selected. f_equal. apply list_filter_iff. intros row.
  unfold where_clause, page_stmt. cbn [st_maxID st_startTime st_endTime st_match].
  by rewrite Hv.
Qed.

Lemma loop_concat fuel : ∀ page s,
  (∀ k, visit k = visit 0) →
  (∀ k, reads_as_written eng (page_stmt visit startTime endTime maxID k) = true) →
  FilterStream_loop eng fuel no_query_faults db visit startTime endTime maxID
    page (page * filterStreamPageSize) = Some s →
  concat (pages s) = Join.scan <$> drop (page * filterStreamPageSize) all_selected
  ∧ ∃ full final,
      pages s = full ++ [final]
      ∧ Forall (fun p => length p = filterStreamPageSize) full
      ∧ length final < filterStreamPageSize.
Proof.
  induction fuel as [|fuel IH]; intros page s Hv Hread Hs; [done|].
  rewrite loop_unfold in Hs. cbv zeta in Hs.
  cbn [page_query_fault row_scan_fault no_query_faults] in Hs.
  rewrite (filter_all (fun _ => None = None)) in Hs by done.
  unfold page_rows, stepped in Hs. cbn [rows_fault no_query_faults] in Hs.
  rewrite (run_statement_read eng db _ (Hread page)) in Hs.
  unfold run_page in Hs. rewrite (selected_same_visit page (Hv page)) in Hs.
  cbn [page_stmt st_limit st_offset] in Hs.
  set (rows := take filterStreamPageSize (drop (page * filterStreamPageSize) all_selected))
    in *.
  rewrite length_fmap in Hs.
  case_bool_decide as Hshort.
  - injection Hs as <-. cbn [pages concat]. rewrite app_nil_r.
    assert (rows = drop (page * filterStreamPageSize) all_selected) as Hrows.
    { subst rows. apply take_ge. rewrite length_take in Hshort. lia. }
    split; [by rewrite Hrows|].
    exists [], (Join.scan <$> rows). split; [done|]. split; [constructor|].
    by rewrite length_fmap.
  - destruct (FilterStream_loop _ fuel _ _ _ _ _ _ (S page) _) as [rest|] eqn:E; [|done].
    injection Hs as <-.
    destruct (IH (S page) rest Hv Hread E) as (Hcat & full & final & Hp & Hf & Hl).
    cbn [pages concat]. split.
    + rewrite Hcat, <- fmap_app. f_equal. subst rows.
      rewrite Nat.mul_succ_l, <- drop_drop. apply take_drop.
    + exists ((Join.scan <$> rows) :: full), final. rewrite Hp. split; [done|].
      split; [|done]. constructor; [|done]. rewrite length_fmap.
      subst rows. rewrite length_take in Hshort |- *. lia.
Qed.

End Pagination.

(** When nothing fails, no term and no bound holds a quote, and every
    iteration builds the same MATCH text, the pages put one after the other
    are exactly the rows the statement selects (identity below the snapshot,
    stored timestamp text within the bound texts, MATCH), in its order: no row
    is lost and none is delivered twice.  All pages but the last hold exactly
    1000 events, the last fewer, so that a selection of exactly 1000 rows is
    followed by one empty page. *)
Theorem FilterStream_paginates
    (eng : Engine) (db : Db) (visit : nat → Visit)
    (startTime endTime : option Z) (maxID : Z) :
  max_id (Events db) = Some maxID →
  (∀ k, visit k = visit 0) →
  no_quotes eng visit startTime endTime →
  ∃ s,
    (∀ fuel, length (Join.rows db) < fuel →
       FilterStream eng fuel no_query_faults db visit startTime endTime = Some s)
    ∧ concat (pages s)
      = Join.scan <$> selected eng db (page_stmt visit startTime endTime maxID 0)
    ∧ ∃ full final,
        pages s = full ++ [final]
        ∧ Forall (fun p => length p = filterStreamPageSize) full
        ∧ length final < filterStreamPageSize.
Proof.
  intros Hmax Hv Hq.
  assert (∀ k, reads_as_written eng (page_stmt visit startTime endTime maxID k) = true)
    as Hread by (intros k; by apply no_quotes_reads).
  destruct (loop_total eng no_query_faults db visit startTime endTime maxID
              (length (Join.rows db)) 0 (S (length (Join.rows db)))) as [s Hs].
  { exact Hread. }
  { unfold filterStreamPageSize. lia. }
  { lia. }
  exists s. split.
  - intros fuel Hfuel. unfold FilterStream.
    cbn [maxid_query_fault maxid_no_row maxid_scan_fault no_query_faults]. rewrite Hmax.
    exact (loop_mono _ _ _ _ _ _ _ _ 0 s Hs fuel ltac:(lia)).
  - destruct (loop_concat _ _ _ _ _ _ _ 0 s Hv Hread Hs) as [Hcat Hshape].
    split; [|exact Hshape]. rewrite Hcat. cbn [Nat.mul]. by rewrite drop_0.
Qed.

Lemma FilterStream_paginates_witness :
  max_id (Events three_events) = Some 3%Z
  ∧ ∃ s,
      FilterStream SampleQueries.word_index 4 no_query_faults three_events
        (SampleQueries.one_fragment "2024") (Some 50%Z) None = Some s
      ∧ concat (pages s)
        = Join.scan <$> selected SampleQueries.word_index three_events
                          (page_stmt (SampleQueries.one_fragment "2024")
                             (Some 50%Z) None 3 0).
Proof.
  split; [reflexivity|].
  assert (no_quotes SampleQueries.word_index (SampleQueries.one_fragment "2024")
            (Some 50%Z) None) as Hq.
  { apply one_fragment_no_quotes; [reflexivity| |].
    - intros t [= <-]. vm_compute. reflexivity.
    - intros t [=]. }
  destruct (FilterStream_paginates SampleQueries.word_index three_events
              (SampleQueries.one_fragment "2024") (Some 50%Z) None 3 eq_refl
              (fun _ => eq_refl) Hq)
    as (s & Hfuel & Hcat & _).
  exists s. split; [|exact Hcat]. apply Hfuel. vm_compute. lia.
Defined.

(** ** [GetByIds]: scan errors, and no panic *)

Lemma GetByIds_rows_outcome rows : ∀ scan_fault idx ret,
  idx + length rows ≤ length ret →
  match GetByIds_rows scan_fault rows idx ret with
  | Returned ret' =>
      length ret' = length ret ∧ ∀ j, j < length rows → scan_fault (idx + j) = None
  | Failed err =>
      ∃ j msg, j < length rows ∧ scan_fault (idx + j) = Some msg
               ∧ err = Errorf "error when scanning row in GetByIds" msg
               ∧ ∀ i, i < j → scan_fault (idx + i) = None
  | Panicked _ => False
  end.
Proof.
  induction rows as [|row rows IH]; intros scan_fault idx ret Hlen.
  - cbn [GetByIds_rows length]. split; [done|]. intros j Hj. lia.
  - cbn [GetByIds_rows length] in *. rewrite bool_decide_eq_true_2 by lia.
    destruct (scan_fault idx) as [msg|] eqn:Hsf.
    + exists 0, msg. rewrite Nat.add_0_r. repeat split; try done; [lia|]. intros i Hi. lia.
    + specialize (IH scan_fault (S idx) (<[idx := Join.scan row]> ret)).
      rewrite length_insert in IH. specialize (IH ltac:(lia)).
      destruct (GetByIds_rows scan_fault rows (S idx) _) as [ret'|err|why]; [| |done].
      * destruct IH as [Hl Hnone]. split; [done|].
        intros [|j] Hj; [by rewrite Nat.add_0_r|].
        replace (idx + S j) with (S idx + j) by lia. apply Hnone. lia.
      * destruct IH as (j & msg & Hj & Hmsg & -> & Hbefore).
        exists (S j), msg. replace (idx + S j) with (S idx + j) by lia.
        repeat split; try done; [lia|].
        intros [|i] Hi; [by rewrite Nat.add_0_r|].
        replace (idx + S i) with (S idx + i) by lia. apply Hbefore. lia.
Qed.

(** On a store whose keys are unique, [GetByIds] never indexes beyond its
    result slice, whatever list it is given and whichever scans fail.  It
    either returns [len(ids)] entries, and then no scan of a found row failed,
    or it returns the error of the first scan that failed, wrapped. *)
Theorem GetByIds_never_panics
    (retrieval_order : list (EventsRow * EventRawsRow) → list (EventsRow * EventRawsRow))
    (scan_fault : nat → option string) (db : Db) (ids : list Z) :
  (∀ l, retrieval_order l ≡ₚ l) →
  keys_unique db →
  let found := length (select_by_ids retrieval_order db ids) in
  match GetByIds retrieval_order None scan_fault db ids with
  | Returned ret => length ret = length ids ∧ ∀ j, j < found → scan_fault j = None
  | Failed err =>
      ∃ j msg, j < found ∧ scan_fault j = Some msg
               ∧ err = Errorf "error when scanning row in GetByIds" msg
               ∧ ∀ i, i < j → scan_fault i = None
  | Panicked _ => False
  end.
Proof.
  intros Hperm Hkeys found. unfold GetByIds.
  pose proof (select_by_ids_length retrieval_order Hperm db ids Hkeys) as Hlen.
  pose proof (GetByIds_rows_outcome (select_by_ids retrieval_order db ids) scan_fault 0
                (replicate (length ids) EventWithId.zero)) as H.
  rewrite length_replicate in H. specialize (H Hlen). cbn [Nat.add] in H. exact H.
Qed.

Lemma GetByIds_never_panics_witness :
  (∀ l : list (EventsRow * EventRawsRow), (fun l => l) l ≡ₚ l)
  ∧ keys_unique three_events
  ∧ match GetByIds (fun l => l) None
            (fun k => if bool_decide (k = 1) then Some "bad timestamp" else None)
            three_events [3; 7; 1]%Z with
    | Returned ret => length ret = 3
    | Failed err => ∃ msg, err = Errorf "error when scanning row in GetByIds" msg
    | Panicked _ => False
    end.
Proof.
  split; [done|]. split; [exact three_events_keys_unique|].
  pose proof (GetByIds_never_panics (fun l => l)
                (fun k => if bool_decide (k = 1) then Some "bad timestamp" else None)
                three_events [3; 7; 1]%Z (fun l => reflexivity l)
                three_events_keys_unique) as H.
  cbv zeta in H. destruct (GetByIds _ _ _ _ _) as [ret|err|why].
  - exact (proj1 H).
  - destruct H as (j & msg & _ & _ & Herr & _). exists msg. exact Herr.
  - exact H.
Defined.

(** ** The refinement: order of the visits, and what it keeps *)

Section RefinementFacts.

Variable Regexp : Type.
Variable MatchString : Regexp → string → bool.
Variable FieldExtractors : Type.
Variable ExtractFields : string → FieldExtractors → gmap string string.
Variable ToLower : string → string.

Local Abbreviation decide_event :=
  (shouldIncludeEvent Regexp MatchString FieldExtractors ExtractFields ToLower).
Local Abbreviation refine :=
  (refine_page Regexp MatchString FieldExtractors ExtractFields ToLower).
Local Abbreviation fields_seen evt extractors :=
  (<["source" := EventWithId.Source evt]>
     (ExtractFields (ToLower (EventWithId.Raw evt)) extractors)).

Lemma decide_event_required_order evt extractors frags frags' notFrags notFrags'
    fields fields' notFields :
  frags ≡ₚ frags' → notFrags ≡ₚ notFrags' → fields ≡ₚ fields' →
  decide_event evt extractors frags notFrags fields notFields
  = decide_event evt extractors frags' notFrags' fields' notFields.
Proof.
  intros H1 H2 H3. rewrite !shouldIncludeEvent_spec. cbv zeta.
  by rewrite (forallb_Permutation _ _ _ H1), (existsb_Permutation _ _ _ H2),
    (forallb_Permutation _ _ _ H3).
Qed.

Lemma decide_event_forbidden_order evt extractors frags notFrags fields
    (notFields notFields' : list (string * list Regexp)) :
  notFields ≡ₚ notFields' →
  (∀ kv, kv ∈ notFields → is_Some (fields_seen evt extractors !! kv.1)) →
  decide_event evt extractors frags notFrags fields notFields
  = decide_event evt extractors frags notFrags fields notFields'.
Proof.
  intros Hp Hall. rewrite !shouldIncludeEvent_spec. cbv zeta.
  rewrite !before_first_absent_present; [by rewrite (existsb_Permutation _ _ _ Hp)| |done].
  intros kv Hkv. apply Hall. by rewrite Hp.
Qed.

Lemma refine_page_keeps extractors frags notFrags ranges evts : ∀ i,
  forget_fields <$> refine extractors frags notFrags ranges i evts
    `sublist_of` core <$> evts
  ∧ Forall (fun e => EventWithExtractedFields.Fields e !! "source"
                     = Some (EventWithExtractedFields.Source e))
           (refine extractors frags notFrags ranges i evts).
Proof.
  induction evts as [|evt evts IH]; intros i; [by split; [|constructor]|].
  cbn [refine_page]. destruct (IH (S i)) as [Hsub Hsrc].
  rewrite shouldIncludeEvent_spec. cbv zeta.
  destruct (_ && _).
  - split.
    + rewrite !fmap_cons. by apply sublist_skip.
    + constructor; [|done]. cbn. apply lookup_insert_eq.
  - split; [|done]. rewrite fmap_cons. by apply sublist_cons.
Qed.

Lemma refine_page_unconstrained extractors ranges evts : ∀ i,
  (∀ j, range_fields Regexp (ranges j) = [] ∧ range_notFields Regexp (ranges j) = []) →
  forget_fields <$> refine extractors [] [] ranges i evts = core <$> evts.
Proof.
  induction evts as [|evt evts IH]; intros i Hr; [done|].
  cbn [refine_page]. destruct (Hr i) as [-> ->].
  rewrite shouldIncludeEvent_spec. cbv zeta. cbn [forallb existsb before_first_absent negb andb].
  rewrite !fmap_cons. f_equal. by apply IH.
Qed.

End RefinementFacts.

(** The order in which the required fragments, the forbidden fragments and
    the required fields are visited never changes the decision, nor the
    fields that are returned; and the order of the forbidden fields does not
    either, as long as the event has every field they name. *)
Theorem shouldIncludeEvent_visit_orders
    (Regexp : Type) (MatchString : Regexp → string → bool) (FieldExtractors : Type)
    (ExtractFields : string → FieldExtractors → gmap string string)
    (ToLower : string → string) (evt : EventWithId) (extractors : FieldExtractors)
    (frags frags' notFrags notFrags' : list Regexp)
    (fields fields' notFields notFields' : list (string * list Regexp)) :
  frags ≡ₚ frags' → notFrags ≡ₚ notFrags' → fields ≡ₚ fields' →
  shouldIncludeEvent Regexp MatchString FieldExtractors ExtractFields ToLower
    evt extractors frags notFrags fields notFields
  = shouldIncludeEvent Regexp MatchString FieldExtractors ExtractFields ToLower
      evt extractors frags' notFrags' fields' notFields
  ∧ (notFields ≡ₚ notFields' →
     (∀ kv, kv ∈ notFields →
        is_Some ((<["source" := EventWithId.Source evt]>
                    (ExtractFields (ToLower (EventWithId.Raw evt)) extractors)) !! kv.1)) →
     shouldIncludeEvent Regexp MatchString FieldExtractors ExtractFields ToLower
       evt extractors frags notFrags fields notFields
     = shouldIncludeEvent Regexp MatchString FieldExtractors ExtractFields ToLower
         evt extractors frags' notFrags' fields' notFields').
Proof.
  intros H1 H2 H3. split; [by apply decide_event_required_order|].
  intros H4 Hall.
  rewrite (decide_event_forbidden_order _ _ _ _ _ _ _ _ _ _ _ notFields' H4 Hall).
  by apply decide_event_required_order.
Qed.

Lemma shouldIncludeEvent_visit_orders_witness :
  Toy.include Toy.evt502 ["get"; "status"] ["error"; "panic"]
    [("status", ["500"; "502"]); ("source", ["a"])] Toy.host_first
  = Toy.include Toy.evt502 ["status"; "get"] ["panic"; "error"]
      [("source", ["a"]); ("status", ["500"; "502"])] Toy.host_first.
Proof.
  unfold Toy.include.
  exact (f_equal snd
           (proj1 (shouldIncludeEvent_visit_orders string Toy.MatchString unit
                     Toy.ExtractFields Toy.ToLower Toy.evt502 tt
                     ["get"; "status"] ["status"; "get"]
                     ["error"; "panic"] ["panic"; "error"]
                     [("status", ["500"; "502"]); ("source", ["a"])]
                     [("source", ["a"]); ("status", ["500"; "502"])]
                     Toy.host_first Toy.host_first
                     (perm_swap _ _ _) (perm_swap _ _ _) (perm_swap _ _ _)))).
Defined.

Lemma shouldIncludeEvent_all_present_witness :
  (∀ kv, kv ∈ [("status", ["500"])] →
     is_Some (ToyStream.fields_of Toy.evt502 !! kv.1))
  ∧ Toy.include Toy.evt502 ["get"] ["error"] [("status", ["500"; "502"])]
      [("status", ["500"])] = true.
Proof.
  assert (∀ kv : string * list string, kv ∈ [("status", ["500"])] →
            is_Some (ToyStream.fields_of Toy.evt502 !! kv.1)) as Hall.
  { intros kv Hkv. apply list_elem_of_singleton in Hkv as ->. vm_compute. eauto. }
  split; [exact Hall|].
  apply (proj2 (shouldIncludeEvent_all_present string Toy.MatchString unit
                  Toy.ExtractFields Toy.ToLower Toy.evt502 tt ["get"] ["error"]
                  [("status", ["500"; "502"])] [("status", ["500"])] Hall)).
  split; [|split; [|split]]; intros x Hx;
    apply list_elem_of_singleton in Hx as ->; vm_compute; reflexivity.
Defined.

(** ** [FilterEventsStream] *)

(** The refinement forwards one page per page it receives, empty ones
    included.  It only drops events: identity, raw text, timestamp and source
    of the events of a refined page are those of events of the page it was
    made from, in their order.  And every event it delivers carries a field
    [source] that holds the source of the event, whatever the extractors
    found under that name. *)
Theorem FilterEventsStream_only_drops
    (Regexp : Type) (MatchString : Regexp → string → bool) (FieldExtractors : Type)
    (ExtractFields : string → FieldExtractors → gmap string string)
    (ToLower : string → string) (inputEvents : list (list EventWithId))
    (extractors : FieldExtractors) (frags notFrags : list Regexp)
    (ranges : nat → nat → Ranges Regexp) :
  let out := FilterEventsStream Regexp MatchString FieldExtractors ExtractFields ToLower
               inputEvents extractors frags notFrags ranges in
  length out = length inputEvents
  ∧ ∀ p refined, out !! p = Some refined →
      ∃ evts, inputEvents !! p = Some evts
              ∧ forget_fields <$> refined `sublist_of` core <$> evts
              ∧ Forall (fun e => EventWithExtractedFields.Fields e !! "source"
                                 = Some (EventWithExtractedFields.Source e)) refined.
Proof.
  intros out. subst out. unfold FilterEventsStream. split; [apply length_imap|].
  intros p refined Hp. rewrite list_lookup_imap in Hp.
  destruct (inputEvents !! p) as [evts|]; [|done]. injection Hp as <-.
  exists evts. split; [done|]. apply refine_page_keeps.
Qed.

(** A search without fragments and without field constraints keeps every
    event of every page. *)
Theorem FilterEventsStream_unconstrained
    (Regexp : Type) (MatchString : Regexp → string → bool) (FieldExtractors : Type)
    (ExtractFields : string → FieldExtractors → gmap string string)
    (ToLower : string → string) (inputEvents : list (list EventWithId))
    (extractors : FieldExtractors) :
  (fun refined : list EventWithExtractedFields => forget_fields <$> refined)
    <$> FilterEventsStream Regexp MatchString FieldExtractors ExtractFields ToLower
          inputEvents extractors [] [] (fun _ _ => mkRanges Regexp [] [])
  = (fun evts : list EventWithId => core <$> evts) <$> inputEvents.
Proof.
  unfold FilterEventsStream. apply list_eq. intros p.
  rewrite !list_lookup_fmap, list_lookup_imap.
  destruct (inputEvents !! p) as [evts|]; [|done]. cbn [fmap option_fmap option_map].
  f_equal. by apply refine_page_unconstrained.
Qed.

Lemma core_scan_order text a b :
  newer_or_equal text a b → core_newer_or_equal text (core a) (core b).
Proof. done. Qed.

(** The two stages together: for a search without a quote, the pages the
    refinement makes of the pages of [FilterStream] hold at most 1000 events
    each, in the order of the statement: the stored text of the timestamp
    descending, then identity descending. *)
Theorem refined_pages_newest_first
    (Regexp : Type) (MatchString : Regexp → string → bool) (FieldExtractors : Type)
    (ExtractFields : string → FieldExtractors → gmap string string)
    (ToLower : string → string) (extractors : FieldExtractors)
    (frags notFrags : list Regexp) (ranges : nat → nat → Ranges Regexp)
    (eng : Engine) (fuel : nat) (flt : QueryFaults)
    (db : Db) (visit : nat → Visit) (startTime endTime : option Z) (s : Stream) :
  no_quotes eng visit startTime endTime →
  FilterStream eng fuel flt db visit startTime endTime = Some s →
  Forall (fun refined =>
            length refined ≤ filterStreamPageSize
            ∧ StronglySorted (core_newer_or_equal (timestamp_text eng))
                (forget_fields <$> refined))
         (FilterEventsStream Regexp MatchString FieldExtractors ExtractFields ToLower
            (pages s) extractors frags notFrags ranges).
Proof.
  intros Hq Hs. apply Forall_lookup. intros p refined Hp.
  unfold FilterEventsStream in Hp. rewrite list_lookup_imap in Hp.
  destruct (pages s !! p) as [evts|] eqn:Hevts; [|done]. injection Hp as <-.
  destruct (FilterStream_pages _ _ _ _ _ _ fuel s Hs p evts Hevts) as (maxID & _ & ->).
  destruct (scanned_page_ok eng flt db visit startTime endTime maxID p)
    as [Hlen Hsorted]; [by apply no_quotes_reads|].
  destruct (refine_page_keeps Regexp MatchString FieldExtractors ExtractFields ToLower
              extractors frags notFrags (ranges p)
              (filter (fun evt => row_scan_fault flt p evt = None)
                 (page_rows eng flt db visit startTime endTime maxID p)) 0)
    as [Hsub _].
  split.
  - rewrite <- (length_fmap forget_fields). etrans; [apply sublist_length, Hsub|].
    by rewrite length_fmap.
  - eapply StronglySorted_sublist; [exact Hsub|].
    by apply (StronglySorted_fmap _ (newer_or_equal (timestamp_text eng)));
      [apply core_scan_order|].
Qed.

Lemma refined_pages_newest_first_witness :
  Forall (fun refined =>
            length refined ≤ filterStreamPageSize
            ∧ StronglySorted (core_newer_or_equal (timestamp_text SampleQueries.word_index))
                (forget_fields <$> refined))
         (FilterEventsStream string Toy.MatchString unit Toy.ExtractFields Toy.ToLower
            [[EventWithId.mk 2 "2024-01-01 info ok src=b" "" "B" 200;
              EventWithId.mk 1 "2024-01-01 error disk full src=a" "" "A" 100]]
            tt ["2024"] [] (fun _ _ => mkRanges string [] [])).
Proof.
  refine (refined_pages_newest_first string Toy.MatchString unit Toy.ExtractFields
            Toy.ToLower tt ["2024"] [] (fun _ _ => mkRanges string [] [])
            SampleQueries.word_index 1 no_query_faults three_events
            (SampleQueries.one_fragment "2024") None None
            (mkStream _ [LogExecutingStmt "(raw:2024 )" 0]) _ _).
  - apply one_fragment_no_quotes; [reflexivity| |]; intros t [=].
  - vm_compute. reflexivity.
Defined.

(** ** The flushing task: nothing is lost *)

Section FlusherMoreFacts.

Import Flusher.

Variable AddBatch_err : list Event → option string.

Lemma step_conserves st sel :
  flushed (step AddBatch_err st sel).1.2 ++ accumulated (step AddBatch_err st sel).1.1
  = accumulated st ++ received [sel].
Proof.
  destruct sel as [now|now evt]; unfold step, flushed, received; cbn [omap list_omap].
  - case_bool_decide as Hne; cbn [fst snd accumulated fmap list_fmap concat batch app].
    + by rewrite !app_nil_r.
    + destruct (accumulated st); [done|cbn [length] in Hne; lia].
  - case_bool_decide; cbn [fst snd accumulated fmap list_fmap concat batch app].
    + by rewrite !app_nil_r.
    + done.
Qed.

Lemma run_conserves sels : ∀ st,
  flushed (run AddBatch_err st sels).2 ++ accumulated (run AddBatch_err st sels).1
  = accumulated st ++ received sels.
Proof.
  induction sels as [|sel sels IH]; intros st.
  - cbn. by rewrite app_nil_r.
  - cbn [run]. pose proof (step_conserves st sel) as Hstep.
    destruct (step AddBatch_err st sel) as [[st1 fl] log]. cbn [fst snd] in Hstep.
    specialize (IH st1). destruct (run AddBatch_err st1 sels) as [st2 fls].
    cbn [fst snd] in *. unfold flushed in *. rewrite fmap_app, concat_app, <- app_assoc, IH.
    rewrite app_assoc, Hstep, <- app_assoc. f_equal.
    change (sel :: sels) with ([sel] ++ sels). unfold received. by rewrite omap_app.
Qed.

Lemma received_submissions l : received (submissions l) = l.*2.
Proof.
  unfold received, submissions. induction l as [|[t e] l IH]; [done|].
  rewrite !fmap_cons. cbn [omap list_omap fst snd]. by rewrite IH.
Qed.

Lemma run_submissions_full l : ∀ st,
  length (accumulated st) < 1000 →
  Forall (fun f => length (batch f) = 1000) (run AddBatch_err st (submissions l)).2.
Proof.
  induction l as [|[t e] l IH]; intros st Hlen; [by apply Forall_nil_2|].
  unfold submissions. rewrite fmap_cons. fold (submissions l). cbn [run fst snd].
  destruct (decide (length (accumulated st) + 1 < 1000)) as [Hlt|Hge].
  - rewrite step_recv_below by done.
    specialize (IH (mkState (accumulated st ++ [e]) (timeout st))).
    cbn [accumulated] in IH. rewrite length_app in IH. cbn [length] in IH.
    specialize (IH Hlt). destruct (run AddBatch_err _ (submissions l)). done.
  - rewrite step_recv_full by lia.
    specialize (IH (mkState [] (t + Second))). cbn [accumulated length] in IH.
    specialize (IH ltac:(lia)). destruct (run AddBatch_err _ (submissions l)).
    cbn [snd app] in *. constructor; [|done]. cbn [batch]. rewrite length_app. cbn [length].
    lia.
Qed.

Lemma length_concat_uniform {A} (n : nat) (ls : list (list A)) :
  Forall (fun l => length l = n) ls → length (concat ls) = n * length ls.
Proof.
  induction 1 as [|l ls Hl _ IH]; [cbn; lia|].
  cbn [concat length]. rewrite length_app, IH, Hl. lia.
Qed.

End FlusherMoreFacts.

(** The task neither loses, nor repeats, nor reorders an event: at any moment
    the events of the batches it handed to the store, followed by the events
    still in its buffer, are the events it held at first followed by the
    events it received, in the order it received them. *)
Theorem flusher_loses_nothing
    (AddBatch_err : list Event → option string) (st : Flusher.State)
    (sels : list Flusher.Select) :
  flushed (Flusher.run AddBatch_err st sels).2
    ++ Flusher.accumulated (Flusher.run AddBatch_err st sels).1
  = Flusher.accumulated st ++ received sels.
Proof. apply run_conserves. Qed.

(** While the timer does not fire, a freshly started task that receives n
    events makes n / 1000 calls of [AddBatch], each with exactly 1000 events,
    and keeps the remaining n mod 1000 events in its buffer. *)
Theorem flusher_size_trigger_only
    (AddBatch_err : list Event → option string) (start : Z) (l : list (Z * Event)) :
  let r := Flusher.run AddBatch_err (Flusher.init start) (submissions l) in
  Forall (fun f => length (Flusher.batch f) = 1000) r.2
  ∧ length r.2 = length l / 1000
  ∧ length (Flusher.accumulated r.1) = length l mod 1000
  ∧ flushed r.2 ++ Flusher.accumulated r.1 = l.*2.
Proof.
  intros r.
  assert (Forall (fun f => length (Flusher.batch f) = 1000) r.2) as Hfull.
  { apply run_submissions_full. cbn. lia. }
  pose proof (run_conserves AddBatch_err (submissions l) (Flusher.init start)) as Hcons.
  fold r in Hcons. cbn [Flusher.init Flusher.accumulated app] in Hcons.
  rewrite received_submissions in Hcons.
  destruct (run_bounded AddBatch_err (submissions l) (Flusher.init start)) as [Hlt _];
    [cbn; lia|]. fold r in Hlt.
  assert (length l = 1000 * length r.2 + length (Flusher.accumulated r.1)) as Hlen.
  { rewrite <- (length_fmap snd l), <- Hcons, length_app. unfold flushed.
    rewrite (length_concat_uniform 1000), length_fmap; [done|].
    by apply Forall_fmap. }
  split; [done|]. split; [|split; [|done]].
  - by apply (Nat.div_unique _ _ _ (length (Flusher.accumulated r.1))).
  - by apply (Nat.mod_unique _ _ (length r.2)).
Qed.

(** ** The parentheses of the MATCH text *)

Lemma paren_depth_app s1 : ∀ s2 d,
  paren_depth (s1 ++ s2) d
  = match paren_depth s1 d with Some d' => paren_depth s2 d' | None => None end.
Proof.
  induction s1 as [|c s1 IH]; intros s2 d; [done|].
  change (String c s1 +:+ s2) with (String c (s1 +:+ s2)). cbn [paren_depth].
  destruct (Ascii.eqb c "("); [apply IH|].
  destruct (Ascii.eqb c ")"); [|apply IH].
  destruct d; [done|apply IH].
Qed.

Lemma paren_depth_no_paren s : ∀ d, no_paren s = true → paren_depth s d = Some d.
Proof.
  induction s as [|c s IH]; intros d Hs; [done|].
  cbn [no_paren paren_depth] in *.
  destruct (Ascii.eqb c "("); [done|]. destruct (Ascii.eqb c ")"); [done|].
  by apply IH.
Qed.

Lemma paren_depth_terms (pre : string) (l : list string) : ∀ m d,
  no_paren pre = true → Forall (fun s => no_paren s = true) l →
  paren_depth (foldl (fun m s => (m ++ pre ++ s ++ " ")%string) m l) d = paren_depth m d.
Proof.
  induction l as [|s l IH]; intros m d Hpre Hl; [done|].
  apply Forall_cons in Hl as [Hs Hl]. cbn [foldl]. rewrite IH by done.
  rewrite !paren_depth_app.
  destruct (paren_depth m d) as [d'|]; [|done].
  rewrite paren_depth_app, (paren_depth_no_paren pre) by done.
  by rewrite paren_depth_app, (paren_depth_no_paren s) by done.
Qed.

Ltac decide_lengths :=
  repeat match goal with
         | |- context [bool_decide ?P] =>
             first [ rewrite (bool_decide_eq_true_2 P) by (cbn [length]; lia)
                   | rewrite (bool_decide_eq_false_2 P) by (cbn [length]; lia) ]
         end.

(** When no source and no fragment contains a parenthesis, the MATCH text has
    balanced parentheses exactly when a source is required or no source is
    excluded: excluding sources without requiring one always yields a text
    that closes a parenthesis it never opened. *)
Theorem matchString_balanced_iff (sources notSources fragments : list string) :
  Forall (fun s => no_paren s = true) sources →
  Forall (fun s => no_paren s = true) notSources →
  Forall (fun s => no_paren s = true) fragments →
  balanced (matchString sources notSources fragments) = true
  ↔ sources ≠ [] ∨ notSources = [].
Proof.
  intros HS HN HF. unfold balanced, matchString. cbv zeta.
  destruct sources as [|s S], notSources as [|n N], fragments as [|f F];
    decide_lengths;
    repeat (rewrite ?paren_depth_app, ?paren_depth_terms by done; cbn [paren_depth Ascii.eqb]);
    cbn; naive_solver.
Qed.

Lemma matchString_balanced_iff_witness :
  balanced (matchString ["a"] ["b"; "c"] ["x"]) = true.
Proof.
  apply (matchString_balanced_iff ["a"] ["b"; "c"] ["x"]).
  - repeat constructor.
  - repeat constructor.
  - repeat constructor.
  - left. discriminate.
Defined.

(** ** The publishers behind the interface *)

(** Debug publishers are transparent: however many of them wrap a publisher,
    a submission reaches it once and unchanged, it sends what it would have
    sent alone, and each wrapper adds one line to the log, before those of the
    publisher it wraps.  A debug publisher around nil and the publisher that
    does nothing send no event. *)
Theorem DebugEventPublisher_is_transparent
    (FieldExtractors : Type)
    (ExtractFields : string → FieldExtractors → gmap string string)
    (ToLower : string → string) (time_Parse : string → string → Res Z)
    (n : nat) (ep : EventPublisher FieldExtractors) (now : Z) (evt : RawEvent)
    (timeLayout : string) :
  let publish := EventPublisher_PublishEvent FieldExtractors ExtractFields ToLower
                   time_Parse in
  publish (DebugEventPublisher_times FieldExtractors n ep) now evt timeLayout
  = ((publish ep now evt timeLayout).1,
     replicate n (LogReceivedEvent evt) ++ (publish ep now evt timeLayout).2)
  ∧ (publish (DebugEventPublisher_times FieldExtractors n (debugEventPublisher None))
       now evt timeLayout).1 = []
  ∧ (publish (DebugEventPublisher_times FieldExtractors n nopEventPublisher)
       now evt timeLayout).1 = [].
Proof.
  intros publish.
  assert (∀ ep, publish (DebugEventPublisher_times FieldExtractors n ep) now evt timeLayout
                = ((publish ep now evt timeLayout).1,
                   replicate n (LogReceivedEvent evt) ++ (publish ep now evt timeLayout).2))
    as Hn.
  { clear ep. intros ep. induction n as [|n IH].
    - cbn [DebugEventPublisher_times replicate app]. by destruct (publish ep _ _ _).
    - cbn [DebugEventPublisher_times replicate]. subst publish.
      cbn [EventPublisher_PublishEvent]. by rewrite IH. }
  split; [apply Hn|]. by rewrite !Hn.
Qed.

(** ** [AddBatch]: the order of the identities *)

Lemma novel_before_grows st events k1 k2 :
  k1 < k2 → dup_in st events k1 = false →
  length (novel_before st events k1) < length (novel_before st events k2).
Proof.
  intros Hlt Hnovel. unfold novel_before.
  replace k2 with (k1 + (1 + (k2 - k1 - 1))) by lia.
  rewrite seq_app, filter_app, length_app. rewrite seq_app, filter_app, length_app.
  cbn [seq]. rewrite filter_cons_True by done. cbn [length]. lia.
Qed.

(** Duplicates or not, the identities a batch receives follow the order of
    the batch: of two novel events the later one receives the larger
    identity, and both identities are larger than every identity stored
    before. *)
Theorem AddBatch_identities_follow_the_batch (db : Db) (events : list Event)
    (k1 k2 : nat) :
  raws_in_events db →
  k1 < k2 < length events →
  is_duplicate db events k1 = false →
  is_duplicate db events k2 = false →
  ∃ ret id1 id2,
    ab_ret (AddBatch no_faults db events) = Some ret
    ∧ ret !! k1 = Some id1 ∧ ret !! k2 = Some id2
    ∧ (id1 < id2)%Z
    ∧ ∀ e, e ∈ Events db → (e_id e < id1)%Z.
Proof.
  intros Hwf [Hlt Hlen] Hn1 Hn2.
  destruct (AddBatch_loop_ok events 0 (mkConn db 0) (replicate (length events) 0%Z) ∅ Hwf)
    as (c' & ret' & nd' & Hloop & _).
  assert (∀ t, t ∈ stored (Events (c_db (mkConn db 0))) ↔ t ∈ stored (Events db))
    as Hst by done.
  pose proof (AddBatch_loop_ret events 0 (mkConn db 0) _ _ _ _ _ _ Hwf Hst Hloop) as Hret.
  rewrite length_replicate in Hret.
  destruct (lookup_lt_is_Some_2 events k1 ltac:(lia)) as [e1 He1].
  destruct (lookup_lt_is_Some_2 events k2 ltac:(lia)) as [e2 He2].
  pose proof (Hret k1 e1 He1 ltac:(lia)) as H1.
  pose proof (Hret k2 e2 He2 ltac:(lia)) as H2.
  unfold is_duplicate in Hn1, Hn2. rewrite Hn1 in H1. rewrite Hn2 in H2.
  cbn [Nat.add c_db] in H1, H2.
  pose proof (novel_before_grows (stored (Events db)) events k1 k2 Hlt Hn1) as Hgrow.
  eexists ret', _, _. split.
  { unfold AddBatch. cbn [begin_fault commit_fault no_faults]. by rewrite Hloop. }
  split; [exact H1|]. split; [exact H2|]. split; [lia|].
  intros e He. pose proof (next_rowid_gt _ _ He). lia.
Qed.

Lemma AddBatch_identities_follow_the_batch_witness :
  ∃ ret id1 id2,
    ab_ret (AddBatch no_faults Sample.db1 [Sample.e2; Sample.e1; Sample.e3]) = Some ret
    ∧ ret !! 0 = Some id1 ∧ ret !! 2 = Some id2
    ∧ (id1 < id2)%Z
    ∧ ∀ e, e ∈ Events Sample.db1 → (e_id e < id1)%Z.
Proof.
  destruct store_ok_db1 as (_ & _ & Hwf).
  apply (AddBatch_identities_follow_the_batch Sample.db1
           [Sample.e2; Sample.e1; Sample.e3] 0 2 Hwf).
  - cbn [length]. lia.
  - reflexivity.
  - reflexivity.
Defined.

(** ** The decision of [shouldIncludeEvent], for every visit *)

(** An event is included exactly when every required fragment matches its
    lower-cased raw text, no forbidden fragment does, every required field
    exists with a value one of its patterns matches, and no forbidden-field
    constraint is hit among those the visit reaches before the first
    constraint on a field the event does not have; the constraints from that
    one on play no part. *)
Theorem shouldIncludeEvent_decision
    (Regexp : Type) (MatchString : Regexp → string → bool) (FieldExtractors : Type)
    (ExtractFields : string → FieldExtractors → gmap string string)
    (ToLower : string → string) (evt : EventWithId) (extractors : FieldExtractors)
    (frags notFrags : list Regexp) (fields notFields : list (string * list Regexp)) :
  let rawLowered := ToLower (EventWithId.Raw evt) in
  let evtFields :=
    <["source" := EventWithId.Source evt]> (ExtractFields rawLowered extractors) in
  (shouldIncludeEvent Regexp MatchString FieldExtractors ExtractFields ToLower
     evt extractors frags notFrags fields notFields).2 = true
  ↔ (∀ f, f ∈ frags → MatchString f rawLowered = true)
    ∧ (∀ f, f ∈ notFrags → MatchString f rawLowered = false)
    ∧ (∀ kv, kv ∈ fields → field_ok Regexp MatchString evtFields kv = true)
    ∧ (∀ kv, kv ∈ before_first_absent Regexp evtFields notFields →
         forbidden_hit Regexp MatchString evtFields kv = false).
Proof.
  intros rawLowered evtFields. rewrite shouldIncludeEvent_spec. cbn [snd].
  fold rawLowered. fold evtFields.
  rewrite !andb_true_iff, !negb_true_iff, !forallb_forall.
  rewrite <- !not_true_iff_false, !existsb_exists.
  setoid_rewrite <- list_elem_of_In. setoid_rewrite <- not_true_iff_false.
  naive_solver.
Qed.
